(** * go-flags: the schema walker, the command identifier and the binder

    A shallow embedding of [flags/flags.go] (package [flags]) together with
    the parts of Go's [reflect], [strings], [strconv] and [flag] packages
    that the file calls.  Go state is passed explicitly: the package-level
    registry [cmds], the process-wide [flag.CommandLine], the variables
    that back the flags, and the schema instance behind the pointer handed
    to [Parse]. *)

From Stdlib Require Import Ascii String ZArith.
From stdpp Require Import base option list gmap strings sorting.

Set Warnings "-register-all".


(** ** Outcomes of Go code *)

(** The [error] values that can reach this package: its own two, and the
    ones the [flag] package builds ([flag.ErrHelp], and [errors.New] of the
    messages formatted by [FlagSet.failf]). *)
Inductive failure :=
  | BadFlagSyntax (s : string)
  | NotDefined (name : string)
  | InvalidBoolValue (value name : string)
  | NeedsArgument (name : string)
  | InvalidValue (value name : string).

Inductive error :=
  | ErrNoArgs
  | ErrWrongType
  | ErrHelp
  | ErrFlag (msg : failure).

#[global] Instance failure_eq_dec : EqDecision failure.
Proof. solve_decision. Defined.

#[global] Instance error_eq_dec : EqDecision error.
Proof. solve_decision. Defined.

(** Run-time panics, by origin. *)
Inductive panic :=
  | SliceBounds
  | IndexOutOfRange
  | TypeOfZeroValue
  | NumFieldOfNonStruct
  | FieldIndexOutOfBounds
  | FlagRedefined (name : string)
  | FlagBeginsWithMinus (name : string)
  | FlagContainsEquals (name : string)
  | PanicOnErrorRaised (e : error).

(** A call either returns, or the process leaves it through [os.Exit] or a
    panic. *)
Inductive abort :=
  | Exit (code : Z)
  | Panic (p : panic).

Inductive result (A : Type) :=
  | Ok (a : A)
  | Abort (e : abort).
Arguments Ok {A} a.
Arguments Abort {A} e.

#[global] Instance result_ret : MRet result := λ A a, Ok a.
#[global] Instance result_bind : MBind result := λ A B k m,
  match m with
  | Ok a => k a
  | Abort e => Abort e
  end.

(** Left-to-right loop over a slice with a body that may abort. *)
Fixpoint forM {A S} (body : A → S → result S) (l : list A) (s : S) : result S :=
  match l with
  | [] => Ok s
  | x :: l' => s' ← body x s; forM body l' s'
  end.

(** ** Package [strings] *)

Module strings.

Definition HasPrefix (s prefix : string) : bool := String.prefix prefix s.

Fixpoint Contains (s substr : string) : bool :=
  String.prefix substr s ||
  match s with
  | EmptyString => false
  | String _ s' => Contains s' substr
  end.

(** [strings.ToLower] maps Unicode text; the development is parametric
    in it. *)
Class Casing := { ToLower : string → string }.

(** Its restriction to ASCII text, the instance of the concrete runs. *)
Definition lower_ascii (c : ascii) : ascii :=
  let n := Ascii.nat_of_ascii c in
  if (65 <=? n)%nat && (n <=? 90)%nat then Ascii.ascii_of_nat (n + 32) else c.

Fixpoint ToLowerASCII (s : string) : string :=
  match s with
  | EmptyString => EmptyString
  | String c s' => String (lower_ascii c) (ToLowerASCII s')
  end.

End strings.

(** ** Package [strconv] *)

Module strconv.

(** [ParseBool] returns the value and whether the text was accepted; a
    rejected text yields [false]. *)
Definition ParseBool (str : string) : bool * bool :=
  if bool_decide (str ∈ ["1"; "t"; "T"; "true"; "TRUE"; "True"]) then (true, true)
  else if bool_decide (str ∈ ["0"; "f"; "F"; "false"; "FALSE"; "False"]) then (false, true)
  else (false, false).

(** [ParseInt s 0 IntSize], as [intValue.Set] calls it: the value and
    whether the text was accepted.  The development is parametric in
    it. *)
Class Numerals := { ParseInt : string → Z * bool }.

(** Its restriction to texts of digits, the instance of the concrete
    runs: with base 0 a numeral with a leading zero is octal, any other is
    decimal, and a value beyond the 64 bits of an [int] is refused with the
    largest [int].  Signs, the prefixes 0x, 0o, 0b and underscores, which
    [ParseInt] also reads, are refused here. *)
Definition digit (base : Z) (c : ascii) : option Z :=
  let n := Z.of_nat (Ascii.nat_of_ascii c) in
  if (48 <=? n)%Z && (n <? 48 + base)%Z then Some (n - 48)%Z else None.

Fixpoint digits (base acc : Z) (s : string) : option Z :=
  match s with
  | EmptyString => Some acc
  | String c s' =>
      match digit base c with
      | Some d => digits base (base * acc + d)%Z s'
      | None => None
      end
  end.

Definition maxInt : Z := 2 ^ 63 - 1.

Definition ParseIntDigits (s : string) : Z * bool :=
  let base := match s with
              | String "0" (String _ _) => 8%Z
              | _ => 10%Z
              end in
  match s with
  | EmptyString => (0%Z, false)
  | _ => match digits base 0 s with
         | Some z => if (z <=? maxInt)%Z then (z, true) else (maxInt, false)
         | None => (0%Z, false)
         end
  end.

End strconv.

(** ** Go values *)

(** The dynamic values a flag can hold and a scalar field can store. *)
Inductive val :=
  | VBool (b : bool)
  | VInt (i : Z)
  | VString (s : string).

(** The variables that back the flags ([var v bool] and the like in the
    registration callbacks), addressed by position. *)
Abbreviation heap := (list val).

(** ** Package [flag] *)

Module flag.

(** The three implementations of [flag.Value] that [BoolVar], [IntVar]
    and [StringVar] create; each is a pointer to the backing variable.
    They are the only ones this package declares; flags on other
    implementations, which only other code could put on
    [flag.CommandLine], are left out. *)
Inductive Value :=
  | boolValue (p : nat)
  | intValue (p : nat)
  | stringValue (p : nat).

Definition pointer (v : Value) : nat :=
  match v with boolValue p | intValue p | stringValue p => p end.

Definition IsBoolFlag (v : Value) : bool :=
  match v with boolValue _ => true | _ => false end.

(** [Get]: the pointed-to variable, at the static type of the value. *)
Definition Get (v : Value) (h : heap) : val :=
  match v with
  | boolValue p => VBool (match h !! p with Some (VBool b) => b | _ => false end)
  | intValue p => VInt (match h !! p with Some (VInt i) => i | _ => 0%Z end)
  | stringValue p => VString (match h !! p with Some (VString s) => s | _ => "" end)
  end.

(** [Set]: the variable is assigned whatever the conversion returned,
    also when it reports an error. *)
Definition Set_ `{!strconv.Numerals} (v : Value) (s : string) (h : heap) : bool * heap :=
  match v with
  | boolValue p => let '(b, ok) := strconv.ParseBool s in (ok, <[p := VBool b]> h)
  | intValue p => let '(i, ok) := strconv.ParseInt s in (ok, <[p := VInt i]> h)
  | stringValue p => (true, <[p := VString s]> h)
  end.

Inductive ErrorHandling := ContinueOnError | ExitOnError | PanicOnError.

(** [DefValue], the default rendered for help messages, is left out. *)
Record Flag := { Name : string; Usage : string; Value_ : Value }.

Record FlagSet := {
  name : string;
  parsed : bool;
  actual : gmap string Flag;
  formal : gmap string Flag;
  args : list string;
  errorHandling : ErrorHandling;
}.

Definition NewFlagSet (name : string) (errorHandling : ErrorHandling) : FlagSet :=
  {| name := name; parsed := false; actual := ∅; formal := ∅; args := [];
     errorHandling := errorHandling |}.

Definition withArgs (f : FlagSet) (a : list string) : FlagSet :=
  {| name := name f; parsed := parsed f; actual := actual f; formal := formal f;
     args := a; errorHandling := errorHandling f |}.

Definition withActual (f : FlagSet) (a : gmap string Flag) : FlagSet :=
  {| name := name f; parsed := parsed f; actual := a; formal := formal f;
     args := args f; errorHandling := errorHandling f |}.

Definition withFormal (f : FlagSet) (m : gmap string Flag) : FlagSet :=
  {| name := name f; parsed := parsed f; actual := actual f; formal := m;
     args := args f; errorHandling := errorHandling f |}.

Definition withParsed (f : FlagSet) (b : bool) : FlagSet :=
  {| name := name f; parsed := b; actual := actual f; formal := formal f;
     args := args f; errorHandling := errorHandling f |}.

(** [FlagSet.Var]: a name that begins with "-", contains "=" or is
    declared already is refused with a panic. *)
Definition Var (f : FlagSet) (value : Value) (name usage : string) : result FlagSet :=
  if strings.HasPrefix name "-" then Abort (Panic (FlagBeginsWithMinus name))
  else if strings.Contains name "=" then Abort (Panic (FlagContainsEquals name))
  else match formal f !! name with
       | Some _ => Abort (Panic (FlagRedefined name))
       | None =>
           Ok (withFormal f (<[name := {| Name := name; Usage := usage; Value_ := value |}]> (formal f)))
       end.

(** [BoolVar], [IntVar], [StringVar]: the variable receives the default,
    then a flag on it is declared. *)
Definition BoolVar (f : FlagSet) (p : nat) (name : string) (value : bool) (usage : string)
    (h : heap) : result (FlagSet * heap) :=
  let h := <[p := VBool value]> h in
  f ← Var f (boolValue p) name usage; Ok (f, h).

Definition IntVar (f : FlagSet) (p : nat) (name : string) (value : Z) (usage : string)
    (h : heap) : result (FlagSet * heap) :=
  let h := <[p := VInt value]> h in
  f ← Var f (intValue p) name usage; Ok (f, h).

Definition StringVar (f : FlagSet) (p : nat) (name : string) (value : string) (usage : string)
    (h : heap) : result (FlagSet * heap) :=
  let h := <[p := VString value]> h in
  f ← Var f (stringValue p) name usage; Ok (f, h).

(** [s[n:]] *)
Fixpoint from (n : nat) (s : string) : string :=
  match n, s with
  | S n', String _ s' => from n' s'
  | _, _ => s
  end.

(** The first ["="] of [s]: the text before it and the text after it. *)
Fixpoint cutEquals (s : string) : option (string * string) :=
  match s with
  | EmptyString => None
  | String c s' =>
      if bool_decide (c = "="%char) then Some (EmptyString, s')
      else '(n, v) ← cutEquals s'; Some (String c n, v)
  end.

(** [for i := 1; i < len(name); i++ { if name[i] == '=' ... } }]: the
    name, whether a value is attached, and the value. *)
Definition nameValue (name : string) : string * bool * string :=
  match name with
  | EmptyString => (name, false, "")
  | String c rest =>
      match cutEquals rest with
      | Some (n, v) => (String c n, true, v)
      | None => (name, false, "")
      end
  end.

Section parsing.
Context `{!strconv.Numerals}.

(** [FlagSet.parseOne]: whether a flag was seen, the error, and the
    flag set and variables it leaves. *)
Definition parseOne (f : FlagSet) (h : heap) : bool * option error * FlagSet * heap :=
  match args f with
  | [] => (false, None, f, h)
  | s :: rest =>
      if (String.length s <? 2) || negb (strings.HasPrefix s "-") then (false, None, f, h)
      else
        let numMinuses := if strings.HasPrefix (from 1 s) "-" then 2 else 1 in
        if (numMinuses =? 2) && (String.length s =? 2) then
          (false, None, withArgs f rest, h)
        else
          let name := from numMinuses s in
          if (String.length name =? 0) || strings.HasPrefix name "-" || strings.HasPrefix name "="
          then (false, Some (ErrFlag (BadFlagSyntax s)), f, h)
          else
            let f := withArgs f rest in
            let '(name, hasValue, value) := nameValue name in
            match formal f !! name with
            | None =>
                if bool_decide (name = "help") || bool_decide (name = "h")
                then (false, Some ErrHelp, f, h)
                else (false, Some (ErrFlag (NotDefined name)), f, h)
            | Some flag =>
                if IsBoolFlag (Value_ flag) then
                  let '(ok, h) := Set_ (Value_ flag) (if hasValue then value else "true") h in
                  if ok then (true, None, withActual f (<[name := flag]> (actual f)), h)
                  else (false, Some (ErrFlag (InvalidBoolValue value name)), f, h)
                else
                  let next :=
                    if hasValue then Some (value, f)
                    else match args f with
                         | value :: rest' => Some (value, withArgs f rest')
                         | [] => None
                         end in
                  match next with
                  | None => (false, Some (ErrFlag (NeedsArgument name)), f, h)
                  | Some (value, f) =>
                      let '(ok, h) := Set_ (Value_ flag) value h in
                      if ok then (true, None, withActual f (<[name := flag]> (actual f)), h)
                      else (false, Some (ErrFlag (InvalidValue value name)), f, h)
                  end
            end
  end.

(** The loop of [FlagSet.Parse], with [budget] iterations at most; it
    leaves one argument less after every flag seen, so the length of
    the arguments plus one is enough (see [parseLoop_budget]). *)
Fixpoint parseLoop (budget : nat) (f : FlagSet) (h : heap)
    : result (option error * FlagSet * heap) :=
  let '(seen, err, f', h') := parseOne f h in
  if seen then
    match budget with
    | S budget' => parseLoop budget' f' h'
    | O => Ok (None, f', h')
    end
  else
    match err with
    | None => Ok (None, f', h')
    | Some e =>
        match errorHandling f' with
        | ContinueOnError => Ok (Some e, f', h')
        | ExitOnError => if bool_decide (e = ErrHelp) then Abort (Exit 0) else Abort (Exit 2)
        | PanicOnError => Abort (Panic (PanicOnErrorRaised e))
        end
    end.

(** [FlagSet.Parse] *)
Definition Parse (f : FlagSet) (arguments : list string) (h : heap)
    : result (option error * FlagSet * heap) :=
  let f := withParsed f true in
  let f := withArgs f arguments in
  parseLoop (length arguments) f h.

End parsing.

(** [sortFlags]: the flags of a map in lexicographical order of name. *)
Definition byName (a b : Flag) : Prop := String.leb (Name a) (Name b) = true.

#[global] Instance byName_dec a b : Decision (byName a b).
Proof. unfold byName. apply _. Defined.

Definition sortFlags (flags : gmap string Flag) : list Flag :=
  merge_sort byName (map_to_list flags).*2.

(** [FlagSet.Visit]: [fn] on every flag that has been set. *)
Definition Visit {S} (f : FlagSet) (fn : Flag → S → S) (s : S) : S :=
  foldl (λ s flag, fn flag s) s (sortFlags (actual f)).

End flag.

(** ** Package [reflect] *)

Module reflect.

Inductive Kind := Invalid | Bool | Int | String | Struct | Pointer | Other.

#[global] Instance Kind_eq_dec : EqDecision Kind.
Proof. solve_decision. Defined.

(** A struct tag, as the key/value pairs [StructTag.Get] reads. *)
Record StructField := { Name : string; PkgPath : string; Tag : gmap string string }.

Definition Get (tag : gmap string string) (key : string) : string := default "" (tag !! key).

(** A field is exported when its [PkgPath] is empty. *)
Definition IsExported (sf : StructField) : bool := bool_decide (PkgPath sf = "").

(** What a Go variable holds.  A struct carries the descriptor of each of
    its fields next to the field's content; kinds the package does not
    look into (floats, slices, maps, sized integers, ...) are [Opaque];
    a pointer is nil or has a target.  The scalars are of the predeclared
    types bool, int and string: a named type of one of these kinds, to
    which [Value.Set] would refuse a plain value, is not told apart. *)
Inductive object :=
  | Scalar (x : val)
  | StructOf (fields : list (StructField * object))
  | PointerTo (target : option object)
  | Opaque.

(** An [interface{}] argument: nil, or an object. *)
Abbreviation iface := (option object).

(** [reflect.Value]: the zero Value, or a view of an object found at
    [index] (the field numbers from the root of the schema instance),
    with the addressable and read-only flag bits. *)
Inductive Value :=
  | Zero
  | At (obj : object) (index : list nat) (flagAddr flagRO : bool).

Definition kindOf (o : object) : Kind :=
  match o with
  | Scalar (VBool _) => Bool
  | Scalar (VInt _) => Int
  | Scalar (VString _) => String
  | StructOf _ => Struct
  | PointerTo _ => Pointer
  | Opaque => Other
  end.

Definition Value_Kind (v : Value) : Kind :=
  match v with
  | Zero => Invalid
  | At o _ _ _ => kindOf o
  end.

Definition ValueOf (i : iface) : Value :=
  match i with
  | None => Zero
  | Some o => At o [] false false
  end.

(** [Indirect]: the target of a pointer (the zero Value for a nil
    pointer), any other Value unchanged. *)
Definition Indirect (v : Value) : Value :=
  match v with
  | At (PointerTo target) _ _ _ =>
      match target with
      | None => Zero
      | Some o => At o [] true false
      end
  | _ => v
  end.

(** [reflect.Type], as far as the package reads it: the kind and, for a
    struct type, the field descriptors. *)
Record Type_ := { Type_Kind : Kind; Type_fields : list StructField }.

Definition typeOf (o : object) : Type_ :=
  {| Type_Kind := kindOf o;
     Type_fields := match o with StructOf fields => fields.*1 | _ => [] end |}.

(** [Value.Type] panics on the zero Value. *)
Definition Value_Type (v : Value) : result Type_ :=
  match v with
  | Zero => Abort (Panic TypeOfZeroValue)
  | At o _ _ _ => Ok (typeOf o)
  end.

(** [reflect.TypeOf(v.Interface())] *)
Definition TypeOf_Interface (v : Value) : result Type_ := Value_Type v.

Definition Type_Field (t : Type_) (i : nat) : result StructField :=
  match Type_fields t !! i with
  | Some sf => Ok sf
  | None => Abort (Panic FieldIndexOutOfBounds)
  end.

Definition NumField (v : Value) : result nat :=
  match v with
  | At (StructOf fields) _ _ _ => Ok (length fields)
  | _ => Abort (Panic NumFieldOfNonStruct)
  end.

(** [Value.Field]: the view of field [i] keeps the addressable bit and a
    read-only bit, and is read-only itself when the field is not
    exported. *)
Definition Field (v : Value) (i : nat) : result Value :=
  match v with
  | At (StructOf fields) index flagAddr flagRO =>
      match fields !! i with
      | Some (sf, o) => Ok (At o (index ++ [i]) flagAddr (flagRO || negb (IsExported sf)))
      | None => Abort (Panic FieldIndexOutOfBounds)
      end
  | _ => Abort (Panic NumFieldOfNonStruct)
  end.

Definition CanInterface (v : Value) : bool :=
  match v with
  | Zero => false
  | At _ _ _ flagRO => negb flagRO
  end.

Definition CanSet (v : Value) : bool :=
  match v with
  | Zero => false
  | At _ _ flagAddr flagRO => flagAddr && negb flagRO
  end.

(** Assignment through a view: the object at [index] under [root]
    becomes the scalar [x]. *)
Fixpoint store (index : list nat) (x : val) (root : object) : object :=
  match index with
  | [] => Scalar x
  | i :: index' =>
      match root with
      | StructOf fields =>
          StructOf (alter (λ '(sf, o), (sf, store index' x o)) i fields)
      | _ => root
      end
  end.

Definition Set_ (v : Value) (x : val) (root : object) : object :=
  match v with
  | Zero => root
  | At _ index _ _ => store index x root
  end.

End reflect.

(** ** The schema walker *)

Section walker.
Context `{!strings.Casing}.

(** What the callbacks of [IterFields] have in common: the field, its
    descriptor, the variadic [cmd], and a state [S] for the variables
    the closure captures. *)
Definition callback (S : Type) : Type :=
  reflect.Value → reflect.StructField → list string → S → result S.

(** The inner loop of [IterFields], over the fields of one nested
    struct. *)
Definition iterNested {S} (st : reflect.Type_) (field : reflect.Value) (cmd : string)
    (callback : callback S) (j : nat) (s : S) : result S :=
  inner ← reflect.Field field j;
  st ← reflect.Type_Field st j;
  if reflect.CanSet inner then callback inner st [cmd] s else Ok s.

(** One iteration of the outer loop; [cmds] is the package-level
    registry. *)
Definition iterField {S} (recurse : bool) (st : reflect.Type_) (v : reflect.Value)
    (callback : callback S) (i : nat) (state : gmap string bool * S)
    : result (gmap string bool * S) :=
  let '(cmds, s) := state in
  field ← reflect.Field v i;
  sf ← reflect.Type_Field st i;
  if bool_decide (reflect.Value_Kind field = reflect.Struct) then
    let cmd := strings.ToLower (reflect.Name sf) in
    let cmds := match cmds !! cmd with
                | Some _ => cmds
                | None => <[cmd := true]> cmds
                end in
    if recurse && reflect.CanInterface field then
      st ← reflect.TypeOf_Interface field;
      n ← reflect.NumField field;
      s ← forM (iterNested st field cmd callback) (seq 0 n) s;
      Ok (cmds, s)
    else Ok (cmds, s)
  else
    if negb recurse && reflect.CanSet field then
      s ← callback field sf [] s; Ok (cmds, s)
    else Ok (cmds, s).

Definition IterFields {S} (recurse : bool) (st : reflect.Type_) (v : reflect.Value)
    (callback : callback S) (state : gmap string bool * S)
    : result (gmap string bool * S) :=
  n ← reflect.NumField v;
  forM (iterField recurse st v callback) (seq 0 n) state.

End walker.

(** ** The command identifier and the argument partitioner *)

(** State of the two loop variables of [IdentifyCommand]. *)
Record scan := { commandIndex : nat; commandSeen : bool }.

(** [for cmd := range cmds { if arg == cmd { commandSeen = true; break } }]
    over the keys of the map, in whatever order the map yields them. *)
Fixpoint rangeMatch (arg : string) (keys : list string) (seen : bool) : bool :=
  match keys with
  | [] => seen
  | cmd :: keys' => if bool_decide (arg = cmd) then true else rangeMatch arg keys' seen
  end.

(** One iteration of the outer loop; [None] is the [break]. *)
Definition identifyStep (cmds : gmap string bool) (arg : string) (st : scan) : option scan :=
  if commandSeen st then None
  else if strings.HasPrefix arg "-" then
    Some {| commandIndex := S (commandIndex st); commandSeen := commandSeen st |}
  else
    let seen := rangeMatch arg (map_to_list cmds).*1 (commandSeen st) in
    Some {| commandIndex := if seen then commandIndex st else S (commandIndex st);
            commandSeen := seen |}.

Fixpoint identifyLoop (cmds : gmap string bool) (args : list string) (st : scan) : scan :=
  match args with
  | [] => st
  | arg :: args' =>
      match identifyStep cmds arg st with
      | None => st
      | Some st' => identifyLoop cmds args' st'
      end
  end.

Definition IdentifyCommand (cmds : gmap string bool) (args : list string) : result string :=
  let st := identifyLoop cmds args {| commandIndex := 0; commandSeen := false |} in
  if negb (commandSeen st) then Ok ""
  else match args !! commandIndex st with
       | Some a => Ok a
       | None => Abort (Panic IndexOutOfRange)
       end.

Definition CommandFlags (cmd : string) (args : list string) : list string :=
  (fix loop (i : nat) (rest : list string) : list string :=
     match rest with
     | [] => []
     | v :: rest' => if bool_decide (v = cmd) then drop (i + 1) args else loop (S i) rest'
     end) 0 args.

(** ** Registration, binding and [Parse] *)

(** The process-wide state the package works on: its registry [cmds],
    [flag.CommandLine], and the variables behind the flags. *)
Record World := {
  cmds : gmap string bool;
  CommandLine : flag.FlagSet;
  vars : heap;
}.

Section program.
Context `{!strings.Casing} `{!strconv.Numerals}.

(** The [switch field.Kind()] of the two registration callbacks (on
    [flag.CommandLine] in [Parse], on [cfs] in [CommandFlagSet]): a fresh
    variable, and a long and a short flag on it. *)
Definition declareFlags (field : reflect.Value) (sf : reflect.StructField)
    (state : flag.FlagSet * heap) : result (flag.FlagSet * heap) :=
  let '(f, h) := state in
  let long := strings.ToLower (reflect.Name sf) in
  let short := reflect.Get (reflect.Tag sf) "short" in
  let usage := reflect.Get (reflect.Tag sf) "usage" in
  match reflect.Value_Kind field with
  | reflect.Bool =>
      let v := length h in
      let h := h ++ [VBool false] in
      '(f, h) ← flag.BoolVar f v long false usage h;
      flag.BoolVar f v short false (usage +:+ " (shorthand)") h
  | reflect.Int =>
      let v := length h in
      let h := h ++ [VInt 0] in
      '(f, h) ← flag.IntVar f v long 0 usage h;
      flag.IntVar f v short 0 (usage +:+ " (shorthand)") h
  | reflect.String =>
      let v := length h in
      let h := h ++ [VString ""] in
      '(f, h) ← flag.StringVar f v long "" usage h;
      flag.StringVar f v short "" (usage +:+ " (shorthand)") h
  | _ => Ok (f, h)
  end.

(** The callback of the first walk of [Parse]. *)
Definition registerGlobal : callback (flag.FlagSet * heap) :=
  λ field sf cmd state, declareFlags field sf state.

(** The callback of [CommandFlagSet]: [currentCmd[0]] is read first. *)
Definition registerCommand (cmd : string) : callback (flag.FlagSet * heap) :=
  λ field sf currentCmd state,
    match currentCmd !! 0 with
    | None => Abort (Panic IndexOutOfRange)
    | Some current =>
        if bool_decide (current = cmd) then declareFlags field sf state else Ok state
    end.

(** The function handed to [Visit] by the two binding callbacks: every
    [flag.Value] of this model is a [flag.Getter]; the value is assigned
    when the name is the field's and the dynamic type is the field's. *)
Definition assign (h : heap) (field : reflect.Value) (sf : reflect.StructField)
    (f : flag.Flag) (root : reflect.object) : reflect.object :=
  if bool_decide (flag.Name f = strings.ToLower (reflect.Name sf))
     || bool_decide (flag.Name f = reflect.Get (reflect.Tag sf) "short") then
    match reflect.Value_Kind field, flag.Get (flag.Value_ f) h with
    | reflect.Bool, VBool b => reflect.Set_ field (VBool b) root
    | reflect.Int, VInt i => reflect.Set_ field (VInt i) root
    | reflect.String, VString s => reflect.Set_ field (VString s) root
    | _, _ => root
    end
  else root.

(** The callback of the two binding walks, on the flag set [fs]. *)
Definition bind (fs : flag.FlagSet) (h : heap) : callback reflect.object :=
  λ field sf cmd root, Ok (flag.Visit fs (assign h field sf) root).

Definition CommandFlagSet (cmd : string) (cmdFlags : list string) (st : reflect.Type_)
    (v : reflect.Value) (cmds : gmap string bool) (h : heap)
    : result (flag.FlagSet * gmap string bool * heap) :=
  let cfs := flag.NewFlagSet cmd flag.ExitOnError in
  let recurse := true in
  '(cmds, (cfs, h)) ← IterFields recurse st v (registerCommand cmd) (cmds, (cfs, h));
  Ok (cfs, cmds, h).

(** The schema instance a view looks at. *)
Definition viewed (v : reflect.Value) : reflect.object :=
  match v with
  | reflect.Zero => reflect.Opaque
  | reflect.At o _ _ _ => o
  end.

(** What the caller's argument is once the instance behind its pointer
    holds [root]. *)
Definition written (s : reflect.iface) (root : reflect.object) : reflect.iface :=
  match s with
  | Some (reflect.PointerTo (Some _)) => Some (reflect.PointerTo (Some root))
  | _ => s
  end.

(** The body of [Parse]: the error returned, the caller's argument and
    the world afterwards, and the local [cfs] once it has parsed its
    arguments. *)
Definition parseBody (s : reflect.iface) (os_Args : list string) (w : World)
    : result (option error * reflect.iface * World * option flag.FlagSet) :=
  match os_Args with
  | [] => Abort (Panic SliceBounds)
  | _ :: args =>
      if length args =? 0 then Ok (Some ErrNoArgs, s, w, None)
      else
        let v := reflect.Indirect (reflect.ValueOf s) in
        st ← reflect.Value_Type v;
        if negb (bool_decide (reflect.Value_Kind v = reflect.Struct)) then
          Ok (Some ErrWrongType, s, w, None)
        else
          let recurse := false in
          '(cmds, (CommandLine, h)) ←
            IterFields recurse st v registerGlobal (cmds w, (CommandLine w, vars w));
          '(_, CommandLine, h) ← flag.Parse CommandLine args h;
          '(cmds, root) ← IterFields recurse st v (bind CommandLine h) (cmds, viewed v);
          cmd ← IdentifyCommand cmds args;
          let cmdFlags := CommandFlags cmd (flag.args CommandLine) in
          '(cfs, cmds, h) ← CommandFlagSet cmd cmdFlags st v cmds h;
          '(err, cfs, h) ← flag.Parse cfs cmdFlags h;
          match err with
          | Some e =>
              Ok (Some e, written s root,
                  {| cmds := cmds; CommandLine := CommandLine; vars := h |}, Some cfs)
          | None =>
              let recurse := true in
              '(cmds, root) ← IterFields recurse st v (bind cfs h) (cmds, root);
              Ok (None, written s root,
                  {| cmds := cmds; CommandLine := CommandLine; vars := h |}, Some cfs)
          end
  end.

Definition Parse (s : reflect.iface) (os_Args : list string) (w : World)
    : result (option error * reflect.iface * World) :=
  '(err, s, w, _) ← parseBody s os_Args w; Ok (err, s, w).

End program.

(** ** Specification-side notions *)

(** The token the specification describes for the command identifier: one
    that is not flag-shaped and names a registered command. *)
Definition commandToken (cmds : gmap string bool) (arg : string) : Prop :=
  strings.HasPrefix arg "-" = false ∧ is_Some (cmds !! arg).

#[global] Instance commandToken_dec cmds arg : Decision (commandToken cmds arg).
Proof. unfold commandToken. apply _. Defined.

(** The field at an index path below [root]: its descriptor and its
    content. *)
Fixpoint fieldAt (index : list nat) (root : reflect.object)
    : option (reflect.StructField * reflect.object) :=
  match index, root with
  | [i], reflect.StructOf fields => fields !! i
  | i :: index', reflect.StructOf fields => '(_, o) ← fields !! i; fieldAt index' o
  | _, _ => None
  end.

(** Two index paths that part ways somewhere: neither field contains the
    other. *)
Definition apart (index index' : list nat) : Prop :=
  ∃ common i i' rest rest',
    i ≠ i' ∧ index = common ++ i :: rest ∧ index' = common ++ i' :: rest'.

(** One call of the callback: the field, its descriptor, the variadic
    [cmd]. *)
Definition visit : Type := reflect.Value * reflect.StructField * list string.

Definition call {S} (callback : callback S) (x : visit) (s : S) : result S :=
  let '(field, sf, cmd) := x in callback field sf cmd s.

Definition visitIndex (x : visit) : list nat :=
  match x.1.1 with
  | reflect.Zero => []
  | reflect.At _ index _ _ => index
  end.

Section visits.
Context `{!strings.Casing}.

(** The calls the inner loop of [IterFields] makes on the fields
    [inner], numbered from [j], of a nested struct. *)
Fixpoint nestedVisits (cmd : string) (index : list nat) (flagAddr flagRO : bool)
    (j : nat) (inner : list (reflect.StructField * reflect.object)) : list visit :=
  match inner with
  | [] => []
  | (sf, o) :: rest =>
      let field := reflect.At o (index ++ [j]) flagAddr (flagRO || negb (reflect.IsExported sf)) in
      (if reflect.CanSet field then [(field, sf, [cmd])] else [])
      ++ nestedVisits cmd index flagAddr flagRO (S j) rest
  end.

(** The calls [IterFields] makes on the fields [fields], numbered from
    [i], of the struct it walks. *)
Fixpoint visitsFrom (recurse : bool) (index : list nat) (flagAddr flagRO : bool)
    (i : nat) (fields : list (reflect.StructField * reflect.object)) : list visit :=
  match fields with
  | [] => []
  | (sf, o) :: rest =>
      let field := reflect.At o (index ++ [i]) flagAddr (flagRO || negb (reflect.IsExported sf)) in
      match o with
      | reflect.StructOf inner =>
          if recurse && reflect.CanInterface field then
            nestedVisits (strings.ToLower (reflect.Name sf)) (index ++ [i]) flagAddr
              (flagRO || negb (reflect.IsExported sf)) 0 inner
          else []
      | _ => if negb recurse && reflect.CanSet field then [(field, sf, [])] else []
      end
      ++ visitsFrom recurse index flagAddr flagRO (S i) rest
  end.

Definition visits (recurse : bool) (v : reflect.Value) : list visit :=
  match v with
  | reflect.At (reflect.StructOf fields) index flagAddr flagRO =>
      visitsFrom recurse index flagAddr flagRO 0 fields
  | _ => []
  end.

(** The registry after a walk over [fields]. *)
Definition noted (cmds : gmap string bool) (field : reflect.StructField * reflect.object)
    : gmap string bool :=
  match field.2 with
  | reflect.StructOf _ =>
      let cmd := strings.ToLower (reflect.Name field.1) in
      match cmds !! cmd with
      | Some _ => cmds
      | None => <[cmd := true]> cmds
      end
  | _ => cmds
  end.

Definition registry (cmds : gmap string bool)
    (fields : list (reflect.StructField * reflect.object)) : gmap string bool :=
  foldl noted cmds fields.

End visits.

(** A view reached from [v] through a struct field of [v]: a field of a
    nested struct. *)
Definition nestedField (v inner : reflect.Value) : Prop :=
  ∃ i j field,
    reflect.Field v i = Ok field ∧ reflect.Value_Kind field = reflect.Struct
    ∧ reflect.Field field j = Ok inner.

(** The panics of a flag declaration. *)
Definition declarationPanic (e : abort) : Prop :=
  ∃ name, e = Panic (FlagRedefined name) ∨ e = Panic (FlagBeginsWithMinus name)
          ∨ e = Panic (FlagContainsEquals name).

(** What the [flag] package maintains on a flag set: a flag is filed in
    [formal] under its own name, and a flag in [actual] is the flag of that
    name in [formal]. *)
Definition wellFormed (f : flag.FlagSet) : Prop :=
  (∀ n fl, flag.formal f !! n = Some fl → flag.Name fl = n)
  ∧ (∀ n fl, flag.actual f !! n = Some fl → flag.formal f !! n = Some fl).

(** Two states of one flag set: nothing but the arguments left, the flags
    set and the [parsed] mark can differ. *)
Definition sameScope (f f' : flag.FlagSet) : Prop :=
  flag.name f' = flag.name f ∧ flag.formal f' = flag.formal f
  ∧ flag.errorHandling f' = flag.errorHandling f.

(** The [flag.Value] a field of kind [k] is declared with, on the variable
    at [p]. *)
Definition valueFor (k : reflect.Kind) (p : nat) : option flag.Value :=
  match k with
  | reflect.Bool => Some (flag.boolValue p)
  | reflect.Int => Some (flag.intValue p)
  | reflect.String => Some (flag.stringValue p)
  | _ => None
  end.

(** Whether the dynamic type of a flag's value is the type of a field of
    kind [k]. *)
Definition sameKind (k : reflect.Kind) (v : flag.Value) : bool :=
  match k, v with
  | reflect.Bool, flag.boolValue _
  | reflect.Int, flag.intValue _
  | reflect.String, flag.stringValue _ => true
  | _, _ => false
  end.

(** What parsing can do to a flag set and the variables: the declarations
    stay, no variable is created, only variables of declared flags are
    assigned, and a flag newly marked as set is a declared one. *)
Definition parsedFrom (f : flag.FlagSet) (h : heap) (f' : flag.FlagSet) (h' : heap) : Prop :=
  sameScope f f'
  ∧ length h' = length h
  ∧ (∀ p, (∀ n fl, flag.formal f !! n = Some fl → flag.pointer (flag.Value_ fl) ≠ p) →
          h' !! p = h !! p)
  ∧ (∀ n fl, flag.actual f' !! n = Some fl →
             flag.actual f !! n = Some fl ∨ flag.formal f !! n = Some fl).

(** The long and the short flag name of a field. *)
Definition longName `{!strings.Casing} (sf : reflect.StructField) : string :=
  strings.ToLower (reflect.Name sf).

Definition shortName (sf : reflect.StructField) : string :=
  reflect.Get (reflect.Tag sf) "short".

(** What declarations can do to a flag set and the variables: variables
    are only added, declared flags stay, and a new flag is filed under its
    name on one of the new variables. *)
Definition declaredFrom (f : flag.FlagSet) (h : heap) (f' : flag.FlagSet) (h' : heap) : Prop :=
  flag.name f' = flag.name f ∧ flag.errorHandling f' = flag.errorHandling f
  ∧ flag.actual f' = flag.actual f ∧ flag.args f' = flag.args f
  ∧ flag.parsed f' = flag.parsed f
  ∧ (∃ more, h' = h ++ more)
  ∧ (∀ n fl, flag.formal f !! n = Some fl → flag.formal f' !! n = Some fl)
  ∧ (∀ n fl, flag.formal f' !! n = Some fl →
       flag.formal f !! n = Some fl
       ∨ (flag.Name fl = n ∧ length h ≤ flag.pointer (flag.Value_ fl) < length h')).

(** Whether the binder assigns from flag [fl] to a field of kind [k] with
    descriptor [sf]: by name, long or short, and by dynamic type. *)
Definition matches `{!strings.Casing} (sf : reflect.StructField) (k : reflect.Kind)
    (fl : flag.Flag) : bool :=
  (bool_decide (flag.Name fl = longName sf) || bool_decide (flag.Name fl = shortName sf))
  && sameKind k (flag.Value_ fl).

(** What a binding call leaves in a field that held [o]: the value of the
    last flag, in the order of [Visit], that matches it, if any. *)
Definition bound `{!strings.Casing} (fs : flag.FlagSet) (h : heap)
    (sf : reflect.StructField) (o : reflect.object) : reflect.object :=
  match last (filter (λ fl, matches sf (reflect.kindOf o) fl) (flag.sortFlags (flag.actual fs))) with
  | Some fl => reflect.Scalar (flag.Get (flag.Value_ fl) h)
  | None => o
  end.

(** The struct [Parse] works on, and whether it is reached through a
    pointer (and so addressable). *)
Definition schema (s : reflect.iface) : option (list (reflect.StructField * reflect.object) * bool) :=
  match s with
  | Some (reflect.PointerTo (Some (reflect.StructOf fields))) => Some (fields, true)
  | Some (reflect.StructOf fields) => Some (fields, false)
  | _ => None
  end.

(** A flag on the command line: one or two dashes, the name, and the value
    when it is attached with "=". *)
Definition token (dashes name : string) (attached : option string) : string :=
  dashes +:+ name +:+ match attached with
                      | Some value => "=" +:+ value
                      | None => ""
                      end.

(** A name that [FlagSet.Var] accepts. *)
Definition declarable (name : string) : Prop :=
  strings.HasPrefix name "-" = false ∧ strings.Contains name "=" = false.

(** A name that can be declared and given on the command line. *)
Definition flagName (name : string) : Prop := name ≠ "" ∧ declarable name.

(** What [parseOne] does with the flag [fl], declared under [name], once
    it has read the token: [f] holds the arguments after the token. *)
Definition supply `{!strconv.Numerals} (f : flag.FlagSet) (h : heap) (name : string)
    (fl : flag.Flag) (attached : option string)
    : bool * option error * flag.FlagSet * heap :=
  let setTo (value : string) (f : flag.FlagSet) (e : failure) :=
    let '(ok, h) := flag.Set_ (flag.Value_ fl) value h in
    if ok then (true, None, flag.withActual f (<[name := fl]> (flag.actual f)), h)
    else (false, Some (ErrFlag e), f, h) in
  if flag.IsBoolFlag (flag.Value_ fl) then
    setTo (default "true" attached) f (InvalidBoolValue (default "" attached) name)
  else
    match attached, flag.args f with
    | Some value, _ => setTo value f (InvalidValue value name)
    | None, value :: rest => setTo value (flag.withArgs f rest) (InvalidValue value name)
    | None, [] => (false, Some (ErrFlag (NeedsArgument name)), f, h)
    end.


(** ** The example of the documentation *)

Module example.

Definition casing : strings.Casing := {| strings.ToLower := strings.ToLowerASCII |}.
Definition numerals : strconv.Numerals := {| strconv.ParseInt := strconv.ParseIntDigits |}.

Definition flagField (name short usage : string) (o : reflect.object)
    : reflect.StructField * reflect.object :=
  ({| reflect.Name := name; reflect.PkgPath := "";
      reflect.Tag := {[ "short" := short; "usage" := usage ]} |}, o).

Definition command (name : string) (fields : list (reflect.StructField * reflect.object))
    : reflect.StructField * reflect.object :=
  ({| reflect.Name := name; reflect.PkgPath := ""; reflect.Tag := ∅ |},
   reflect.StructOf fields).

(** The zero value of [Schema]. *)
Definition Schema : list (reflect.StructField * reflect.object) :=
  [ flagField "Debug" "d" "enable debug level logs" (reflect.Scalar (VBool false));
    flagField "Number" "n" "a number field" (reflect.Scalar (VInt 0));
    flagField "Message" "m" "a message field" (reflect.Scalar (VString ""));
    command "Foo" [ flagField "AAA" "a" "does A" (reflect.Scalar (VString ""));
                    flagField "BBB" "b" "does B" (reflect.Scalar (VString "")) ];
    command "Bar" [ flagField "CCC" "c" "does C" (reflect.Scalar (VBool false)) ] ].

(** [&s] for a variable [s] holding [fields]. *)
Definition addressOf (fields : list (reflect.StructField * reflect.object)) : reflect.iface :=
  Some (reflect.PointerTo (Some (reflect.StructOf fields))).

(** A process that has declared no flag and named no command yet. *)
Definition start : World :=
  {| cmds := ∅; CommandLine := flag.NewFlagSet "your_app" flag.ExitOnError; vars := [] |}.

Definition Parse := @Parse casing numerals.
Definition parseBody := @parseBody casing numerals.

(** The scalars of a schema, by field name; those of a command under
    the name of the command. *)
Definition scalars (fields : list (reflect.StructField * reflect.object))
    : list (string * val) :=
  '(sf, o) ← fields;
  match o with
  | reflect.Scalar x => [(reflect.Name sf, x)]
  | reflect.StructOf inner =>
      '(sf', o') ← inner;
      match o' with
      | reflect.Scalar x => [(reflect.Name sf +:+ "." +:+ reflect.Name sf', x)]
      | _ => []
      end
  | _ => []
  end.

(** The scalars behind the pointer after a run that returned. *)
Definition scalarsAfter (r : result (option error * reflect.iface * World))
    : option (list (string * val)) :=
  match r with
  | Ok (_, Some (reflect.PointerTo (Some (reflect.StructOf fields))), _) => Some (scalars fields)
  | _ => None
  end.



End example.

(** ** Further notions *)

(** A callback that does nothing but keep the calls it receives. *)
Definition record : callback (list visit) :=
  λ field sf cmd log, Ok (log ++ [(field, sf, cmd)]).

(** The lower-cased names of the fields of kind struct. *)
Definition commandNames `{!strings.Casing}
    (fields : list (reflect.StructField * reflect.object)) : list string :=
  omap (λ field, match field.2 with
                 | reflect.StructOf _ => Some (strings.ToLower (reflect.Name field.1))
                 | _ => None
                 end) fields.

(** The descriptor and the kind of the field at an index path. *)
Definition shape (root : reflect.object) (index : list nat)
    : option (reflect.StructField * reflect.Kind) :=
  '(sf, o) ← fieldAt index root; Some (sf, reflect.kindOf o).

(** A view taken of [root0] whose field a binding call can assign. *)
Definition viewOf (root0 : reflect.object) (x : visit) : Prop :=
  ∃ o index flagAddr flagRO,
    x.1.1 = reflect.At o index flagAddr flagRO
    ∧ shape root0 index = Some (x.1.2, reflect.kindOf o).

(** What the variable of a flag for a field of kind [k] holds once [Set]
    has accepted [text]. *)
Definition convert `{!strconv.Numerals} (k : reflect.Kind) (text : string) : option val :=
  match k with
  | reflect.Bool => let '(b, ok) := strconv.ParseBool text in if ok then Some (VBool b) else None
  | reflect.Int => let '(i, ok) := strconv.ParseInt text in if ok then Some (VInt i) else None
  | reflect.String => Some (VString text)
  | _ => None
  end.

(** The ways of giving the flag [name] the value [text] on the command
    line: attached with "=", as the next argument unless the flag is
    boolean, and for a boolean flag and "true" by the name alone. *)
Definition spelling (boolean : bool) (dashes name text : string) (tokens : list string) : Prop :=
  tokens = [token dashes name (Some text)]
  ∨ (boolean = false ∧ tokens = [token dashes name None; text])
  ∨ (boolean = true ∧ text = "true" ∧ tokens = [token dashes name None]).

(** Arguments at which the parser stops: none, or a first one that is no
    flag. *)
Definition positional (rest : list string) : Prop :=
  match rest with
  | [] => True
  | arg :: _ => String.length arg < 2 ∨ strings.HasPrefix arg "-" = false
  end.





Module cases.

(** A schema whose two fields bear no [short] tag. *)
Definition Untagged : list (reflect.StructField * reflect.object) :=
  [ ({| reflect.Name := "Debug"; reflect.PkgPath := ""; reflect.Tag := ∅ |},
     reflect.Scalar (VBool false));
    ({| reflect.Name := "Number"; reflect.PkgPath := ""; reflect.Tag := ∅ |},
     reflect.Scalar (VInt 0)) ].

(** A process in which some other code has declared a flag -debug. *)
Definition occupied : World :=
  {| cmds := ∅;
     CommandLine :=
       flag.withFormal (flag.NewFlagSet "your_app" flag.ExitOnError)
         {[ "debug" := {| flag.Name := "debug"; flag.Usage := "";
                          flag.Value_ := flag.boolValue 0 |} ]};
     vars := [VBool false] |}.

(** A process whose registry holds a command of an earlier schema. *)
Definition stale : World :=
  {| cmds := {[ "deploy" := true ]};
     CommandLine := flag.NewFlagSet "your_app" flag.ExitOnError;
     vars := [] |}.

End cases.

(** * Properties *)

(** ** The command identifier *)

Lemma rangeMatch_elem_of arg keys :
  rangeMatch arg keys false = bool_decide (arg ∈ keys).
Proof.
  induction keys as [|cmd keys IH].
  - symmetry. apply bool_decide_eq_false_2, not_elem_of_nil.
  - cbn [rangeMatch]. destruct (decide (arg = cmd)) as [->|Hne].
    + rewrite !bool_decide_eq_true_2; [done|left|done].
    + rewrite (bool_decide_eq_false_2 (arg = cmd)) by done. rewrite IH.
      apply bool_decide_ext. rewrite elem_of_cons. tauto.
Qed.

Lemma rangeMatch_registered (cmds : gmap string bool) arg :
  rangeMatch arg (map_to_list cmds).*1 false = bool_decide (is_Some (cmds !! arg)).
Proof.
  rewrite rangeMatch_elem_of. apply bool_decide_ext.
  rewrite list_elem_of_fmap. split.
  - intros [[k b] [-> Hin]]. apply elem_of_map_to_list in Hin. eauto.
  - intros [b Hb]. exists (arg, b). split; [done|]. by apply elem_of_map_to_list.
Qed.

(** A token that is no command token only advances the counter. *)
Lemma identifyStep_skip cmds arg k :
  ¬ commandToken cmds arg →
  identifyStep cmds arg {| commandIndex := k; commandSeen := false |}
  = Some {| commandIndex := S k; commandSeen := false |}.
Proof.
  intros Hno. unfold identifyStep; simpl.
  destruct (strings.HasPrefix arg "-") eqn:Hp; [done|].
  rewrite rangeMatch_registered.
  rewrite bool_decide_eq_false_2; [done|].
  intros Hs. apply Hno. by split.
Qed.

(** A command token stops the counter and raises the flag. *)
Lemma identifyStep_hit cmds arg k :
  commandToken cmds arg →
  identifyStep cmds arg {| commandIndex := k; commandSeen := false |}
  = Some {| commandIndex := k; commandSeen := true |}.
Proof.
  intros [Hp Hs]. unfold identifyStep; simpl. rewrite Hp.
  rewrite rangeMatch_registered. by rewrite bool_decide_eq_true_2.
Qed.

Lemma identifyLoop_seen cmds args k :
  identifyLoop cmds args {| commandIndex := k; commandSeen := true |}
  = {| commandIndex := k; commandSeen := true |}.
Proof. by destruct args. Qed.

Lemma identifyLoop_find cmds args k :
  identifyLoop cmds args {| commandIndex := k; commandSeen := false |}
  = match list_find (commandToken cmds) args with
    | Some (i, _) => {| commandIndex := k + i; commandSeen := true |}
    | None => {| commandIndex := k + length args; commandSeen := false |}
    end.
Proof.
  revert k. induction args as [|arg args IH]; intros k; simpl.
  - by rewrite Nat.add_0_r.
  - destruct (decide (commandToken cmds arg)) as [Hyes|Hno].
    + rewrite identifyStep_hit by done. rewrite identifyLoop_seen.
      by rewrite Nat.add_0_r.
    + rewrite identifyStep_skip by done. rewrite IH.
      destruct (list_find (commandToken cmds) args) as [[i x]|]; simpl;
        f_equal; lia.
Qed.

(** ** The argument partitioner *)

Lemma CommandFlags_loop cmd (args rest : list string) i :
  (fix loop (i : nat) (rest : list string) : list string :=
     match rest with
     | [] => []
     | v :: rest' => if bool_decide (v = cmd) then drop (i + 1) args else loop (S i) rest'
     end) i rest
  = match list_find (λ v, v = cmd) rest with
    | Some (j, _) => drop (S (i + j)) args
    | None => []
    end.
Proof.
  revert i. induction rest as [|v rest IH]; intros i; simpl; [done|].
  case_bool_decide as Hv.
  - rewrite decide_True by done. simpl. f_equal. lia.
  - rewrite decide_False by done. rewrite IH.
    destruct (list_find (λ v, v = cmd) rest) as [[j x]|]; simpl; [f_equal; lia|done].
Qed.

Lemma CommandFlags_find cmd args :
  CommandFlags cmd args
  = match list_find (λ v, v = cmd) args with
    | Some (i, _) => drop (S i) args
    | None => []
    end.
Proof. unfold CommandFlags. by rewrite CommandFlags_loop. Qed.

Lemma IdentifyCommand_find (cmds : gmap string bool) (args : list string) :
  IdentifyCommand cmds args
  = Ok (match list_find (commandToken cmds) args with
        | Some (_, token) => token
        | None => ""
        end).
Proof.
  unfold IdentifyCommand. rewrite identifyLoop_find.
  destruct (list_find (commandToken cmds) args) as [[i x]|] eqn:Hfind; simpl; [|done].
  apply list_find_Some in Hfind as (Hi & _ & _). by rewrite Hi.
Qed.

(** The same, spelled out without [list_find]. *)
Lemma IdentifyCommand_split cmds pre token post :
  Forall (λ a, ¬ commandToken cmds a) pre →
  commandToken cmds token →
  IdentifyCommand cmds (pre ++ token :: post) = Ok token.
Proof.
  intros Hpre Htok. rewrite IdentifyCommand_find.
  assert (list_find (commandToken cmds) (pre ++ token :: post) = Some (length pre, token)) as ->;
    [|done].
  apply list_find_Some. split_and!.
  - by rewrite list_lookup_middle.
  - done.
  - intros j y Hj Hlt. rewrite lookup_app_l in Hj by done.
    rewrite Forall_forall in Hpre. apply Hpre. by eapply list_elem_of_lookup_2.
Qed.

Lemma IdentifyCommand_none cmds args :
  Forall (λ a, ¬ commandToken cmds a) args →
  IdentifyCommand cmds args = Ok "".
Proof.
  intros Hno. rewrite IdentifyCommand_find.
  by apply (list_find_None (commandToken cmds)) in Hno as ->.
Qed.

(** C1.  [IdentifyCommand] returns the leftmost argument that does not
    begin with "-" and is a key of the registry, and the empty string when
    there is none; on the commands foo, bar and the arguments
    -d foo -a x it returns foo. *)
Theorem IdentifyCommand_leftmost :
  (∀ (cmds : gmap string bool) (args : list string),
     IdentifyCommand cmds args
     = Ok (match list_find (commandToken cmds) args with
           | Some (_, token) => token
           | None => ""
           end))
  ∧ IdentifyCommand {[ "foo" := true; "bar" := true ]} ["-d"; "foo"; "-a"; "x"] = Ok "foo".
Proof. split; [apply IdentifyCommand_find|by vm_compute]. Qed.

(** C4, as the code has it.  [CommandFlags] returns what follows the first
    argument equal to the command, and nothing when no argument equals it;
    the empty command is looked for like any other. *)
Theorem CommandFlags_after_first :
  (∀ (cmd : string) (pre post : list string),
     cmd ∉ pre → CommandFlags cmd (pre ++ cmd :: post) = post)
  ∧ (∀ (cmd : string) (args : list string), cmd ∉ args → CommandFlags cmd args = [])
  ∧ CommandFlags "foo" ["-d"; "foo"; "-a"; "x"] = ["-a"; "x"]
  ∧ CommandFlags "missing" ["-d"; "foo"; "-a"; "x"] = [].
Proof.
  split_and!; [| |by vm_compute..].
  - intros cmd pre post Hpre. rewrite CommandFlags_find.
    assert (list_find (λ v, v = cmd) (pre ++ cmd :: post) = Some (length pre, cmd)) as ->.
    { apply list_find_Some. split_and!; [by rewrite list_lookup_middle|done|].
      intros j y Hj Hlt ->. rewrite lookup_app_l in Hj by done.
      apply Hpre. by eapply list_elem_of_lookup_2. }
    rewrite drop_app_ge by lia.
    by replace (S (length pre) - length pre) with 1 by lia.
  - intros cmd args Hno. rewrite CommandFlags_find.
    assert (list_find (λ v, v = cmd) args = None) as ->; [|done].
    apply list_find_None, Forall_forall. by intros x Hx ->.
Qed.

(** ** Loops *)

Lemma forM_app {A S} (body : A → S → result S) l1 l2 s :
  forM body (l1 ++ l2) s = (s' ← forM body l1 s; forM body l2 s').
Proof.
  revert s. induction l1 as [|x l1 IH]; intros s; simpl; [done|].
  destruct (body x s) as [s'|e]; simpl; [apply IH|done].
Qed.

Lemma forM_ext {A S} (body body' : A → S → result S) l s :
  (∀ x s, x ∈ l → body x s = body' x s) →
  forM body l s = forM body' l s.
Proof.
  revert s. induction l as [|x l IH]; intros s Hext; simpl; [done|].
  rewrite Hext by left. destruct (body' x s) as [s'|e]; simpl; [|done].
  apply IH. intros y t Hy. apply Hext. by right.
Qed.

(** Elements on which the body does nothing can be left out. *)
Lemma forM_filter {A S} (P : A → Prop) `{!∀ x, Decision (P x)}
    (body : A → S → result S) l s :
  (∀ x s, x ∈ l → ¬ P x → body x s = Ok s) →
  forM body l s = forM body (filter P l) s.
Proof.
  revert s. induction l as [|x l IH]; intros s Hskip; [done|].
  rewrite filter_cons. destruct (decide (P x)) as [HP|HP]; simpl.
  - destruct (body x s) as [s'|e]; simpl; [|done].
    apply IH. intros y t Hy. apply Hskip. by right.
  - rewrite Hskip by (done || left). simpl.
    apply IH. intros y t Hy. apply Hskip. by right.
Qed.

(** An invariant of the body is an invariant of the loop. *)
Lemma forM_invariant {A S} (I : S → Prop) (body : A → S → result S) l s s' :
  (∀ x s s', x ∈ l → I s → body x s = Ok s' → I s') →
  I s → forM body l s = Ok s' → I s'.
Proof.
  revert s. induction l as [|x l IH]; intros s Hbody Hs; simpl.
  - by intros [= <-].
  - destruct (body x s) as [t|e] eqn:Hx; simpl; [|done].
    apply IH.
    + intros y u u' Hy. apply Hbody. by right.
    + eapply Hbody; [left|done..].
Qed.

(** A way of leaving that no iteration takes is not taken by the loop. *)
Lemma forM_abort {A S} (body : A → S → result S) l s e :
  forM body l s = Abort e → ∃ x t, x ∈ l ∧ body x t = Abort e.
Proof.
  revert s. induction l as [|x l IH]; intros s; simpl; [done|].
  destruct (body x s) as [t|e'] eqn:Hx; simpl.
  - intros (y & u & Hy & Hu)%IH. exists y, u. split; [by right|done].
  - intros [= ->]. exists x, s. split; [left|done].
Qed.

(** ** The walker as a list of calls *)

Section walker_facts.
Context `{!strings.Casing}.

Lemma iterNested_at {S} (callback : callback S) cmd index flagAddr flagRO all j sf o s :
  all !! j = Some (sf, o) →
  iterNested (reflect.typeOf (reflect.StructOf all))
    (reflect.At (reflect.StructOf all) index flagAddr flagRO) cmd callback j s
  = let inner := reflect.At o (index ++ [j]) flagAddr (flagRO || negb (reflect.IsExported sf)) in
    if reflect.CanSet inner then callback inner sf [cmd] s else Ok s.
Proof.
  intros Hj. unfold iterNested, reflect.Field, reflect.Type_Field. simpl.
  by rewrite list_lookup_fmap, Hj.
Qed.

Lemma iterNested_visits {S} (callback : callback S) cmd index flagAddr flagRO before inner s :
  let all := before ++ inner in
  let field := reflect.At (reflect.StructOf all) index flagAddr flagRO in
  forM (iterNested (reflect.typeOf (reflect.StructOf all)) field cmd callback)
    (seq (length before) (length inner)) s
  = forM (call callback) (nestedVisits cmd index flagAddr flagRO (length before) inner) s.
Proof.
  intros all field. subst all field.
  revert before s. induction inner as [|[sf o] rest IH]; intros before s; [done|].
  cbn [length seq forM nestedVisits].
  rewrite (iterNested_at _ _ _ _ _ _ _ sf o) by (by apply list_lookup_middle).
  specialize (IH (before ++ [(sf, o)])). rewrite <-app_assoc in IH. simpl in IH.
  rewrite length_app in IH. simpl in IH. rewrite Nat.add_1_r in IH.
  cbv zeta. destruct (reflect.CanSet _); simpl.
  - destruct (callback _ sf [cmd] s) as [s'|e]; simpl; [apply IH|done].
  - apply IH.
Qed.

Lemma iterField_at {S} (callback : callback S) recurse index flagAddr flagRO all i sf o cmds s :
  all !! i = Some (sf, o) →
  iterField recurse (reflect.typeOf (reflect.StructOf all))
    (reflect.At (reflect.StructOf all) index flagAddr flagRO) callback i (cmds, s)
  = let field := reflect.At o (index ++ [i]) flagAddr (flagRO || negb (reflect.IsExported sf)) in
    match o with
    | reflect.StructOf inner =>
        if recurse && reflect.CanInterface field then
          s ← forM (iterNested (reflect.typeOf o) field (strings.ToLower (reflect.Name sf)) callback)
                (seq 0 (length inner)) s;
          Ok (noted cmds (sf, o), s)
        else Ok (noted cmds (sf, o), s)
    | _ =>
        if negb recurse && reflect.CanSet field then
          s ← callback field sf [] s; Ok (cmds, s)
        else Ok (cmds, s)
    end.
Proof.
  intros Hi. unfold iterField, reflect.Field, reflect.Type_Field. simpl.
  rewrite list_lookup_fmap, Hi. simpl.
  destruct o as [[]|inner| |]; simpl; try done.
Qed.

Lemma iterField_visits {S} (callback : callback S) recurse index flagAddr flagRO before fields
    cmds s :
  let all := before ++ fields in
  let v := reflect.At (reflect.StructOf all) index flagAddr flagRO in
  forM (iterField recurse (reflect.typeOf (reflect.StructOf all)) v callback)
    (seq (length before) (length fields)) (cmds, s)
  = (s' ← forM (call callback) (visitsFrom recurse index flagAddr flagRO (length before) fields) s;
     Ok (registry cmds fields, s')).
Proof.
  intros all v. subst all v.
  revert before cmds s. induction fields as [|[sf o] rest IH]; intros before cmds s; [done|].
  cbn [length seq forM visitsFrom registry foldl].
  specialize (IH (before ++ [(sf, o)])). rewrite <-app_assoc in IH. simpl in IH.
  rewrite length_app in IH. simpl in IH. rewrite Nat.add_1_r in IH.
  rewrite (iterField_at _ _ _ _ _ _ _ sf o) by (by apply list_lookup_middle).
  rewrite forM_app. cbv zeta.
  destruct o as [x|inner|t|].
  - destruct (negb recurse && _); simpl.
    + destruct (callback _ sf [] s) as [s'|e]; simpl; [apply IH|done].
    + apply IH.
  - destruct (recurse && _).
    + pose proof (iterNested_visits callback (strings.ToLower (reflect.Name sf))
        (index ++ [length before]) flagAddr (flagRO || negb (reflect.IsExported sf)) [] inner s) as Hn.
      simpl in Hn. simpl. rewrite Hn.
      destruct (forM (call callback) _ s) as [s'|e]; simpl; [apply IH|done].
    + simpl. apply IH.
  - destruct (negb recurse && _); simpl.
    + destruct (callback _ sf [] s) as [s'|e]; simpl; [apply IH|done].
    + apply IH.
  - destruct (negb recurse && _); simpl.
    + destruct (callback _ sf [] s) as [s'|e]; simpl; [apply IH|done].
    + apply IH.
Qed.

(** On a struct and its own type, [IterFields] makes the calls of
    [visits] in order and registers the command names. *)
Lemma IterFields_visits {S} (callback : callback S) recurse fields index flagAddr flagRO
    cmds s :
  let v := reflect.At (reflect.StructOf fields) index flagAddr flagRO in
  IterFields recurse (reflect.typeOf (reflect.StructOf fields)) v callback (cmds, s)
  = (s' ← forM (call callback) (visits recurse v) s; Ok (registry cmds fields, s')).
Proof.
  intros v. unfold IterFields. subst v. cbn [reflect.NumField mbind result_bind visits].
  apply (iterField_visits callback recurse index flagAddr flagRO [] fields).
Qed.

End walker_facts.

(** ** Deep mode and the variadic argument *)

Section deep_mode.
Context `{!strings.Casing} `{!strconv.Numerals}.

Lemma iterNested_ext {S} (callback callback' : callback S) st field cmd j s :
  (∀ inner sf s, reflect.Field field j = Ok inner →
     callback inner sf [cmd] s = callback' inner sf [cmd] s) →
  iterNested st field cmd callback j s = iterNested st field cmd callback' j s.
Proof.
  intros Hext. unfold iterNested.
  destruct (reflect.Field field j) as [inner|e] eqn:Hj; simpl; [|done].
  destruct (reflect.Type_Field st j) as [sf|e]; simpl; [|done].
  destruct (reflect.CanSet inner); [by apply Hext|done].
Qed.

Lemma iterField_deep_ext {S} (callback callback' : callback S) st v i state :
  (∀ inner sf c s, nestedField v inner →
     callback inner sf [c] s = callback' inner sf [c] s) →
  iterField true st v callback i state = iterField true st v callback' i state.
Proof.
  intros Hext. unfold iterField. destruct state as [cmds s].
  destruct (reflect.Field v i) as [field|e] eqn:Hi; simpl; [|done].
  destruct (reflect.Type_Field st i) as [sf|e]; simpl; [|done].
  case_bool_decide as Hk; [|done].
  destruct (reflect.CanInterface field); simpl; [|done].
  destruct (reflect.TypeOf_Interface field) as [st'|e]; simpl; [|done].
  destruct (reflect.NumField field) as [n|e]; simpl; [|done].
  rewrite (forM_ext _ (iterNested st' field (strings.ToLower (reflect.Name sf)) callback'));
    [done|].
  intros j t _. apply iterNested_ext. intros inner sf' t' Hj.
  apply Hext. by exists i, j, field.
Qed.

Lemma IterFields_deep_ext {S} (callback callback' : callback S) st v state :
  (∀ inner sf c s, nestedField v inner →
     callback inner sf [c] s = callback' inner sf [c] s) →
  IterFields true st v callback state = IterFields true st v callback' state.
Proof.
  intros Hext. unfold IterFields.
  destruct (reflect.NumField v) as [n|e]; simpl; [|done].
  apply forM_ext. intros i t _. by apply iterField_deep_ext.
Qed.

Lemma Var_abort f value name usage e :
  flag.Var f value name usage = Abort e → declarationPanic e.
Proof.
  unfold flag.Var, declarationPanic.
  destruct (strings.HasPrefix name "-"); [intros [= <-]; eauto|].
  destruct (strings.Contains name "="); [intros [= <-]; eauto|].
  destruct (flag.formal f !! name); [intros [= <-]; eauto|done].
Qed.

Lemma declareFlags_abort field sf state e :
  declareFlags field sf state = Abort e → declarationPanic e.
Proof.
  unfold declareFlags, flag.BoolVar, flag.IntVar, flag.StringVar.
  destruct state as [f h].
  destruct (reflect.Value_Kind field); try done.
  all: repeat match goal with
       | |- context [flag.Var ?f0 ?v ?n ?u] =>
           let E := fresh "E" in
           destruct (flag.Var f0 v n u) eqn:E; simpl;
             [|intros [= <-]; by eapply Var_abort]
       end.
  all: done.
Qed.

Lemma registerCommand_one cmd field sf c state :
  registerCommand cmd field sf [c] state
  = if bool_decide (c = cmd) then declareFlags field sf state else Ok state.
Proof. done. Qed.

Lemma registerCommand_abort cmd field sf c state e :
  registerCommand cmd field sf [c] state = Abort e → declarationPanic e.
Proof.
  rewrite registerCommand_one.
  case_bool_decide; [apply declareFlags_abort|done].
Qed.

Lemma declarationPanic_index : ¬ declarationPanic (Panic IndexOutOfRange).
Proof. by intros [name [?|[?|?]]]. Qed.

Lemma Field_abort v i e :
  reflect.Field v i = Abort e →
  e = Panic NumFieldOfNonStruct ∨ e = Panic FieldIndexOutOfBounds.
Proof.
  unfold reflect.Field.
  destruct v as [|[x|fields|t|] index a r]; try (intros [= <-]; by left).
  destruct (fields !! i) as [[sf o]|]; [done|intros [= <-]; by right].
Qed.

Lemma Type_Field_abort st i e :
  reflect.Type_Field st i = Abort e → e = Panic FieldIndexOutOfBounds.
Proof. unfold reflect.Type_Field. destruct (_ !! i); [done|by intros [= <-]]. Qed.

Lemma NumField_abort v e :
  reflect.NumField v = Abort e → e = Panic NumFieldOfNonStruct.
Proof. destruct v as [|[x|fields|t|] index a r]; simpl; try done; by intros [= <-]. Qed.

Lemma Value_Type_abort v e :
  reflect.Value_Type v = Abort e → e = Panic TypeOfZeroValue.
Proof. destruct v; simpl; [by intros [= <-]|done]. Qed.

Lemma CommandFlagSet_index cmd cmdFlags st v cmds h :
  CommandFlagSet cmd cmdFlags st v cmds h ≠ Abort (Panic IndexOutOfRange).
Proof.
  unfold CommandFlagSet, IterFields.
  destruct (reflect.NumField v) as [n|e] eqn:Hn; simpl.
  2: { apply NumField_abort in Hn as ->. done. }
  destruct (forM _ (seq 0 n) _) as [[cmds' [cfs h']]|e] eqn:Hloop; simpl; [done|].
  intros [= ->].
  apply forM_abort in Hloop as (i & [cmds1 [f1 h1]] & _ & Hi).
  unfold iterField in Hi.
  destruct (reflect.Field v i) as [field|e] eqn:Hf; simpl in Hi.
  2: { apply Field_abort in Hf as [-> | ->]; done. }
  destruct (reflect.Type_Field st i) as [sf|e] eqn:Ht; simpl in Hi.
  2: { by apply Type_Field_abort in Ht as ->. }
  case_bool_decide; [|done].
  destruct (reflect.CanInterface field); simpl in Hi; [|done].
  destruct (reflect.TypeOf_Interface field) as [st'|e] eqn:Hty; simpl in Hi.
  2: { by apply Value_Type_abort in Hty as ->. }
  destruct (reflect.NumField field) as [m|e] eqn:Hm; simpl in Hi.
  2: { by apply NumField_abort in Hm as ->. }
  destruct (forM _ (seq 0 m) _) as [[f2 h2]|e] eqn:Hinner; simpl in Hi; [done|].
  injection Hi as ->.
  apply forM_abort in Hinner as (j & [f3 h3] & _ & Hj).
  unfold iterNested in Hj.
  destruct (reflect.Field field j) as [inner|e] eqn:Hfj; simpl in Hj.
  2: { apply Field_abort in Hfj as [-> | ->]; done. }
  destruct (reflect.Type_Field st' j) as [sf'|e] eqn:Htj; simpl in Hj.
  2: { by apply Type_Field_abort in Htj as ->. }
  destruct (reflect.CanSet inner); [|done].
  apply registerCommand_abort in Hj. by apply declarationPanic_index in Hj.
Qed.

(** C10.  In deep mode what a callback does on anything but a field of a
    nested struct with exactly one command-context argument is never
    observed, and [CommandFlagSet], whose callback reads [currentCmd[0]],
    never panics with an index out of range. *)
Theorem IterFields_deep_one_command (st : reflect.Type_) (v : reflect.Value) :
  (∀ (S : Type) (cb cb' : callback S) (state : gmap string bool * S),
     (∀ inner sf c s, nestedField v inner → cb inner sf [c] s = cb' inner sf [c] s) →
     IterFields true st v cb state = IterFields true st v cb' state)
  ∧ (∀ cmd cmdFlags cmds h,
       CommandFlagSet cmd cmdFlags st v cmds h ≠ Abort (Panic IndexOutOfRange)).
Proof.
  split.
  - intros S cb cb' state. apply IterFields_deep_ext.
  - intros. apply CommandFlagSet_index.
Qed.

End deep_mode.

(** ** The flag package *)

Section flag_facts.
Context `{!strconv.Numerals}.

Lemma sameScope_refl f : sameScope f f.
Proof. by repeat split. Qed.

Lemma sameScope_trans f1 f2 f3 : sameScope f1 f2 → sameScope f2 f3 → sameScope f1 f3.
Proof. intros (?&?&?) (?&?&?). repeat split; congruence. Qed.

Lemma Set_length (v : flag.Value) s h : length (flag.Set_ v s h).2 = length h.
Proof.
  destruct v; simpl.
  - destruct (strconv.ParseBool s). simpl. apply length_insert.
  - destruct (strconv.ParseInt s). simpl. apply length_insert.
  - apply length_insert.
Qed.

Lemma Set_other (v : flag.Value) s h p :
  flag.pointer v ≠ p → (flag.Set_ v s h).2 !! p = h !! p.
Proof.
  intros Hp. destruct v; simpl in *.
  - destruct (strconv.ParseBool s). simpl. by apply list_lookup_insert_ne.
  - destruct (strconv.ParseInt s). simpl. by apply list_lookup_insert_ne.
  - by apply list_lookup_insert_ne.
Qed.

(** One step of the parser: either no flag is seen and nothing is marked
    as set, or one declared flag is assigned and marked, and fewer
    arguments are left. *)
(** Discharges what every branch of [parseOne] has in common. *)
Local Ltac stepped :=
  repeat match goal with H : flag.args _ = _ |- _ => rewrite ?H; clear H end;
  split_and!; [by repeat split | done | simpl; lia | ].

Lemma parseOne_spec f h seen err f' h' :
  flag.parseOne f h = (seen, err, f', h') →
  sameScope f f' ∧ flag.parsed f' = flag.parsed f
  ∧ length (flag.args f') ≤ length (flag.args f)
  ∧ ((seen = false ∧ flag.actual f' = flag.actual f
      ∧ (h' = h ∨ ∃ n fl x, flag.formal f !! n = Some fl ∧ h' = (flag.Set_ (flag.Value_ fl) x h).2))
     ∨ (seen = true ∧ err = None
        ∧ length (flag.args f') < length (flag.args f)
        ∧ ∃ n fl x, flag.formal f !! n = Some fl
            ∧ flag.actual f' = <[n := fl]> (flag.actual f)
            ∧ h' = (flag.Set_ (flag.Value_ fl) x h).2)).
Proof.
  unfold flag.parseOne.
  destruct (flag.args f) as [|s rest] eqn:Hargs.
  { intros [= <- <- <- <-]. stepped. left. eauto. }
  destruct (_ || _).
  { intros [= <- <- <- <-]. stepped. left. eauto. }
  destruct (_ && _).
  { intros [= <- <- <- <-]. stepped. left. eauto. }
  destruct (_ || _).
  { intros [= <- <- <- <-]. stepped. left. eauto. }
  destruct (flag.nameValue _) as [[name hasValue] value].
  cbn [flag.withArgs flag.formal flag.args flag.actual].
  destruct (flag.formal f !! name) as [fl|] eqn:Hfl.
  2: { destruct (_ || _); intros [= <- <- <- <-]; stepped; left; eauto. }
  destruct (flag.IsBoolFlag (flag.Value_ fl)).
  { destruct (flag.Set_ _ _ h) as [ok h1] eqn:Hset.
    destruct ok; intros [= <- <- <- <-]; stepped.
    - right. split_and!; try done; [simpl; lia|].
      exists name, fl, (if hasValue then value else "true"). by rewrite Hset.
    - left. split_and!; try done. right.
      exists name, fl, (if hasValue then value else "true"). by rewrite Hset. }
  destruct hasValue.
  { destruct (flag.Set_ _ _ h) as [ok h1] eqn:Hset.
    destruct ok; intros [= <- <- <- <-]; stepped.
    - right. split_and!; try done; [simpl; lia|].
      exists name, fl, value. by rewrite Hset.
    - left. split_and!; try done. right.
      exists name, fl, value. by rewrite Hset. }
  destruct rest as [|value' rest'].
  { intros [= <- <- <- <-]; stepped. left. eauto. }
  destruct (flag.Set_ _ _ h) as [ok h1] eqn:Hset.
  destruct ok; intros [= <- <- <- <-]; stepped.
  - right. split_and!; try done; [simpl; lia|].
    exists name, fl, value'. by rewrite Hset.
  - left. split_and!; try done. right.
    exists name, fl, value'. by rewrite Hset.
Qed.

Lemma parsedFrom_refl f h : parsedFrom f h f h.
Proof. split_and!; [apply sameScope_refl|done|done|by left]. Qed.

Lemma parsedFrom_trans f1 h1 f2 h2 f3 h3 :
  parsedFrom f1 h1 f2 h2 → parsedFrom f2 h2 f3 h3 → parsedFrom f1 h1 f3 h3.
Proof.
  intros (Hs1 & Hl1 & Hp1 & Ha1) (Hs2 & Hl2 & Hp2 & Ha2).
  assert (flag.formal f2 = flag.formal f1) as Hf by apply Hs1.
  split_and!.
  - by eapply sameScope_trans.
  - congruence.
  - intros p Hp. rewrite Hp2, Hp1; [done..|]. by rewrite Hf.
  - intros n fl Hn. apply Ha2 in Hn as [Hn|Hn]; [by apply Ha1|].
    right. by rewrite <-Hf.
Qed.

Lemma parsedFrom_wellFormed f h f' h' :
  parsedFrom f h f' h' → wellFormed f → wellFormed f'.
Proof.
  intros ((_ & Hf & _) & _ & _ & Ha) [Hname Hact]. split.
  - intros n fl. rewrite Hf. apply Hname.
  - intros n fl [Hn|Hn]%Ha; rewrite Hf; [by apply Hact|done].
Qed.

Lemma parseOne_parsedFrom f h seen err f' h' :
  flag.parseOne f h = (seen, err, f', h') → parsedFrom f h f' h'.
Proof.
  intros (Hs & _ & _ & Hcases)%parseOne_spec.
  assert (∀ n fl x, flag.formal f !! n = Some fl →
    ∀ p, (∀ n fl, flag.formal f !! n = Some fl → flag.pointer (flag.Value_ fl) ≠ p) →
         (flag.Set_ (flag.Value_ fl) x h).2 !! p = h !! p) as Hset.
  { intros n fl x Hn p Hp. apply Set_other. by eapply Hp. }
  destruct Hcases as [(_ & Ha & Hh)|(_ & _ & _ & n & fl & x & Hn & Ha & ->)].
  - split_and!; [done| | |].
    + destruct Hh as [->|(n & fl & x & _ & ->)]; [done|apply Set_length].
    + destruct Hh as [->|(n & fl & x & Hn & ->)]; [done|by eapply Hset].
    + intros n fl. rewrite Ha. by left.
  - split_and!; [done|apply Set_length|by eapply Hset|].
    intros n' fl'. rewrite Ha. rewrite lookup_insert.
    case_decide; [intros [= <-]; subst; by right|by left].
Qed.

Lemma parseLoop_parsedFrom budget f h err f' h' :
  flag.parseLoop budget f h = Ok (err, f', h') → parsedFrom f h f' h'.
Proof.
  revert f h. induction budget as [|budget IH]; intros f h; simpl;
    destruct (flag.parseOne f h) as [[[seen err1] f1] h1] eqn:Hone;
    apply parseOne_parsedFrom in Hone.
  - destruct seen; [by intros [= <- <- <-]|].
    destruct err1 as [e|]; [|by intros [= <- <- <-]].
    destruct (flag.errorHandling f1); [by intros [= <- <- <-]|by case_bool_decide|done].
  - destruct seen.
    { intros Hrest%IH. by eapply parsedFrom_trans. }
    destruct err1 as [e|]; [|by intros [= <- <- <-]].
    destruct (flag.errorHandling f1); [by intros [= <- <- <-]|by case_bool_decide|done].
Qed.

(** An error reaches the caller of [FlagSet.Parse] only under
    [ContinueOnError]. *)
Lemma parseLoop_error budget f h e f' h' :
  flag.parseLoop budget f h = Ok (Some e, f', h') →
  flag.errorHandling f = flag.ContinueOnError.
Proof.
  revert f h. induction budget as [|budget IH]; intros f h; simpl;
    destruct (flag.parseOne f h) as [[[seen err1] f1] h1] eqn:Hone;
    apply parseOne_spec in Hone as ((_ & _ & Heh) & _).
  - destruct seen; [done|]. destruct err1 as [e1|]; [|done].
    destruct (flag.errorHandling f1) eqn:Hp; [congruence|by case_bool_decide|done].
  - destruct seen; [intros Hrest%IH; congruence|].
    destruct err1 as [e1|]; [|done].
    destruct (flag.errorHandling f1) eqn:Hp; [congruence|by case_bool_decide|done].
Qed.


Lemma Parse_parsedFrom f arguments h err f' h' :
  flag.Parse f arguments h = Ok (err, f', h') → parsedFrom f h f' h'.
Proof.
  unfold flag.Parse. intros Hloop%parseLoop_parsedFrom.
  eapply parsedFrom_trans; [|done].
  split_and!; [by repeat split|done|done|by left].
Qed.

Lemma Parse_error f arguments h e f' h' :
  flag.Parse f arguments h = Ok (Some e, f', h') →
  flag.errorHandling f = flag.ContinueOnError.
Proof. unfold flag.Parse. by intros Hloop%parseLoop_error. Qed.


(** The budget of [FlagSet.Parse] is never used up: the loop stops by
    itself within as many flags as there are arguments. *)
Lemma parseLoop_budget budget budget' f h :
  length (flag.args f) ≤ budget → length (flag.args f) ≤ budget' →
  flag.parseLoop budget f h = flag.parseLoop budget' f h.
Proof.
  revert budget' f h. induction budget as [|budget IH]; intros budget' f h Hb Hb'.
  - destruct budget' as [|budget']; [done|]. simpl.
    destruct (flag.parseOne f h) as [[[seen err1] f1] h1] eqn:Hone.
    apply parseOne_spec in Hone as (_ & _ & _ & [(-> & _)|(_ & _ & Hlt & _)]); [done|lia].
  - destruct budget' as [|budget']; simpl;
      destruct (flag.parseOne f h) as [[[seen err1] f1] h1] eqn:Hone;
      apply parseOne_spec in Hone as (_ & _ & _ & [(-> & _)|(-> & _ & Hlt & _)]);
      try done; try lia.
    apply IH; lia.
Qed.

End flag_facts.

(** ** Flags on the command line *)

Section spellings.
Context `{!strconv.Numerals}.

Lemma append_empty s : s +:+ "" = s.
Proof.
  induction s as [|c s IH]; [done|].
  change (String c (s +:+ "") = String c s). by rewrite IH.
Qed.

Lemma append_cons c s t : String c s +:+ t = String c (s +:+ t).
Proof. done. Qed.

Lemma prefix_head (a c : ascii) s :
  String.prefix (String a "") (String c s) = bool_decide (a = c).
Proof.
  simpl. destruct (ascii_dec a c).
  - rewrite bool_decide_eq_true_2 by done. by destruct s.
  - by rewrite bool_decide_eq_false_2.
Qed.

Lemma Contains_cons c s sub :
  strings.Contains (String c s) sub = String.prefix sub (String c s) || strings.Contains s sub.
Proof. done. Qed.

Lemma cutEquals_attached n value :
  strings.Contains n "=" = false → flag.cutEquals (n +:+ "=" +:+ value) = Some (n, value).
Proof.
  induction n as [|c n IH]; [done|].
  rewrite Contains_cons. intros [Hc Hn]%orb_false_iff.
  rewrite prefix_head in Hc. apply bool_decide_eq_false in Hc.
  rewrite append_cons. cbn [flag.cutEquals].
  rewrite bool_decide_eq_false_2 by congruence. by rewrite IH.
Qed.

Lemma cutEquals_plain n :
  strings.Contains n "=" = false → flag.cutEquals n = None.
Proof.
  induction n as [|c n IH]; [done|].
  rewrite Contains_cons. intros [Hc Hn]%orb_false_iff.
  rewrite prefix_head in Hc. apply bool_decide_eq_false in Hc.
  simpl. rewrite bool_decide_eq_false_2 by congruence. by rewrite IH.
Qed.

Lemma from_1 a s : flag.from 1 (String a s) = s.
Proof. done. Qed.

Lemma from_2 a b s : flag.from 2 (String a (String b s)) = s.
Proof. done. Qed.

Lemma parseOne_token f h dashes name fl attached rest :
  dashes = "-" ∨ dashes = "--" →
  flagName name →
  flag.formal f !! name = Some fl →
  flag.parseOne (flag.withArgs f (token dashes name attached :: rest)) h
  = supply (flag.withArgs f rest) h name fl attached.
Proof.
  intros Hd (Hne & Hminus & Hequals) Hfl.
  destruct name as [|c n]; [done|]. clear Hne.
  unfold strings.HasPrefix in Hminus. rewrite prefix_head in Hminus. apply bool_decide_eq_false in Hminus.
  rewrite Contains_cons in Hequals. apply orb_false_iff in Hequals as [Hc Hn].
  rewrite prefix_head in Hc. apply bool_decide_eq_false in Hc.
  assert (flag.nameValue (String c n +:+ match attached with Some value => "=" +:+ value | None => "" end)
          = (String c n, bool_decide (is_Some attached), default "" attached)) as Hnv.
  { destruct attached as [value|].
    - rewrite append_cons. unfold flag.nameValue. by rewrite cutEquals_attached.
    - rewrite append_empty. unfold flag.nameValue. by rewrite cutEquals_plain. }
  assert (∀ s, strings.HasPrefix (String c s) "-" = false) as Hm.
  { intros s. unfold strings.HasPrefix. rewrite prefix_head. by apply bool_decide_eq_false_2. }
  assert (∀ s, strings.HasPrefix (String c s) "=" = false) as He.
  { intros s. unfold strings.HasPrefix. rewrite prefix_head. by apply bool_decide_eq_false_2. }
  unfold flag.parseOne, token. cbn [flag.args flag.withArgs].
  set (text := match attached with Some value => "=" +:+ value | None => "" end) in *.
  assert (∀ rest', flag.withArgs (flag.withArgs f (token dashes (String c n) attached :: rest)) rest'
                   = flag.withArgs f rest') as Hargs by done.
  assert (∀ s, strings.HasPrefix (String "-" s) "-" = true) as Hdash by by intros [].
  destruct Hd as [-> | ->].
  - change ("-" +:+ String c n +:+ text) with (String "-" (String c (n +:+ text))).
    cbn [String.length Nat.ltb Nat.leb orb negb flag.from]. rewrite Hdash.
    cbn [negb orb]. rewrite Hm. cbn [Nat.eqb andb flag.from]. rewrite !Hm, !He.
    cbn [Nat.eqb String.length orb].
    change (String c (n +:+ text)) with (String c n +:+ text). rewrite Hnv.
    cbn [flag.formal flag.withArgs flag.actual flag.args]. rewrite Hfl.
    unfold supply. cbn [flag.formal flag.withArgs flag.actual flag.args].
    by destruct (flag.IsBoolFlag (flag.Value_ fl)), attached as [value|], rest as [|value' rest'].
  - change ("--" +:+ String c n +:+ text) with (String "-" (String "-" (String c (n +:+ text)))).
    cbn [String.length Nat.ltb Nat.leb orb negb flag.from]. rewrite !Hdash.
    cbn [negb orb Nat.eqb andb flag.from]. rewrite !Hm, !He.
    cbn [Nat.eqb String.length orb].
    change (String c (n +:+ text)) with (String c n +:+ text). rewrite Hnv.
    cbn [flag.formal flag.withArgs flag.actual flag.args]. rewrite Hfl.
    unfold supply. cbn [flag.formal flag.withArgs flag.actual flag.args].
    by destruct (flag.IsBoolFlag (flag.Value_ fl)), attached as [value|], rest as [|value' rest'].
Qed.


End spellings.


(** ** Declaring the flags of a field *)

Section declare_facts.
Context `{!strings.Casing} `{!strconv.Numerals}.

Lemma Var_Ok f value name usage f' :
  flag.Var f value name usage = Ok f' →
  flag.formal f !! name = None
  ∧ f' = flag.withFormal f
           (<[name := {| flag.Name := name; flag.Usage := usage; flag.Value_ := value |}]>
              (flag.formal f))
  ∧ declarable name.
Proof.
  unfold flag.Var, declarable.
  destruct (strings.HasPrefix name "-"); [done|].
  destruct (strings.Contains name "="); [done|].
  destruct (flag.formal f !! name); [done|]. by intros [= <-].
Qed.

Lemma insert_fresh_cell (h : heap) (x y : val) :
  <[length h := y]> (h ++ [x]) = h ++ [y].
Proof. rewrite insert_app_r_alt by done. by rewrite Nat.sub_diag. Qed.

(** A field of a kind other than bool, int and string declares nothing;
    any other gets one fresh variable and two flags on it, under names
    not declared before. *)
Lemma declareFlags_Ok field sf f h f' h' :
  declareFlags field sf (f, h) = Ok (f', h') →
  match valueFor (reflect.Value_Kind field) (length h) with
  | None => f' = f ∧ h' = h
  | Some value =>
      ∃ zero usage usage',
        h' = h ++ [zero]
        ∧ flag.formal f !! longName sf = None
        ∧ flag.formal f !! shortName sf = None
        ∧ longName sf ≠ shortName sf
        ∧ f' = flag.withFormal f
                 (<[shortName sf := {| flag.Name := shortName sf; flag.Usage := usage';
                                       flag.Value_ := value |}]>
                    (<[longName sf := {| flag.Name := longName sf; flag.Usage := usage;
                                         flag.Value_ := value |}]> (flag.formal f)))
        ∧ declarable (longName sf) ∧ declarable (shortName sf)
  end.
Proof.
  unfold declareFlags, flag.BoolVar, flag.IntVar, flag.StringVar, longName, shortName.
  destruct (reflect.Value_Kind field); simpl; try by intros [= <- <-].
  all: rewrite !insert_fresh_cell.
  all: match goal with
       | |- context [flag.Var ?f0 ?v ?n ?u] =>
           destruct (flag.Var f0 v n u) as [f1|] eqn:E1; simpl; [|done];
           apply Var_Ok in E1 as (Hlong & -> & Hdl)
       end.
  all: rewrite insert_fresh_cell.
  all: match goal with
       | |- context [flag.Var ?f0 ?v ?n ?u] =>
           destruct (flag.Var f0 v n u) as [f2|] eqn:E2; simpl; [|done];
           apply Var_Ok in E2 as (Hshort & -> & Hds)
       end.
  all: intros [= <- <-]; simpl in Hshort.
  all: eexists _, _, _; split_and!; [done|done| | |done|done|done].
  all: try (intros Heq; rewrite Heq, lookup_insert_eq in Hshort; done).
  all: rewrite lookup_insert in Hshort; by case_decide.
Qed.

Lemma declaredFrom_refl f h : declaredFrom f h f h.
Proof.
  split_and!; try done; [exists []; by rewrite app_nil_r|by left].
Qed.

Lemma declaredFrom_trans f1 h1 f2 h2 f3 h3 :
  declaredFrom f1 h1 f2 h2 → declaredFrom f2 h2 f3 h3 → declaredFrom f1 h1 f3 h3.
Proof.
  intros (?&?&?&?&?&[m1 ->]&Hk1&Hn1) (?&?&?&?&?&[m2 ->]&Hk2&Hn2).
  split_and!; try congruence.
  - exists (m1 ++ m2). by rewrite app_assoc.
  - intros n fl Hn. by apply Hk2, Hk1.
  - intros n fl [Hn|[Hname Hp]]%Hn2.
    + apply Hn1 in Hn as [Hn|[Hname Hp]]; [by left|right].
      split; [done|]. rewrite length_app. lia.
    + right. split; [done|]. rewrite length_app in Hp. lia.
Qed.

Lemma declareFlags_declaredFrom field sf f h f' h' :
  declareFlags field sf (f, h) = Ok (f', h') → declaredFrom f h f' h'.
Proof.
  intros Hd%declareFlags_Ok.
  destruct (valueFor _ _) as [value|] eqn:Hv.
  2: { destruct Hd as [-> ->]. apply declaredFrom_refl. }
  destruct Hd as (zero & usage & usage' & -> & Hlong & Hshort & Hne & -> & _).
  assert (flag.pointer value = length h) as Hp.
  { by destruct (reflect.Value_Kind field); simplify_eq/=. }
  split_and!; try done; [by eexists| |]; simpl.
  - intros n fl Hn. rewrite !lookup_insert_ne; [done|congruence..].
  - intros n fl. rewrite !lookup_insert. rewrite length_app. simpl.
    repeat case_decide; [| |by left]; intros [= <-]; right; simpl; (split; [done|lia]).
Qed.

Lemma declaredFrom_wellFormed f h f' h' :
  declaredFrom f h f' h' → wellFormed f → wellFormed f'.
Proof.
  intros (_&_&Ha&_&_&_&Hkeep&Hnew) [Hname Hact]. split.
  - intros n fl [Hn|[Hn _]]%Hnew; [by apply Hname|done].
  - intros n fl. rewrite Ha. intros Hn%Hact. by apply Hkeep.
Qed.

(** Registration over a list of calls, whatever the filter on the
    command. *)
Lemma forM_declaredFrom (body : visit → flag.FlagSet * heap → result (flag.FlagSet * heap))
    l f h f' h' :
  (∀ x f h f' h', x ∈ l → body x (f, h) = Ok (f', h') → declaredFrom f h f' h') →
  forM body l (f, h) = Ok (f', h') → declaredFrom f h f' h'.
Proof.
  intros Hbody Hloop.
  apply (forM_invariant (λ s, declaredFrom f h s.1 s.2) body l (f, h) (f', h')); [|apply declaredFrom_refl|done].
  intros x [f1 h1] [f2 h2] Hx Hinv Hstep. simpl in *.
  eapply declaredFrom_trans; [done|]. by eapply Hbody.
Qed.

Lemma registerGlobal_declaredFrom x f h f' h' :
  call registerGlobal x (f, h) = Ok (f', h') → declaredFrom f h f' h'.
Proof. destruct x as [[field sf] c]. apply declareFlags_declaredFrom. Qed.

Lemma registerCommand_declaredFrom cmd x f h f' h' :
  call (registerCommand cmd) x (f, h) = Ok (f', h') → declaredFrom f h f' h'.
Proof.
  destruct x as [[field sf] c]. unfold call, registerCommand.
  destruct (c !! 0) as [current|]; [|done].
  case_bool_decide; [apply declareFlags_declaredFrom|].
  intros [= <- <-]. apply declaredFrom_refl.
Qed.

End declare_facts.

(** ** Assignment through a view *)

Lemma fieldAt_cons i j index fields :
  fieldAt (i :: j :: index) (reflect.StructOf fields)
  = ('(_, o) ← fields !! i; fieldAt (j :: index) o).
Proof. done. Qed.

Lemma fieldAt_lookup i index fields :
  fieldAt (i :: index) (reflect.StructOf fields)
  = match index with
    | [] => fields !! i
    | _ => '(_, o) ← fields !! i; fieldAt index o
    end.
Proof. by destruct index. Qed.

(** A field apart from the assigned one keeps descriptor and content. *)
Lemma fieldAt_store_apart index index' x root :
  apart index index' → fieldAt index' (reflect.store index x root) = fieldAt index' root.
Proof.
  intros (common & i & i' & rest & rest' & Hne & -> & ->).
  revert root. induction common as [|c common IH]; intros root; cbn [app].
  - destruct root as [y|fields|t|]; try done.
    cbn [reflect.store]. rewrite !fieldAt_lookup, list_lookup_alter_ne by done. done.
  - destruct root as [y|fields|t|]; try done.
    cbn [reflect.store]. rewrite !fieldAt_lookup.
    remember (common ++ i' :: rest') as tail eqn:Htail.
    destruct tail as [|n tail]; [by destruct common|].
    rewrite list_lookup_alter_eq.
    destruct (fields !! c) as [[sf o]|]; [|done].
    apply IH.
Qed.

(** The assigned field keeps its descriptor and holds the scalar. *)
Lemma fieldAt_store_same index x root sf o :
  fieldAt index root = Some (sf, o) →
  fieldAt index (reflect.store index x root) = Some (sf, reflect.Scalar x).
Proof.
  revert root. induction index as [|i index IH]; intros root; [done|].
  destruct root as [y|fields|t|]; try by destruct index.
  cbn [reflect.store]. rewrite !fieldAt_lookup, list_lookup_alter_eq.
  destruct index as [|j index].
  - by intros ->.
  - destruct (fields !! i) as [[sf' o']|]; simpl; [apply IH|done].
Qed.

Section binder_facts.
Context `{!strings.Casing} `{!strconv.Numerals}.

Lemma Get_sameKind (k : reflect.Kind) (value : flag.Value) h :
  sameKind k value = true → reflect.kindOf (reflect.Scalar (flag.Get value h)) = k.
Proof. by destruct k, value. Qed.

Lemma assign_matches h o index flagAddr flagRO sf fl root :
  assign h (reflect.At o index flagAddr flagRO) sf fl root
  = if matches sf (reflect.kindOf o) fl
    then reflect.store index (flag.Get (flag.Value_ fl) h) root
    else root.
Proof.
  unfold assign, matches, longName, shortName. cbn [reflect.Value_Kind].
  destruct (_ || _); [|done]. simpl.
  destruct (reflect.kindOf o), (flag.Value_ fl); done.
Qed.

(** One binding call, on the flags in the order of [Visit]. *)
Lemma visit_apart h o index flagAddr flagRO sf flags root index' :
  apart index index' →
  fieldAt index' (foldl (λ root fl, assign h (reflect.At o index flagAddr flagRO) sf fl root)
                    root flags)
  = fieldAt index' root.
Proof.
  intros Hapart. revert root. induction flags as [|fl flags IH]; intros root; [done|].
  simpl. rewrite IH, assign_matches.
  destruct (matches _ _ _); [by apply fieldAt_store_apart|done].
Qed.

Lemma visit_same h o index flagAddr flagRO sf flags root o0 :
  fieldAt index root = Some (sf, o0) →
  fieldAt index (foldl (λ root fl, assign h (reflect.At o index flagAddr flagRO) sf fl root)
                   root flags)
  = Some (sf, match last (filter (λ fl, matches sf (reflect.kindOf o) fl) flags) with
              | Some fl => reflect.Scalar (flag.Get (flag.Value_ fl) h)
              | None => o0
              end).
Proof.
  revert root o0. induction flags as [|fl flags IH]; intros root o0 Hroot; [done|].
  simpl. rewrite assign_matches, filter_cons.
  destruct (matches sf (reflect.kindOf o) fl) eqn:Hm.
  - rewrite decide_True by done.
    erewrite IH by by eapply fieldAt_store_same.
    rewrite last_cons. by destruct (last _).
  - rewrite decide_False by (simpl; tauto).
    by apply IH.
Qed.

Lemma bound_bound fs h sf o :
  reflect.kindOf (bound fs h sf o) = reflect.kindOf o
  ∧ bound fs h sf (bound fs h sf o) = bound fs h sf o.
Proof.
  unfold bound. destruct (last _) as [fl|] eqn:Hlast; [|by rewrite Hlast].
  assert (matches sf (reflect.kindOf o) fl) as Hm.
  { apply last_Some_elem_of in Hlast. by apply list_elem_of_filter in Hlast as [? _]. }
  assert (sameKind (reflect.kindOf o) (flag.Value_ fl) = true) as Hk.
  { unfold matches in Hm. apply Is_true_true in Hm. by apply andb_true_iff in Hm as [_ ?]. }
  rewrite (Get_sameKind _ _ _ Hk). by rewrite Hlast.
Qed.

(** A binding walk, seen from one field: every call is on that very
    field or on one apart from it. *)
Lemma binding_field fs h vs root root' index sf o :
  forM (call (bind fs h)) vs root = Ok root' →
  fieldAt index root = Some (sf, o) →
  (∀ x, x ∈ vs →
     apart (visitIndex x) index
     ∨ ∃ flagAddr flagRO o', x.1.1 = reflect.At o' index flagAddr flagRO
         ∧ x.1.2 = sf ∧ reflect.kindOf o' = reflect.kindOf o) →
  fieldAt index root'
  = Some (sf, if bool_decide (Exists (λ x, visitIndex x = index) vs)
              then bound fs h sf o else o).
Proof.
  revert root o. induction vs as [|x vs IH]; intros root o Hloop Hroot Hvs.
  - simpl in Hloop. injection Hloop as <-.
    rewrite bool_decide_eq_false_2; [done|]. by intros ?%Exists_nil.
  - destruct x as [[field sfx] c]. cbn [forM call bind] in Hloop.
    simpl in Hloop. unfold flag.Visit in Hloop.
    destruct (Hvs (field, sfx, c)) as [Hapart|(a & r & o' & Hfield & Hsf & Hk)]; [left| |].
    + destruct field as [|o' index' a r].
      { destruct Hapart as (common & i & i' & rest & rest' & _ & Hnil & _).
        by destruct common. }
      change (apart index' index) in Hapart.
      rewrite (IH _ o Hloop).
      * rewrite (bool_decide_ext (Exists _ (_ :: _)) (Exists (λ x, visitIndex x = index) vs));
          [done|].
        rewrite Exists_cons. split; [|by right]. intros [Heq|?]; [|done].
        change (index' = index) in Heq.
        destruct Hapart as (common & i & i' & rest & rest' & Hne & Heq1 & Heq2).
        rewrite Heq, Heq2 in Heq1. apply app_inv_head in Heq1. congruence.
      * by rewrite visit_apart.
      * intros y Hy. apply Hvs. by right.
    + simpl in Hfield, Hsf. subst field sfx.
      pose proof (bound_bound fs h sf o) as [Hkb Hbb].
      rewrite (IH _ (bound fs h sf o) Hloop).
      * rewrite (bool_decide_eq_true_2 (Exists _ (_ :: _))) by by left.
        rewrite Hbb. by case_bool_decide.
      * erewrite visit_same by done. f_equal. f_equal. unfold bound. by rewrite Hk.
      * intros y Hy. destruct (Hvs y) as [?|(a' & r' & o'' & ? & ? & ?)]; [by right|by left|].
        right. exists a', r', o''. split_and!; [done..|congruence].
Qed.

End binder_facts.

(** ** The calls of a walk *)

Section visits_facts.
Context `{!strings.Casing}.

Lemma nestedVisits_elem x cmd index flagAddr flagRO j inner :
  x ∈ nestedVisits cmd index flagAddr flagRO j inner ↔
  ∃ k sf o, inner !! k = Some (sf, o)
    ∧ flagAddr = true ∧ flagRO = false ∧ reflect.IsExported sf = true
    ∧ x = (reflect.At o (index ++ [j + k]) true false, sf, [cmd]).
Proof.
  revert j. induction inner as [|[sf o] rest IH]; intros j.
  - simpl. split; [by intros ?%elem_of_nil|]. by intros (k & ? & ? & ? & _).
  - cbn [nestedVisits]. rewrite elem_of_app, IH. split.
    + intros [Hx|(k & sf' & o' & Hk & ? & ? & ? & ->)].
      * destruct flagAddr, flagRO, (reflect.IsExported sf) eqn:He; simpl in Hx;
          try by apply elem_of_nil in Hx.
        apply list_elem_of_singleton in Hx as ->.
        exists 0, sf, o. by rewrite Nat.add_0_r.
      * exists (S k), sf', o'. split_and!; try done. by rewrite Nat.add_succ_r.
    + intros ([|k] & sf' & o' & Hk & -> & -> & He & ->).
      * left. simpl in Hk. injection Hk as <- <-. rewrite He. simpl.
        rewrite Nat.add_0_r. apply list_elem_of_singleton. done.
      * right. exists k, sf', o'. split_and!; try done. by rewrite Nat.add_succ_r.
Qed.

(** Shallow mode calls on the settable fields of the struct that are no
    structs themselves, without a command. *)
Lemma visitsFrom_shallow_elem x index flagAddr flagRO i fields :
  x ∈ visitsFrom false index flagAddr flagRO i fields ↔
  ∃ k sf o, fields !! k = Some (sf, o)
    ∧ reflect.kindOf o ≠ reflect.Struct
    ∧ flagAddr = true ∧ flagRO = false ∧ reflect.IsExported sf = true
    ∧ x = (reflect.At o (index ++ [i + k]) true false, sf, []).
Proof.
  revert i. induction fields as [|[sf o] rest IH]; intros i.
  - simpl. split; [by intros ?%elem_of_nil|]. by intros (k & ? & ? & ? & _).
  - cbn [visitsFrom]. rewrite elem_of_app, IH. split.
    + intros [Hx|(k & sf' & o' & Hk & ? & ? & ? & ? & ->)].
      * destruct o as [y|inner|t|]; [|by apply elem_of_nil in Hx|..].
        all: destruct flagAddr, flagRO, (reflect.IsExported sf) eqn:He; simpl in Hx;
          try by apply elem_of_nil in Hx.
        all: apply list_elem_of_singleton in Hx as ->.
        all: eexists 0, sf, _; rewrite Nat.add_0_r; split_and!; try done.
        by destruct y.
      * exists (S k), sf', o'. split_and!; try done. by rewrite Nat.add_succ_r.
    + intros ([|k] & sf' & o' & Hk & Hkind & -> & -> & He & ->).
      * left. simpl in Hk. injection Hk as <- <-. rewrite Nat.add_0_r.
        destruct o as [y|inner|t|]; [|done|..]; rewrite He; simpl;
          by apply list_elem_of_singleton.
      * right. exists k, sf', o'. split_and!; try done. by rewrite Nat.add_succ_r.
Qed.

(** Deep mode calls on the settable fields of the exported nested
    structs, with the lower-cased name of the nested struct's field. *)
Lemma visitsFrom_deep_elem x index flagAddr flagRO i fields :
  x ∈ visitsFrom true index flagAddr flagRO i fields ↔
  ∃ k group inner j sf o, fields !! k = Some (group, reflect.StructOf inner)
    ∧ inner !! j = Some (sf, o)
    ∧ flagAddr = true ∧ flagRO = false
    ∧ reflect.IsExported group = true ∧ reflect.IsExported sf = true
    ∧ x = (reflect.At o ((index ++ [i + k]) ++ [j]) true false, sf,
           [strings.ToLower (reflect.Name group)]).
Proof.
  revert i. induction fields as [|[sf o] rest IH]; intros i.
  - simpl. split; [by intros ?%elem_of_nil|]. by intros (k & ? & ? & ? & ? & ? & ? & _).
  - cbn [visitsFrom]. rewrite elem_of_app, IH. split.
    + intros [Hx|(k & group & inner & j & sf' & o' & Hk & ? & ? & ? & ? & ? & ->)].
      * destruct o as [y|inner|t|]; try by apply elem_of_nil in Hx.
        destruct (true && _) eqn:Hc; [|by apply elem_of_nil in Hx].
        simpl in Hc. apply negb_true_iff, orb_false_iff in Hc as [-> Hg%negb_false_iff].
        apply nestedVisits_elem in Hx as (j & sf' & o' & Hj & -> & _ & He & ->).
        exists 0, sf, inner, j, sf', o'. rewrite Nat.add_0_r. by split_and!.
      * exists (S k), group, inner, j, sf', o'. split_and!; try done.
        by rewrite Nat.add_succ_r.
    + intros ([|k] & group & inner & j & sf' & o' & Hk & Hj & -> & -> & Hg & He & ->).
      * left. simpl in Hk. injection Hk as -> ->. rewrite Hg. simpl.
        rewrite Nat.add_0_r. apply nestedVisits_elem.
        exists j, sf', o'. by split_and!.
      * right. exists k, group, inner, j, sf', o'. split_and!; try done.
        by rewrite Nat.add_succ_r.
Qed.

End visits_facts.

(** ** The stages of [Parse] *)

Section stages.
Context `{!strings.Casing} `{!strconv.Numerals}.

Lemma schema_view s :
  match schema s with
  | Some (fields, addr) =>
      reflect.Indirect (reflect.ValueOf s) = reflect.At (reflect.StructOf fields) [] addr false
  | None => reflect.Value_Kind (reflect.Indirect (reflect.ValueOf s)) ≠ reflect.Struct
  end.
Proof.
  destruct s as [[[]|fields|[[[]|fields|t|]|]|]|]; simpl; done.
Qed.

Lemma forM_registerCommand_scope cmd vs f h f' h' :
  forM (call (registerCommand cmd)) vs (f, h) = Ok (f', h') → declaredFrom f h f' h'.
Proof.
  apply forM_declaredFrom. intros x f1 h1 f2 h2 _. apply registerCommand_declaredFrom.
Qed.

Lemma forM_registerGlobal_scope vs f h f' h' :
  forM (call registerGlobal) vs (f, h) = Ok (f', h') → declaredFrom f h f' h'.
Proof.
  apply forM_declaredFrom. intros x f1 h1 f2 h2 _. apply registerGlobal_declaredFrom.
Qed.

(** A run of [Parse] that gets as far as the command scope went through
    every stage, and returned no error. *)
Lemma parseBody_stages s os_Args w err s' w' cfs :
  parseBody s os_Args w = Ok (err, s', w', Some cfs) →
  ∃ prog args fields addr global h1 e1 line h2 root1 cmds2 cmd cfs0 h3 h4 root2,
    let v := reflect.At (reflect.StructOf fields) [] addr false in
    os_Args = prog :: args
    ∧ schema s = Some (fields, addr)
    ∧ forM (call registerGlobal) (visits false v) (CommandLine w, vars w)
      = Ok (global, h1)
    ∧ flag.Parse global args h1 = Ok (e1, line, h2)
    ∧ forM (call (bind line h2)) (visits false v) (reflect.StructOf fields) = Ok root1
    ∧ IdentifyCommand cmds2 args = Ok cmd
    ∧ forM (call (registerCommand cmd)) (visits true v)
        (flag.NewFlagSet cmd flag.ExitOnError, h2) = Ok (cfs0, h3)
    ∧ flag.Parse cfs0 (CommandFlags cmd (flag.args line)) h3 = Ok (None, cfs, h4)
    ∧ forM (call (bind cfs h4)) (visits true v) root1 = Ok root2
    ∧ err = None ∧ s' = written s root2
    ∧ CommandLine w' = line ∧ vars w' = h4.
Proof.
  unfold parseBody. destruct os_Args as [|prog args]; [done|].
  destruct (length args =? 0); [done|].
  pose proof (schema_view s) as Hview.
  destruct (schema s) as [[fields addr]|] eqn:Hschema.
  2: { destruct (reflect.Value_Type _); simpl; [|done].
       by rewrite bool_decide_eq_false_2. }
  rewrite Hview. cbn [reflect.Value_Type mbind result_bind reflect.Value_Kind reflect.kindOf].
  rewrite bool_decide_eq_true_2 by done. cbn [negb viewed].
  rewrite IterFields_visits.
  destruct (forM (call registerGlobal) _ _) as [[global h1]|] eqn:Hreg; [|done].
  cbn [mbind result_bind].
  destruct (flag.Parse global args h1) as [[[e1 line] h2]|] eqn:Hparse; [|done].
  cbn [mbind result_bind].
  rewrite IterFields_visits.
  destruct (forM (call (bind line h2)) _ _) as [root1|] eqn:Hbind; [|done].
  cbn [mbind result_bind].
  destruct (IdentifyCommand _ args) as [cmd|] eqn:Hcmd; [|done].
  cbn [mbind result_bind]. unfold CommandFlagSet.
  rewrite IterFields_visits.
  destruct (forM (call (registerCommand cmd)) _ _) as [[cfs0 h3]|] eqn:Hdecl; [|done].
  cbn [mbind result_bind].
  destruct (flag.Parse cfs0 _ h3) as [[[e2 cfs1] h4]|] eqn:Hparse2; [|done].
  cbn [mbind result_bind].
  destruct e2 as [e|].
  { apply Parse_error in Hparse2.
    apply forM_registerCommand_scope in Hdecl as (_ & Heh & _).
    rewrite Hparse2 in Heh. done. }
  rewrite IterFields_visits.
  destruct (forM (call (bind cfs1 h4)) _ _) as [root2|] eqn:Hbind2; [|done].
  cbn [mbind result_bind]. intros [= <- <- <- <-].
  by eexists prog, args, fields, addr, global, h1, e1, line, h2, root1, _, cmd, cfs0, h3,
    h4, root2.
Qed.

End stages.

(** ** Errors of [Parse] *)

Section errors.
Context `{!strings.Casing} `{!strconv.Numerals}.

Lemma parseBody_early s os_Args w err s' w' :
  parseBody s os_Args w = Ok (err, s', w', None) →
  (err = Some ErrNoArgs ∨ err = Some ErrWrongType) ∧ s' = s ∧ w' = w.
Proof.
  unfold parseBody. destruct os_Args as [|prog args]; [done|].
  destruct (length args =? 0); [by intros [= <- <- <-]; eauto|].
  destruct (reflect.Value_Type _) as [st|]; simpl; [|done].
  destruct (negb _); [by intros [= <- <- <-]; eauto|].
  destruct (IterFields _ _ _ _ _) as [[c1 [line1 h1]]|]; simpl; [|done].
  destruct (flag.Parse _ _ _) as [[[e1 line2] h2]|]; simpl; [|done].
  destruct (IterFields _ _ _ _ _) as [[c2 root1]|]; simpl; [|done].
  destruct (IdentifyCommand _ _) as [cmd|]; simpl; [|done].
  destruct (CommandFlagSet _ _ _ _ _ _) as [[[cfs0 c3] h3]|]; simpl; [|done].
  destruct (flag.Parse _ _ _) as [[[e2 cfs1] h4]|]; simpl; [|done].
  destruct e2; [done|].
  destruct (IterFields _ _ _ _ _) as [[c4 root2]|]; simpl; done.
Qed.

Lemma Parse_parseBody s os_Args w err s' w' :
  Parse s os_Args w = Ok (err, s', w') ↔ ∃ cfs, parseBody s os_Args w = Ok (err, s', w', cfs).
Proof.
  unfold Parse. destruct (parseBody s os_Args w) as [[[[e1 s1] w1] cfs1]|]; simpl.
  - split; [intros [= <- <- <-]; eauto|]. by intros [cfs [= <- <- <- _]].
  - split; [done|]. by intros [cfs ?].
Qed.


(** C6.  With no argument after the program name [Parse] returns
    [ErrNoArgs] at once: no flag is declared, no command is named, and
    the schema is as it was. *)
Theorem Parse_no_arguments (s : reflect.iface) (prog : string) (w : World) :
  Parse s [prog] w = Ok (Some ErrNoArgs, s, w).
Proof. done. Qed.

(** A value that is neither a struct nor a pointer to one, and no nil
    either, is refused with [ErrWrongType] before anything is declared. *)
Lemma Parse_wrong_type s prog arg args w :
  reflect.Indirect (reflect.ValueOf s) ≠ reflect.Zero →
  schema s = None →
  Parse s (prog :: arg :: args) w = Ok (Some ErrWrongType, s, w).
Proof.
  intros Hzero Hschema. pose proof (schema_view s) as Hview. rewrite Hschema in Hview.
  unfold Parse, parseBody. cbn [length Nat.eqb].
  destruct (reflect.Indirect (reflect.ValueOf s)) as [|o index a r]; [done|].
  simpl. by rewrite bool_decide_eq_false_2.
Qed.

(** C7, where the code departs from it.  On a nil interface and on a nil
    pointer [Parse] panics in [Value.Type], before the check for a
    struct is reached. *)
Theorem Parse_nil_schema_panics (prog arg : string) (args : list string) (w : World) :
  Parse None (prog :: arg :: args) w = Abort (Panic TypeOfZeroValue)
  ∧ Parse (Some (reflect.PointerTo None)) (prog :: arg :: args) w
    = Abort (Panic TypeOfZeroValue).
Proof. done. Qed.

End errors.

(** ** Errors of the flag package *)

Section flag_errors.
Context `{!strings.Casing} `{!strconv.Numerals}.






End flag_errors.


(** The claim C4 fails on an empty command and an empty argument: what
    follows the empty argument is returned. *)
Lemma CommandFlags_empty_command :
  CommandFlags "" [""; "x"] = ["x"] ∧ CommandFlags "" [""; "x"] ≠ [].
Proof. by vm_compute. Qed.

(** ** The command scope *)

Section command_scope.
Context `{!strings.Casing} `{!strconv.Numerals}.

(** A flag found after a declaration was there before, or is one of the
    two of the declared field. *)
Lemma declareFlags_origin field sf f h f' h' n fl :
  declareFlags field sf (f, h) = Ok (f', h') →
  flag.formal f' !! n = Some fl →
  flag.formal f !! n = Some fl
  ∨ ((n = longName sf ∨ n = shortName sf) ∧ flag.Name fl = n
     ∧ valueFor (reflect.Value_Kind field) (length h) = Some (flag.Value_ fl)).
Proof.
  intros Hd%declareFlags_Ok.
  destruct (valueFor _ _) as [value|] eqn:Hv.
  2: { destruct Hd as [-> ->]. by left. }
  destruct Hd as (zero & usage & usage' & -> & Hlong & Hshort & Hne & -> & _). simpl.
  rewrite !lookup_insert. repeat case_decide; [| |by left]; intros [= <-]; right; eauto.
Qed.

Lemma registerCommand_origin cmd vs f h f' h' n fl :
  forM (call (registerCommand cmd)) vs (f, h) = Ok (f', h') →
  flag.formal f' !! n = Some fl →
  flag.formal f !! n = Some fl
  ∨ ∃ field sf c p, (field, sf, c) ∈ vs ∧ c !! 0 = Some cmd
      ∧ (n = longName sf ∨ n = shortName sf) ∧ flag.Name fl = n
      ∧ valueFor (reflect.Value_Kind field) p = Some (flag.Value_ fl).
Proof.
  revert f h. induction vs as [|[[field sf] c] vs IH]; intros f h; simpl.
  - intros [= <- <-]. by left.
  - destruct (registerCommand cmd field sf c (f, h)) as [[f1 h1]|] eqn:Hcall; simpl; [|done].
    intros Hrest Hn. destruct (IH _ _ Hrest Hn) as [Hold|(field' & sf' & c' & p & Hin & ?)].
    2: { right. exists field', sf', c', p. split; [by right|done]. }
    unfold registerCommand in Hcall.
    destruct (c !! 0) as [current|] eqn:Hc; [|done].
    case_bool_decide as Hcur; [|injection Hcall as <- <-; by left].
    destruct (declareFlags_origin _ _ _ _ _ _ _ _ Hcall Hold) as [?|(? & ? & ?)]; [by left|].
    right. exists field, sf, c, (length h). subst current. split_and!; try done. left.
Qed.

(** C8.  The command scope holds flags only for fields of a nested
    struct whose lower-cased name is the command: it is what declaring
    the flags of the calls made with that command, and of those alone,
    yields ([registerGlobal] declares whatever the command is), and every
    flag in it is the long or the short flag of a settable field of such a
    struct. *)
Theorem CommandFlagSet_only_command cmd cmdFlags fields index flagAddr flagRO cmds h cfs cmds' h' :
  let v := reflect.At (reflect.StructOf fields) index flagAddr flagRO in
  CommandFlagSet cmd cmdFlags (reflect.typeOf (reflect.StructOf fields)) v cmds h
  = Ok (cfs, cmds', h') →
  forM (call registerGlobal) (filter (λ x : visit, x.2 = [cmd]) (visits true v))
    (flag.NewFlagSet cmd flag.ExitOnError, h) = Ok (cfs, h')
  ∧ ∀ n fl, flag.formal cfs !! n = Some fl →
      ∃ i j group inner sf o p,
        fields !! i = Some (group, reflect.StructOf inner)
        ∧ strings.ToLower (reflect.Name group) = cmd
        ∧ reflect.IsExported group = true
        ∧ inner !! j = Some (sf, o)
        ∧ reflect.IsExported sf = true
        ∧ (n = longName sf ∨ n = shortName sf)
        ∧ flag.Name fl = n
        ∧ valueFor (reflect.kindOf o) p = Some (flag.Value_ fl).
Proof.
  intros v. unfold CommandFlagSet. subst v. rewrite IterFields_visits.
  set (v := reflect.At _ _ _ _).
  destruct (forM _ (visits true v) _) as [[cfs1 h1]|] eqn:Hloop; simpl; [|done].
  intros [= <- <- <-]. split.
  - rewrite <-Hloop. symmetry.
    rewrite (forM_filter (λ x : visit, x.2 = [cmd])).
    + apply forM_ext. intros [[field sf] c] state Hin.
      apply list_elem_of_filter in Hin as [Hc _]. simpl in Hc. subst c.
      unfold call, registerGlobal.
      rewrite registerCommand_one. by rewrite bool_decide_eq_true_2.
    + intros [[field sf] c] state Hin Hc. simpl in Hc.
      apply visitsFrom_deep_elem in Hin
        as (k & group & inner & j & sf' & o & _ & _ & _ & _ & _ & _ & [= -> -> ->]).
      unfold call. rewrite registerCommand_one.
      rewrite bool_decide_eq_false_2; [done|]. intros Heq. apply Hc. by rewrite Heq.
  - intros n fl Hn.
    destruct (registerCommand_origin _ _ _ _ _ _ _ _ Hloop Hn)
      as [Hempty|(field & sf & c & p & Hin & Hc & Hname & Hfl & Hvalue)]; [done|].
    apply visitsFrom_deep_elem in Hin
      as (k & group & inner & j & sf' & o & Hk & Hj & _ & _ & Hg & He & [= -> -> ->]).
    exists k, j, group, inner, sf', o, p. simpl in Hc. injection Hc as Hc.
    by split_and!.
Qed.

End command_scope.

(** ** What a run binds *)

Section runs.
Context `{!strings.Casing} `{!strconv.Numerals}.

Lemma sortFlags_elem (flags : gmap string flag.Flag) fl :
  fl ∈ flag.sortFlags flags ↔ ∃ n, flags !! n = Some fl.
Proof.
  unfold flag.sortFlags. rewrite merge_sort_Permutation, list_elem_of_fmap. split.
  - intros [[n fl'] [-> Hin%elem_of_map_to_list]]. eauto.
  - intros [n Hn]. exists (n, fl). split; [done|]. by apply elem_of_map_to_list.
Qed.


(** Some flag of the field's names set, all of them on [value]: the
    binder leaves what [value] points to. *)
Lemma bound_set fs h sf o value :
  wellFormed fs →
  (∀ n fl, n = longName sf ∨ n = shortName sf →
     flag.formal fs !! n = Some fl → flag.Value_ fl = value) →
  sameKind (reflect.kindOf o) value = true →
  is_Some (flag.actual fs !! longName sf) ∨ is_Some (flag.actual fs !! shortName sf) →
  bound fs h sf o = reflect.Scalar (flag.Get value h).
Proof.
  intros [Hname Hact] Hvalue Hkind Hset. unfold bound.
  assert (∀ fl, fl ∈ flag.sortFlags (flag.actual fs) →
            flag.Name fl = longName sf ∨ flag.Name fl = shortName sf →
            flag.Value_ fl = value) as Hall.
  { intros fl [n Hn]%sortFlags_elem Hfl. apply Hact in Hn.
    rewrite (Hname _ _ Hn) in Hfl. by eapply Hvalue. }
  destruct (last _) as [fl|] eqn:Hlast.
  - apply last_Some_elem_of, list_elem_of_filter in Hlast as [Hm Hin].
    unfold matches in Hm. apply Is_true_true, andb_true_iff in Hm as [Hm _].
    rewrite (Hall fl Hin); [done|].
    apply orb_true_iff in Hm as [Hm|Hm]; apply bool_decide_eq_true in Hm; eauto.
  - apply last_None in Hlast.
    assert (∃ n fl, flag.actual fs !! n = Some fl ∧ (n = longName sf ∨ n = shortName sf))
      as (n & fl & Hn & Hnames) by (destruct Hset as [[fl ?]|[fl ?]]; eauto 6).
    assert (fl ∈ filter (λ fl, matches sf (reflect.kindOf o) fl)
                   (flag.sortFlags (flag.actual fs))) as Hin.
    { apply list_elem_of_filter. split; [|apply sortFlags_elem; eauto].
      assert (flag.Name fl = n) as Hfl by by apply Hname, Hact.
      unfold matches. apply Is_true_true, andb_true_iff. split.
      - apply orb_true_iff. destruct Hnames; [left|right]; apply bool_decide_eq_true; congruence.
      - rewrite (Hall fl); [done|apply sortFlags_elem; eauto|]. by rewrite Hfl. }
    rewrite Hlast in Hin. by apply elem_of_nil in Hin.
Qed.

Lemma apart_heads i i' rest rest' : i ≠ i' → apart (i :: rest) (i' :: rest').
Proof. intros Hne. by exists [], i, i', rest, rest'. Qed.

Lemma apart_seconds i j j' : j ≠ j' → apart [i; j] [i; j'].
Proof. intros Hne. by exists [i], j, j', [], []. Qed.

Section classified.
Variables (fields : list (reflect.StructField * reflect.object)) (addr : bool).
Let v := reflect.At (reflect.StructOf fields) [] addr false.

(** The calls of the shallow walk, seen from a field of the struct. *)
Lemma shallow_top i sf o x :
  fields !! i = Some (sf, o) → x ∈ visits false v →
  apart (visitIndex x) [i]
  ∨ ∃ flagAddr flagRO o', x.1.1 = reflect.At o' [i] flagAddr flagRO
      ∧ x.1.2 = sf ∧ reflect.kindOf o' = reflect.kindOf o.
Proof.
  intros Hi (k & sf' & o' & Hk & _ & _ & _ & _ & ->)%visitsFrom_shallow_elem.
  change (visitIndex _) with [k]. cbn [fst snd].
  destruct (decide (k = i)) as [->|Hne].
  - right. exists true, false, o'. simplify_eq. done.
  - left. by apply apart_heads.
Qed.

(** The calls of the shallow walk, seen from a field of a nested
    struct. *)
Lemma shallow_nested i j group inner x :
  fields !! i = Some (group, reflect.StructOf inner) → x ∈ visits false v →
  apart (visitIndex x) [i; j].
Proof.
  intros Hi (k & sf' & o' & Hk & Hkind & _ & _ & _ & ->)%visitsFrom_shallow_elem.
  change (apart [k] [i; j]). apply apart_heads. intros ->. by simplify_eq.
Qed.

(** The calls of the deep walk, seen from a field of the struct that
    is no struct itself. *)
Lemma deep_top i sf o x :
  fields !! i = Some (sf, o) → reflect.kindOf o ≠ reflect.Struct → x ∈ visits true v →
  apart (visitIndex x) [i].
Proof.
  intros Hi Hkind
    (k & group & inner & j & sf' & o' & Hk & _ & _ & _ & _ & _ & ->)%visitsFrom_deep_elem.
  change (apart [k; j] [i]). apply apart_heads. intros ->. by simplify_eq.
Qed.

(** The calls of the deep walk, seen from a field of a nested
    struct. *)
Lemma deep_nested i j group inner sf o x :
  fields !! i = Some (group, reflect.StructOf inner) → inner !! j = Some (sf, o) →
  x ∈ visits true v →
  apart (visitIndex x) [i; j]
  ∨ ∃ flagAddr flagRO o', x.1.1 = reflect.At o' [i; j] flagAddr flagRO
      ∧ x.1.2 = sf ∧ reflect.kindOf o' = reflect.kindOf o.
Proof.
  intros Hi Hj
    (k & group' & inner' & j' & sf' & o' & Hk & Hj' & _ & _ & _ & _ & ->)%visitsFrom_deep_elem.
  change (visitIndex _) with [k; j']. cbn [fst snd].
  destruct (decide (k = i)) as [->|Hne]; [|left; by apply apart_heads].
  simplify_eq. destruct (decide (j' = j)) as [->|Hne].
  - right. exists true, false, o'. simplify_eq. done.
  - left. by apply apart_seconds.
Qed.

Lemma not_visited vs index :
  (∀ x, x ∈ vs → apart (visitIndex x) index) →
  ¬ Exists (λ x, visitIndex x = index) vs.
Proof.
  intros Hall (x & Hx & Heq)%Exists_exists.
  destruct (Hall x Hx) as (common & i & i' & rest & rest' & Hne & H1 & H2).
  rewrite Heq, H2 in H1. apply app_inv_head in H1. congruence.
Qed.

End classified.

End runs.

Section bindings.
Context `{!strings.Casing} `{!strconv.Numerals}.

Lemma wellFormed_NewFlagSet name policy : wellFormed (flag.NewFlagSet name policy).
Proof. split; intros n fl; simpl; by rewrite lookup_empty. Qed.

(** A binding walk whose calls are all apart from a field leaves it. *)
Lemma binding_apart fs h vs root root' index sf o :
  forM (call (bind fs h)) vs root = Ok root' →
  fieldAt index root = Some (sf, o) →
  (∀ x, x ∈ vs → apart (visitIndex x) index) →
  fieldAt index root' = Some (sf, o).
Proof.
  intros Hloop Hroot Hall.
  rewrite (binding_field fs h vs root root' index sf o Hloop Hroot).
  - rewrite bool_decide_eq_false_2; [done|]. by apply not_visited.
  - intros x Hx. left. by apply Hall.
Qed.






Lemma valueFor_sameKind k p value : valueFor k p = Some value → sameKind k value = true.
Proof. destruct k; simpl; intros [= <-]; done. Qed.

Lemma valueFor_scalar k p value : valueFor k p = Some value → k ≠ reflect.Struct.
Proof. by destruct k. Qed.

Lemma valueFor_any k p q : is_Some (valueFor k p) → is_Some (valueFor k q).
Proof. destruct k; simpl; intros [? ?]; eauto; done. Qed.


(** A loop of declarations that reaches a scalar field leaves its long
    and its short flag on one variable, created for it. *)
Lemma declared_pair (body : visit → flag.FlagSet * heap → result (flag.FlagSet * heap))
    vs f h f' h' field sf c :
  (∀ x f h f' h', body x (f, h) = Ok (f', h') → declaredFrom f h f' h') →
  (∀ state, body (field, sf, c) state = declareFlags field sf state) →
  forM body vs (f, h) = Ok (f', h') →
  (field, sf, c) ∈ vs →
  is_Some (valueFor (reflect.Value_Kind field) 0) →
  ∃ p value usage usage',
    length h ≤ p < length h'
    ∧ valueFor (reflect.Value_Kind field) p = Some value
    ∧ flag.formal f' !! longName sf
      = Some {| flag.Name := longName sf; flag.Usage := usage; flag.Value_ := value |}
    ∧ flag.formal f' !! shortName sf
      = Some {| flag.Name := shortName sf; flag.Usage := usage'; flag.Value_ := value |}
    ∧ declarable (longName sf) ∧ declarable (shortName sf).
Proof.
  intros Hbody Hcall Hloop (l1 & l2 & ->)%list_elem_of_split Hscalar.
  rewrite forM_app in Hloop.
  destruct (forM body l1 (f, h)) as [[f1 h1]|] eqn:Hl1; simpl in Hloop; [|done].
  rewrite Hcall in Hloop.
  destruct (declareFlags field sf (f1, h1)) as [[f2 h2]|] eqn:Hd; simpl in Hloop; [|done].
  apply (forM_declaredFrom body) in Hl1 as (_&_&_&_&_&[m1 ->]&_&_); [|by eauto].
  apply (forM_declaredFrom body) in Hloop as (_&_&_&_&_&[m2 ->]&Hkeep&_); [|by eauto].
  apply declareFlags_Ok in Hd.
  destruct (valueFor_any _ 0 (length (h ++ m1)) Hscalar) as [value Hvalue].
  rewrite Hvalue in Hd.
  destruct Hd as (zero & usage & usage' & -> & Hlong & Hshort & Hne & -> & Hdl & Hds).
  exists (length (h ++ m1)), value, usage, usage'. split_and!; [| |done| | |done|done].
  - rewrite length_app. lia.
  - rewrite !length_app. simpl. lia.
  - apply Hkeep. simpl. rewrite lookup_insert_ne by done. apply lookup_insert_eq.
  - apply Hkeep. simpl. apply lookup_insert_eq.
Qed.



End bindings.

(** ** The properties on the example of the documentation *)

Lemma CommandFlags_after_first_witness :
  ("foo" ∉ ["-d"]) ∧ CommandFlags "foo" (["-d"] ++ "foo" :: ["-a"; "x"]) = ["-a"; "x"].
Proof.
  split.
  - by intros [=]%list_elem_of_singleton.
  - apply (proj1 CommandFlags_after_first). by intros [=]%list_elem_of_singleton.
Defined.

Lemma CommandFlagSet_only_command_witness :
  ∃ cfs cmds' h',
    let v := reflect.At (reflect.StructOf example.Schema) [] true false in
    @CommandFlagSet example.casing "foo" ["-a"; "x"]
      (reflect.typeOf (reflect.StructOf example.Schema)) v ∅ [] = Ok (cfs, cmds', h')
    ∧ dom (flag.formal cfs) = {[ "aaa"; "a"; "bbb"; "b" ]}
    ∧ @forM visit _ (call (@registerGlobal example.casing))
        (filter (λ x : visit, x.2 = ["foo"]) (@visits example.casing true v))
        (flag.NewFlagSet "foo" flag.ExitOnError, []) = Ok (cfs, h').
Proof.
  destruct (@CommandFlagSet example.casing "foo" ["-a"; "x"]
              (reflect.typeOf (reflect.StructOf example.Schema))
              (reflect.At (reflect.StructOf example.Schema) [] true false) ∅ [])
    as [[[cfs cmds'] h']|] eqn:Hrun; [|by vm_compute in Hrun].
  exists cfs, cmds', h'. split; [done|].
  destruct (CommandFlagSet_only_command _ _ _ _ _ _ _ _ _ _ _ Hrun) as [Hexact _].
  split; [|exact Hexact].
  vm_compute in Hrun. injection Hrun as <- _ _. by vm_compute.
Defined.

Lemma IterFields_deep_one_command_witness :
  let v := reflect.At (reflect.StructOf example.Schema) [] true false in
  let st := reflect.typeOf (reflect.StructOf example.Schema) in
  let register := @registerCommand example.casing "foo" in
  let guarded : callback (flag.FlagSet * heap) :=
    λ field sf cmd state,
      match cmd with
      | [c] => register field sf [c] state
      | _ => Abort (Panic IndexOutOfRange)
      end in
  (∀ inner sf c s, nestedField v inner → register inner sf [c] s = guarded inner sf [c] s)
  ∧ @IterFields example.casing _ true st v register (∅, (flag.NewFlagSet "foo" flag.ExitOnError, []))
    = @IterFields example.casing _ true st v guarded (∅, (flag.NewFlagSet "foo" flag.ExitOnError, [])).
Proof.
  intros v st register guarded. split; [done|].
  apply (proj1 (@IterFields_deep_one_command example.casing st v)). done.
Defined.





(** The run of the documentation: every flag reaches its field. *)
Example Parse_documented_run :
  example.scalarsAfter
    (example.Parse (example.addressOf example.Schema)
       ["your_app"; "-debug"; "-n"; "123"; "-m"; "something here";
        "foo"; "-a"; "beepboop"; "-b"; "666"] example.start)
  = Some [("Debug", VBool true); ("Number", VInt 123); ("Message", VString "something here");
          ("Foo.AAA", VString "beepboop"); ("Foo.BBB", VString "666");
          ("Bar.CCC", VBool false)].
Proof. by vm_compute. Qed.

(** The same run spelled with the other name of every flag. *)
Example Parse_other_spellings :
  example.scalarsAfter
    (example.Parse (example.addressOf example.Schema)
       ["your_app"; "-d"; "-number"; "123"; "-message"; "something here";
        "foo"; "-aaa"; "beepboop"; "-bbb"; "666"] example.start)
  = example.scalarsAfter
      (example.Parse (example.addressOf example.Schema)
         ["your_app"; "-debug"; "-n"; "123"; "-m"; "something here";
          "foo"; "-a"; "beepboop"; "-b"; "666"] example.start).
Proof. by vm_compute. Qed.

(** * Further properties *)

(** ** The identifier and the partitioner together *)

(** X1.  When [IdentifyCommand] returns a command, that command is a
    token of the arguments that does not begin with "-" and is
    registered, no argument before it is such a token, and [CommandFlags]
    on the same arguments returns exactly what follows it: the two cut the
    arguments at the same place. *)
Theorem IdentifyCommand_cuts_at_command (cmds : gmap string bool) (args : list string) cmd :
  IdentifyCommand cmds args = Ok cmd → cmd ≠ "" →
  commandToken cmds cmd
  ∧ ∃ before,
      args = before ++ cmd :: CommandFlags cmd args
      ∧ Forall (λ a, ¬ commandToken cmds a) before.
Proof.
  rewrite IdentifyCommand_find.
  destruct (list_find (commandToken cmds) args) as [[i token]|] eqn:Hfind;
    [|intros [= <-]; done].
  intros [= ->] _.
  apply list_find_Some in Hfind as (Hi & Htoken & Hbefore).
  split; [done|]. exists (take i args).
  assert (list_find (λ v, v = cmd) args = Some (i, cmd)) as Hcut.
  { apply list_find_Some. split_and!; [done..|].
    intros j y Hj Hlt ->. by eapply Hbefore. }
  rewrite CommandFlags_find, Hcut. split.
  - rewrite <-(take_drop_middle args i cmd Hi) at 1. done.
  - apply Forall_forall. intros a (j & Hj)%list_elem_of_lookup_1.
    apply lookup_take_Some in Hj as [Hj Hlt]. by eapply Hbefore.
Qed.

(** X2.  The command found depends on the keys of the registry alone:
    the inner loop gives the same answer in whatever order the map yields
    its keys, and two registries with the same keys, whatever booleans
    they hold, identify the same command. *)
Theorem IdentifyCommand_keys_only :
  (∀ arg keys keys' seen,
     (∀ k, k ∈ keys ↔ k ∈ keys') →
     rangeMatch arg keys seen = rangeMatch arg keys' seen)
  ∧ (∀ (cmds cmds' : gmap string bool) args,
       dom cmds = dom cmds' → IdentifyCommand cmds args = IdentifyCommand cmds' args).
Proof.
  split.
  - assert (∀ arg keys seen, rangeMatch arg keys seen = bool_decide (arg ∈ keys) || seen) as Hm.
    { intros arg keys seen. induction keys as [|k keys IH]; [done|].
      cbn [rangeMatch]. destruct (decide (arg = k)) as [->|Hk].
      - rewrite !bool_decide_eq_true_2; [done|apply elem_of_cons; by left|done].
      - rewrite (bool_decide_eq_false_2 (arg = k)) by done. rewrite IH. f_equal.
        apply bool_decide_ext. rewrite elem_of_cons. tauto. }
    intros arg keys keys' seen Hkeys. rewrite !Hm. f_equal. by apply bool_decide_ext.
  - intros cmds cmds' args Hdom. rewrite !IdentifyCommand_find.
    assert (∀ a, commandToken cmds a ↔ commandToken cmds' a) as Hsame.
    { intros a. unfold commandToken. rewrite <-!elem_of_dom, Hdom. done. }
    assert (list_find (commandToken cmds) args = list_find (commandToken cmds') args) as ->;
      [|done].
    clear Hdom. induction args as [|a args IH]; [done|].
    cbn [list_find]. rewrite IH.
    destruct (decide (commandToken cmds a)) as [Hy|Hn].
    + by rewrite (decide_True (P := commandToken cmds' a)) by by apply Hsame.
    + by rewrite (decide_False (P := commandToken cmds' a)) by by rewrite <-Hsame.
Qed.

(** X3.  What [CommandFlags] returns is a suffix of the arguments: it
    never reorders or invents one; it is strictly shorter than the
    arguments when the command occurs among them, and it is empty unless
    the command occurs. *)
Theorem CommandFlags_suffix (cmd : string) (args : list string) :
  (∃ before, args = before ++ CommandFlags cmd args)
  ∧ (cmd ∈ args → length (CommandFlags cmd args) < length args)
  ∧ (CommandFlags cmd args ≠ [] → cmd ∈ args).
Proof.
  rewrite CommandFlags_find.
  destruct (list_find (λ v, v = cmd) args) as [[i x]|] eqn:Hfind.
  - apply list_find_Some in Hfind as (Hi & -> & _). split_and!.
    + exists (take (S i) args). by rewrite take_drop.
    + intros _. rewrite length_drop. apply lookup_lt_Some in Hi. lia.
    + intros _. by eapply list_elem_of_lookup_2.
  - split_and!; [exists args; by rewrite app_nil_r| |done].
    intros Hin. apply list_find_None in Hfind. rewrite Forall_forall in Hfind.
    by destruct (Hfind cmd Hin).
Qed.

(** ** More on the walker *)

Lemma forM_total {A S} (body : A → S → result S) l s :
  (∀ x s, ∃ s', body x s = Ok s') → ∃ s', forM body l s = Ok s'.
Proof.
  intros Hbody. revert s. induction l as [|x l IH]; intros s; simpl; [by eexists|].
  destruct (Hbody x s) as [s' ->]. simpl. apply IH.
Qed.

Section walks.
Context `{!strings.Casing}.

Lemma commandNames_cons sf o fields :
  commandNames ((sf, o) :: fields)
  = match o with
    | reflect.StructOf _ => [strings.ToLower (reflect.Name sf)]
    | _ => []
    end ++ commandNames fields.
Proof. by destruct o. Qed.

Lemma registry_lookup cmds fields c :
  registry cmds fields !! c
  = match cmds !! c with
    | Some b => Some b
    | None => if bool_decide (c ∈ commandNames fields) then Some true else None
    end.
Proof.
  unfold registry. revert cmds. induction fields as [|[sf o] fields IH]; intros cmds.
  - simpl. by destruct (cmds !! c).
  - cbn [foldl]. rewrite IH, commandNames_cons. unfold noted. cbn [fst snd].
    destruct o as [x|inner|t|]; cbn [app]; try done.
    set (cmd := strings.ToLower (reflect.Name sf)).
    destruct (cmds !! cmd) as [b|] eqn:Hc.
    + destruct (cmds !! c) as [b'|] eqn:Hc'; [done|].
      rewrite (bool_decide_ext (c ∈ commandNames fields) (c ∈ cmd :: commandNames fields));
        [done|].
      rewrite elem_of_cons. split; [tauto|]. intros [->|?]; [congruence|done].
    + rewrite lookup_insert. destruct (decide (cmd = c)) as [Heq|Hne].
      * rewrite <-Heq, Hc.
        rewrite bool_decide_eq_true_2; [done|]. apply elem_of_cons. by left.
      * destruct (cmds !! c); [done|].
        rewrite (bool_decide_ext (c ∈ commandNames fields) (c ∈ cmd :: commandNames fields));
          [done|].
        rewrite elem_of_cons. split; [tauto|]. intros [->|?]; done.
Qed.

Lemma commandNames_elem c fields :
  c ∈ commandNames fields ↔
  ∃ i sf inner, fields !! i = Some (sf, reflect.StructOf inner)
    ∧ strings.ToLower (reflect.Name sf) = c.
Proof.
  unfold commandNames. rewrite list_elem_of_omap. split.
  - intros ([sf o] & (i & Hi)%list_elem_of_lookup_1 & Hc). simpl in Hc.
    destruct o as [x|inner|t|]; try done. injection Hc as <-. eauto.
  - intros (i & sf & inner & Hi & <-). exists (sf, reflect.StructOf inner).
    split; [by eapply list_elem_of_lookup_2|done].
Qed.

Lemma registry_idem cmds fields :
  registry (registry cmds fields) fields = registry cmds fields.
Proof.
  apply map_eq. intros c. rewrite !registry_lookup.
  destruct (cmds !! c); [done|]. by case_bool_decide.
Qed.

(** X4.  [IterFields] panics in [NumField] on anything that is not a
    struct, whatever the mode and the callback; on a struct, with the
    struct's own type, it never panics by itself: when the callback
    always returns, so does the walk, and the registry it leaves does not
    depend on the callback. *)
Theorem IterFields_struct_or_panic :
  (∀ S recurse st v (cb : callback S) state,
     reflect.Value_Kind v ≠ reflect.Struct →
     IterFields recurse st v cb state = Abort (Panic NumFieldOfNonStruct))
  ∧ (∀ S recurse fields index flagAddr flagRO (cb : callback S) cmds s,
       (∀ field sf cmd s, ∃ s', cb field sf cmd s = Ok s') →
       ∃ s', IterFields recurse (reflect.typeOf (reflect.StructOf fields))
               (reflect.At (reflect.StructOf fields) index flagAddr flagRO) cb (cmds, s)
             = Ok (registry cmds fields, s')).
Proof.
  split.
  - intros S recurse st v cb state Hkind. unfold IterFields.
    by destruct v as [|[x|fields|t|] index a r].
  - intros S recurse fields index a r cb cmds s Hcb. rewrite IterFields_visits.
    destruct (forM_total (call cb) (visits recurse (reflect.At (reflect.StructOf fields) index a r)) s)
      as [s' Hs'].
    { intros [[field sf] c] t. apply Hcb. }
    exists s'. by rewrite Hs'.
Qed.

(** X5.  A walk that returns leaves the registry with every entry it
    had, unchanged, and with one new entry, holding true, for the
    lower-cased name of every field of kind struct, exported or not, in
    shallow and in deep mode alike; nothing else is added. *)
Theorem IterFields_registers_structs {S} (cb : callback S) recurse fields index flagAddr flagRO
    cmds s cmds' s' :
  IterFields recurse (reflect.typeOf (reflect.StructOf fields))
    (reflect.At (reflect.StructOf fields) index flagAddr flagRO) cb (cmds, s) = Ok (cmds', s') →
  ∀ c, cmds' !! c
       = match cmds !! c with
         | Some b => Some b
         | None => if bool_decide (c ∈ commandNames fields) then Some true else None
         end.
Proof.
  rewrite IterFields_visits.
  destruct (forM _ _ s) as [s1|]; simpl; [|done].
  intros [= <- <-] c. apply registry_lookup.
Qed.

Lemma nestedVisits_unaddressable cmd index flagRO j inner :
  nestedVisits cmd index false flagRO j inner = [].
Proof.
  revert j. induction inner as [|[sf o] inner IH]; intros j; [done|].
  cbn [nestedVisits reflect.CanSet andb app]. apply IH.
Qed.

Lemma visitsFrom_unaddressable recurse index flagRO i fields :
  visitsFrom recurse index false flagRO i fields = [].
Proof.
  revert i. induction fields as [|[sf o] fields IH]; intros i; [done|].
  cbn [visitsFrom]. rewrite IH, app_nil_r.
  destruct o; cbn [reflect.CanSet andb]; rewrite ?andb_false_r; try done.
  rewrite nestedVisits_unaddressable. by destruct (_ && _).
Qed.

(** X6.  On a struct that is not addressable (one passed by value,
    not through a pointer) no field is settable, so [IterFields] never
    calls the callback, in either mode: the state of the callback comes
    back as it was, and only the registry is updated. *)
Theorem IterFields_unaddressable {S} (cb : callback S) recurse fields index flagRO cmds s :
  IterFields recurse (reflect.typeOf (reflect.StructOf fields))
    (reflect.At (reflect.StructOf fields) index false flagRO) cb (cmds, s)
  = Ok (registry cmds fields, s).
Proof.
  rewrite IterFields_visits. cbn [visits]. by rewrite visitsFrom_unaddressable.
Qed.

Lemma forM_record vs log : forM (call record) vs log = Ok (log ++ vs).
Proof.
  revert log. induction vs as [|[[field sf] c] vs IH]; intros log; simpl.
  - by rewrite app_nil_r.
  - rewrite IH. by rewrite <-app_assoc.
Qed.

Lemma nestedVisits_NoDup cmd index flagAddr flagRO j inner :
  NoDup (visitIndex <$> nestedVisits cmd index flagAddr flagRO j inner).
Proof.
  revert j. induction inner as [|[sf o] inner IH]; intros j; [apply NoDup_nil_2|].
  cbn [nestedVisits]. rewrite fmap_app. apply NoDup_app. split_and!; [| |apply IH].
  - destruct (reflect.CanSet _); [apply NoDup_singleton|apply NoDup_nil_2].
  - intros idx Hhead
      ([[f1 sf1] c1] & -> & (k & sf' & o' & _ & _ & _ & _ & [= -> -> ->])%nestedVisits_elem)%list_elem_of_fmap.
    destruct (reflect.CanSet _); [|by apply elem_of_nil in Hhead].
    apply list_elem_of_singleton in Hhead. cbn in Hhead.
    apply app_inv_head in Hhead. injection Hhead as Hhead. lia.
Qed.

Lemma visitsFrom_NoDup recurse index flagAddr flagRO i fields :
  NoDup (visitIndex <$> visitsFrom recurse index flagAddr flagRO i fields).
Proof.
  revert i. induction fields as [|[sf o] fields IH]; intros i; [apply NoDup_nil_2|].
  cbn [visitsFrom]. rewrite fmap_app. apply NoDup_app. split_and!; [| |apply IH].
  - destruct o as [x|inner|t|].
    2: { destruct (_ && _); [apply nestedVisits_NoDup|apply NoDup_nil_2]. }
    all: destruct (_ && _); [apply NoDup_singleton|apply NoDup_nil_2].
  - intros idx Hhead ([[f1 sf1] c1] & -> & Htail)%list_elem_of_fmap.
    assert (∃ k rest, visitIndex (f1, sf1, c1) = (index ++ [S i + k]) ++ rest) as (k & rest & Hk).
    { destruct recurse.
      - apply visitsFrom_deep_elem in Htail
          as (k & group & inner & j & sf' & o' & _ & _ & _ & _ & _ & _ & [= -> -> ->]).
        by exists k, [j].
      - apply visitsFrom_shallow_elem in Htail
          as (k & sf' & o' & _ & _ & _ & _ & _ & [= -> -> ->]).
        exists k, []. by rewrite app_nil_r. }
    rewrite Hk in Hhead.
    assert (∃ rest', (index ++ [S i + k]) ++ rest = (index ++ [i]) ++ rest') as [rest' Heq].
    { destruct o as [x|inner|t|].
      2: { destruct (_ && _); [|by apply elem_of_nil in Hhead].
           apply list_elem_of_fmap in Hhead
             as ([[f2 sf2] c2] & ->
                 & (j & sf' & o' & _ & _ & _ & _ & [= -> -> ->])%nestedVisits_elem).
           by exists [0 + j]. }
      all: destruct (_ && _); [|by apply elem_of_nil in Hhead].
      all: apply list_elem_of_singleton in Hhead; exists []; by rewrite app_nil_r. }
    rewrite <-!app_assoc in Heq. apply app_inv_head in Heq. injection Heq as Heq. lia.
Qed.

(** X7.  The calls of a walk over an addressable struct, as a callback
    that records them receives them: in shallow mode one call, without a
    command, for every exported field that is no struct; in deep mode one
    call for every exported field of every exported nested struct, with
    the lower-cased name of the nested struct's field as the only
    command (a struct nested deeper is passed as a field and not
    entered); no field is called on twice. *)
Theorem IterFields_calls recurse fields cmds :
  ∃ log,
    IterFields recurse (reflect.typeOf (reflect.StructOf fields))
      (reflect.At (reflect.StructOf fields) [] true false) record (cmds, [])
    = Ok (registry cmds fields, log)
    ∧ NoDup (visitIndex <$> log)
    ∧ ∀ x, x ∈ log ↔
        if recurse then
          ∃ i j group inner sf o,
            fields !! i = Some (group, reflect.StructOf inner) ∧ inner !! j = Some (sf, o)
            ∧ reflect.IsExported group = true ∧ reflect.IsExported sf = true
            ∧ x = (reflect.At o [i; j] true false, sf, [strings.ToLower (reflect.Name group)])
        else
          ∃ i sf o,
            fields !! i = Some (sf, o) ∧ reflect.kindOf o ≠ reflect.Struct
            ∧ reflect.IsExported sf = true
            ∧ x = (reflect.At o [i] true false, sf, []).
Proof.
  eexists. rewrite IterFields_visits, forM_record. split; [done|]. split.
  - apply visitsFrom_NoDup.
  - intros x. destruct recurse; cbn [app visits].
    + rewrite visitsFrom_deep_elem. split.
      * intros (k & group & inner & j & sf & o & ? & ? & _ & _ & ? & ? & ->).
        by exists k, j, group, inner, sf, o.
      * intros (i & j & group & inner & sf & o & ? & ? & ? & ? & ->).
        by exists i, group, inner, j, sf, o.
    + rewrite visitsFrom_shallow_elem. split.
      * intros (k & sf & o & ? & ? & _ & _ & ? & ->). by exists k, sf, o.
      * intros (i & sf & o & ? & ? & ? & ->). by exists i, sf, o.
Qed.

End walks.

(** ** The run of [Parse], stage by stage *)

Section run.
Context `{!strings.Casing} `{!strconv.Numerals}.

(** [Parse] on a struct, or a pointer to one, with arguments: the walks
    written as loops over their calls. *)
Lemma parseBody_struct s prog arg args w fields addr :
  schema s = Some (fields, addr) →
  parseBody s (prog :: arg :: args) w
  = let v := reflect.At (reflect.StructOf fields) [] addr false in
    let cmds' := registry (cmds w) fields in
    '(global, h1) ← forM (call registerGlobal) (visits false v) (CommandLine w, vars w);
    '(_, line, h2) ← flag.Parse global (arg :: args) h1;
    root1 ← forM (call (bind line h2)) (visits false v) (reflect.StructOf fields);
    cmd ← IdentifyCommand cmds' (arg :: args);
    '(cfs0, h3) ← forM (call (registerCommand cmd)) (visits true v)
                    (flag.NewFlagSet cmd flag.ExitOnError, h2);
    '(err, cfs, h4) ← flag.Parse cfs0 (CommandFlags cmd (flag.args line)) h3;
    match err with
    | Some e =>
        Ok (Some e, written s root1,
            {| cmds := cmds'; CommandLine := line; vars := h4 |}, Some cfs)
    | None =>
        root2 ← forM (call (bind cfs h4)) (visits true v) root1;
        Ok (None, written s root2,
            {| cmds := cmds'; CommandLine := line; vars := h4 |}, Some cfs)
    end.
Proof.
  intros Hschema. pose proof (schema_view s) as Hview. rewrite Hschema in Hview.
  unfold parseBody. cbn [length Nat.eqb]. rewrite Hview.
  cbn [reflect.Value_Type mbind result_bind reflect.Value_Kind reflect.kindOf].
  rewrite bool_decide_eq_true_2 by done. cbn [negb viewed].
  rewrite IterFields_visits.
  destruct (forM (call registerGlobal) _ _) as [[global h1]|]; [|done].
  cbn [mbind result_bind].
  destruct (flag.Parse global _ h1) as [[[e1 line] h2]|]; [|done].
  cbn [mbind result_bind].
  rewrite IterFields_visits.
  destruct (forM (call (bind line h2)) _ _) as [root1|]; [|done].
  cbn [mbind result_bind]. rewrite registry_idem.
  destruct (IdentifyCommand _ _) as [cmd|]; [|done].
  cbn [mbind result_bind]. unfold CommandFlagSet.
  rewrite IterFields_visits.
  destruct (forM (call (registerCommand cmd)) _ _) as [[cfs0 h3]|]; [|done].
  cbn [mbind result_bind]. rewrite registry_idem.
  destruct (flag.Parse cfs0 _ h3) as [[[[e|] cfs] h4]|]; [done| |done].
  cbn [mbind result_bind].
  rewrite IterFields_visits.
  destruct (forM (call (bind cfs h4)) _ _) as [root2|]; [|done].
  cbn [mbind result_bind]. by rewrite registry_idem.
Qed.

(** The stages of a run that returns, with the registry the command is
    looked up in. *)
Lemma parseBody_run s prog arg args w err s' w' scope fields addr :
  schema s = Some (fields, addr) →
  parseBody s (prog :: arg :: args) w = Ok (err, s', w', scope) →
  ∃ global h1 e1 line h2 root1 cmd cfs0 h3 cfs h4 root2,
    let v := reflect.At (reflect.StructOf fields) [] addr false in
    forM (call registerGlobal) (visits false v) (CommandLine w, vars w) = Ok (global, h1)
    ∧ flag.Parse global (arg :: args) h1 = Ok (e1, line, h2)
    ∧ forM (call (bind line h2)) (visits false v) (reflect.StructOf fields) = Ok root1
    ∧ IdentifyCommand (registry (cmds w) fields) (arg :: args) = Ok cmd
    ∧ forM (call (registerCommand cmd)) (visits true v)
        (flag.NewFlagSet cmd flag.ExitOnError, h2) = Ok (cfs0, h3)
    ∧ flag.Parse cfs0 (CommandFlags cmd (flag.args line)) h3 = Ok (None, cfs, h4)
    ∧ forM (call (bind cfs h4)) (visits true v) root1 = Ok root2
    ∧ err = None ∧ s' = written s root2 ∧ scope = Some cfs
    ∧ w' = {| cmds := registry (cmds w) fields; CommandLine := line; vars := h4 |}.
Proof.
  intros Hschema. rewrite (parseBody_struct _ _ _ _ _ _ _ Hschema). cbn zeta.
  destruct (forM (call registerGlobal) _ _) as [[global h1]|] eqn:Hreg; [|done].
  cbn [mbind result_bind].
  destruct (flag.Parse global _ h1) as [[[e1 line] h2]|] eqn:Hparse; [|done].
  cbn [mbind result_bind].
  destruct (forM (call (bind line h2)) _ _) as [root1|] eqn:Hbind; [|done].
  cbn [mbind result_bind].
  destruct (IdentifyCommand _ _) as [cmd|] eqn:Hcmd; [|done].
  cbn [mbind result_bind].
  destruct (forM (call (registerCommand cmd)) _ _) as [[cfs0 h3]|] eqn:Hdecl; [|done].
  cbn [mbind result_bind].
  destruct (flag.Parse cfs0 _ h3) as [[[[e|] cfs] h4]|] eqn:Hparse2; [|cbn [mbind result_bind]|done].
  { apply Parse_error in Hparse2.
    apply forM_registerCommand_scope in Hdecl as (_ & Heh & _).
    rewrite Hparse2 in Heh. done. }
  destruct (forM (call (bind cfs h4)) _ _) as [root2|] eqn:Hbind2; [|done].
  cbn [mbind result_bind]. intros [= <- <- <- <-].
  by eexists global, h1, e1, line, h2, root1, cmd, cfs0, h3, cfs, h4, root2.
Qed.


Lemma forM_registerGlobal_abort vs state a :
  forM (call registerGlobal) vs state = Abort a → declarationPanic a.
Proof.
  intros ([[field sf] c] & t & _ & Hx)%forM_abort. by eapply declareFlags_abort.
Qed.




(** X19.  The command of a run is looked up in the package-level
    registry as the walks of this run have left it: the entries of
    earlier calls together with the names of this schema's struct
    fields.  The command scope is named after the leftmost argument, flag
    values included, that does not begin with "-" and is a key of that
    registry, and after the empty string when there is none. *)
Theorem Parse_command_of_registry s prog args w err s' w' cfs fields addr :
  parseBody s (prog :: args) w = Ok (err, s', w', Some cfs) →
  schema s = Some (fields, addr) →
  cmds w' = registry (cmds w) fields
  ∧ flag.name cfs
    = match list_find (commandToken (cmds w')) args with
      | Some (_, token) => token
      | None => ""
      end.
Proof.
  intros Hbody Hschema. destruct args as [|arg args]; [done|].
  rewrite (parseBody_struct _ _ _ _ _ _ _ Hschema) in Hbody. cbn zeta in Hbody.
  destruct (forM (call registerGlobal) _ _) as [[global h1]|]; [|done].
  cbn [mbind result_bind] in Hbody.
  destruct (flag.Parse global _ h1) as [[[e1 line] h2]|]; [|done].
  cbn [mbind result_bind] in Hbody.
  destruct (forM (call (bind line h2)) _ _) as [root1|]; [|done].
  cbn [mbind result_bind] in Hbody. rewrite IdentifyCommand_find in Hbody.
  cbn [mbind result_bind] in Hbody.
  set (cmd := match list_find _ _ with Some (_, token) => token | None => "" end) in *.
  destruct (forM (call (registerCommand cmd)) _ _) as [[cfs0 h3]|] eqn:Hdecl; [|done].
  cbn [mbind result_bind] in Hbody.
  destruct (flag.Parse cfs0 _ h3) as [[[e2 cfs1] h4]|] eqn:Hparse2; [|done].
  cbn [mbind result_bind] in Hbody.
  assert (flag.name cfs1 = cmd) as Hname.
  { apply Parse_parsedFrom in Hparse2 as ((-> & _) & _).
    by apply forM_registerCommand_scope in Hdecl as (-> & _). }
  destruct e2 as [e|].
  - injection Hbody as <- <- <- <-. done.
  - destruct (forM (call (bind cfs1 h4)) _ _) as [root2|]; [|done].
    injection Hbody as <- <- <- <-. done.
Qed.

(** X11.  A schema passed by value is never populated and declares
    nothing: a run that returns gives the argument back as it was, leaves
    the declared flags of [flag.CommandLine] and the number of variables
    as they were, and its command scope has no flag at all. *)
Theorem Parse_by_value s os_Args w err s' w' scope fields :
  parseBody s os_Args w = Ok (err, s', w', scope) →
  schema s = Some (fields, false) →
  s' = s
  ∧ flag.formal (CommandLine w') = flag.formal (CommandLine w)
  ∧ length (vars w') = length (vars w)
  ∧ ∀ cfs, scope = Some cfs → err = None ∧ flag.formal cfs = ∅.
Proof.
  intros Hbody Hschema. destruct scope as [cfs|].
  2: { by apply parseBody_early in Hbody as (_ & -> & ->). }
  destruct os_Args as [|prog [|arg args]]; [done..|].
  rewrite (parseBody_struct _ _ _ _ _ _ _ Hschema) in Hbody. cbn zeta in Hbody.
  cbn [visits] in Hbody. rewrite !visitsFrom_unaddressable in Hbody.
  cbn [forM mbind result_bind mret result_ret] in Hbody.
  destruct (flag.Parse (CommandLine w) _ _) as [[[e1 line] h2]|] eqn:Hparse; [|done].
  cbn [mbind result_bind] in Hbody.
  destruct (IdentifyCommand _ _) as [cmd|]; [|done].
  cbn [mbind result_bind] in Hbody.
  destruct (flag.Parse (flag.NewFlagSet cmd flag.ExitOnError) _ h2)
    as [[[e2 cfs1] h4]|] eqn:Hparse2; [|done].
  cbn [mbind result_bind] in Hbody.
  apply Parse_parsedFrom in Hparse as ((_ & Hformal & _) & Hlen & _).
  destruct e2 as [e|].
  - by apply Parse_error in Hparse2.
  - apply Parse_parsedFrom in Hparse2 as ((_ & Hformal2 & _) & Hlen2 & _).
    injection Hbody as <- <- <- <-. split_and!; [|done|simpl; congruence|].
    { destruct s as [[x|fs|[t|]|]|]; try done. by destruct t. }
    intros cfs [= <-]. done.
Qed.

End run.

(** ** Flag names that clash *)

Section clashes.
Context `{!strings.Casing} `{!strconv.Numerals}.

(** A loop of declarations that comes to a scalar field one of whose
    flag names is taken, or whose two names are one, panics, there or
    before. *)
Lemma forM_declare_taken (body : visit → flag.FlagSet * heap → result (flag.FlagSet * heap))
    vs f h field sf c :
  (∀ x f h f' h', body x (f, h) = Ok (f', h') → declaredFrom f h f' h') →
  (∀ x state a, body x state = Abort a → declarationPanic a) →
  (∀ state, body (field, sf, c) state = declareFlags field sf state) →
  (field, sf, c) ∈ vs →
  is_Some (valueFor (reflect.Value_Kind field) 0) →
  is_Some (flag.formal f !! longName sf) ∨ is_Some (flag.formal f !! shortName sf)
  ∨ longName sf = shortName sf →
  ∃ a, forM body vs (f, h) = Abort a ∧ declarationPanic a.
Proof.
  intros Hbody Habort Hcall Hin Hscalar. revert f h.
  induction vs as [|y vs IH]; intros f h Htaken; [by apply elem_of_nil in Hin|].
  cbn [forM]. destruct (body y (f, h)) as [[f1 h1]|a] eqn:Hy; cbn [mbind result_bind].
  2: { exists a. split; [done|]. by eapply Habort. }
  apply elem_of_cons in Hin as [<-|Hin].
  - rewrite Hcall in Hy. apply declareFlags_Ok in Hy.
    destruct (valueFor_any _ 0 (length h) Hscalar) as [value Hvalue].
    rewrite Hvalue in Hy.
    destruct Hy as (zero & usage & usage' & _ & Hlong & Hshort & Hne & _).
    rewrite Hlong, Hshort in Htaken.
    destruct Htaken as [[? [=]]|[[? [=]]|?]]. done.
  - apply IH; [done|].
    apply Hbody in Hy as (_&_&_&_&_&_&Hkeep&_).
    destruct Htaken as [[fl Hfl]|[[fl Hfl]|?]]; eauto.
Qed.

(** The same for two scalar fields that share a flag name. *)
Lemma forM_declare_shared (body : visit → flag.FlagSet * heap → result (flag.FlagSet * heap))
    l1 l2 f h field sf c field' sf' c' n :
  (∀ x f h f' h', body x (f, h) = Ok (f', h') → declaredFrom f h f' h') →
  (∀ x state a, body x state = Abort a → declarationPanic a) →
  (∀ state, body (field, sf, c) state = declareFlags field sf state) →
  (∀ state, body (field', sf', c') state = declareFlags field' sf' state) →
  (field', sf', c') ∈ l2 →
  is_Some (valueFor (reflect.Value_Kind field) 0) →
  is_Some (valueFor (reflect.Value_Kind field') 0) →
  n = longName sf ∨ n = shortName sf →
  n = longName sf' ∨ n = shortName sf' →
  ∃ a, forM body (l1 ++ (field, sf, c) :: l2) (f, h) = Abort a ∧ declarationPanic a.
Proof.
  intros Hbody Habort Hcall Hcall' Hin Hscalar Hscalar' Hn Hn'.
  rewrite forM_app.
  destruct (forM body l1 (f, h)) as [[f1 h1]|a] eqn:Hl1; cbn [mbind result_bind].
  2: { exists a. split; [done|].
       apply forM_abort in Hl1 as (x & t & _ & Hx). by eapply Habort. }
  cbn [forM]. rewrite Hcall.
  destruct (declareFlags field sf (f1, h1)) as [[f2 h2]|a] eqn:Hd; cbn [mbind result_bind].
  2: { exists a. split; [done|]. by eapply declareFlags_abort. }
  eapply forM_declare_taken; [done..|].
  apply declareFlags_Ok in Hd.
  destruct (valueFor_any _ 0 (length h1) Hscalar) as [value Hvalue].
  rewrite Hvalue in Hd.
  destruct Hd as (zero & usage & usage' & _ & _ & _ & Hne & -> & _).
  cbn [flag.formal flag.withFormal].
  assert (is_Some ((<[shortName sf := {| flag.Name := shortName sf; flag.Usage := usage';
                                        flag.Value_ := value |}]>
                     (<[longName sf := {| flag.Name := longName sf; flag.Usage := usage;
                                          flag.Value_ := value |}]> (flag.formal f1))) !! n))
    as Hthere.
  { destruct Hn as [-> | ->].
    - rewrite lookup_insert_ne by done. rewrite lookup_insert_eq. by eexists.
    - rewrite lookup_insert_eq. by eexists. }
  destruct Hn' as [<- | <-]; eauto.
Qed.

Lemma forM_declare_clash (body : visit → flag.FlagSet * heap → result (flag.FlagSet * heap))
    vs f h field sf c field' sf' c' n :
  (∀ x f h f' h', body x (f, h) = Ok (f', h') → declaredFrom f h f' h') →
  (∀ x state a, body x state = Abort a → declarationPanic a) →
  (∀ state, body (field, sf, c) state = declareFlags field sf state) →
  (∀ state, body (field', sf', c') state = declareFlags field' sf' state) →
  (field, sf, c) ∈ vs → (field', sf', c') ∈ vs → (field, sf, c) ≠ (field', sf', c') →
  is_Some (valueFor (reflect.Value_Kind field) 0) →
  is_Some (valueFor (reflect.Value_Kind field') 0) →
  n = longName sf ∨ n = shortName sf →
  n = longName sf' ∨ n = shortName sf' →
  ∃ a, forM body vs (f, h) = Abort a ∧ declarationPanic a.
Proof.
  intros Hbody Habort Hcall Hcall' (l1 & l2 & ->)%list_elem_of_split Hin' Hne
    Hscalar Hscalar' Hn Hn'.
  apply elem_of_app in Hin' as [Hin'|Hin'].
  - apply list_elem_of_split in Hin' as (l1a & l1b & ->). rewrite <-app_assoc. cbn [app].
    eapply (forM_declare_shared body l1a (l1b ++ (field, sf, c) :: l2) f h field' sf' c'
              field sf c n); try done.
    apply elem_of_app. right. by left.
  - apply elem_of_cons in Hin' as [Heq|Hin']; [by destruct Hne|].
    by eapply (forM_declare_shared body l1 l2 f h field sf c field' sf' c' n).
Qed.

Lemma Parse_declaration_abort s prog arg args w fields addr a :
  schema s = Some (fields, addr) →
  forM (call registerGlobal) (visits false (reflect.At (reflect.StructOf fields) [] addr false))
    (CommandLine w, vars w) = Abort a →
  Parse s (prog :: arg :: args) w = Abort a.
Proof.
  intros Hschema Hreg. unfold Parse.
  rewrite (parseBody_struct _ _ _ _ _ _ _ Hschema). cbn zeta. by rewrite Hreg.
Qed.

Lemma shallow_visit fields i sf o :
  fields !! i = Some (sf, o) → reflect.IsExported sf = true →
  is_Some (valueFor (reflect.kindOf o) 0) →
  (reflect.At o [i] true false, sf, [])
  ∈ visits false (reflect.At (reflect.StructOf fields) [] true false).
Proof.
  intros Hi He [value Hvalue]. apply visitsFrom_shallow_elem.
  exists i, sf, o. split_and!; try done. by eapply valueFor_scalar.
Qed.

(** The first walk of [Parse] on a schema with a scalar field one of
    whose flag names is taken. *)
Lemma declarations_taken fields i sf o f h :
  fields !! i = Some (sf, o) → reflect.IsExported sf = true →
  is_Some (valueFor (reflect.kindOf o) 0) →
  is_Some (flag.formal f !! longName sf) ∨ is_Some (flag.formal f !! shortName sf)
  ∨ longName sf = shortName sf →
  ∃ a, forM (call registerGlobal)
         (visits false (reflect.At (reflect.StructOf fields) [] true false)) (f, h) = Abort a
       ∧ declarationPanic a.
Proof.
  intros Hi He Hscalar Htaken.
  eapply (forM_declare_taken (call registerGlobal) _ _ _ (reflect.At o [i] true false) sf []).
  - intros x f0 h0 f' h'. apply registerGlobal_declaredFrom.
  - intros [[field sf'] c] state a. apply declareFlags_abort.
  - done.
  - by apply shallow_visit.
  - done.
  - done.
Qed.

(** X12.  [Parse] declares its flags on the process-wide
    [flag.CommandLine]: when the long or the short name of a settable
    bool, int or string field of the schema is declared there already,
    [Parse] panics in the flag package instead of returning. *)
Theorem Parse_flag_taken_panics s fields i sf o prog arg args w :
  schema s = Some (fields, true) →
  fields !! i = Some (sf, o) → reflect.IsExported sf = true →
  is_Some (valueFor (reflect.kindOf o) 0) →
  is_Some (flag.formal (CommandLine w) !! longName sf)
  ∨ is_Some (flag.formal (CommandLine w) !! shortName sf) →
  ∃ a, Parse s (prog :: arg :: args) w = Abort a ∧ declarationPanic a.
Proof.
  intros Hschema Hi He Hscalar Htaken.
  destruct (declarations_taken fields i sf o (CommandLine w) (vars w) Hi He Hscalar)
    as (a & Ha & Hpanic); [tauto|].
  exists a. split; [|done]. by eapply Parse_declaration_abort.
Qed.

(** X13.  Flag names must be distinct within the schema's top level:
    when the long and the short name of one settable scalar field are the
    same, or two such fields share a name (two fields without a [short]
    tag share the empty short name), [Parse] panics in the flag package
    whatever the arguments are. *)
Theorem Parse_flag_names_clash s fields i j sf sf' o o' prog arg args w :
  schema s = Some (fields, true) →
  fields !! i = Some (sf, o) → reflect.IsExported sf = true →
  is_Some (valueFor (reflect.kindOf o) 0) →
  fields !! j = Some (sf', o') → reflect.IsExported sf' = true →
  is_Some (valueFor (reflect.kindOf o') 0) →
  longName sf = shortName sf
  ∨ (i ≠ j ∧ (longName sf = longName sf' ∨ longName sf = shortName sf'
              ∨ shortName sf = longName sf' ∨ shortName sf = shortName sf')) →
  ∃ a, Parse s (prog :: arg :: args) w = Abort a ∧ declarationPanic a.
Proof.
  intros Hschema Hi He Hscalar Hj He' Hscalar' Hclash.
  assert (∃ a, forM (call registerGlobal)
                 (visits false (reflect.At (reflect.StructOf fields) [] true false))
                 (CommandLine w, vars w) = Abort a ∧ declarationPanic a) as (a & Ha & Hpanic).
  { destruct Hclash as [Hself|[Hne Hshared]].
    - eapply (declarations_taken fields i sf o); [done..|tauto].
    - assert (∃ n, (n = longName sf ∨ n = shortName sf) ∧ (n = longName sf' ∨ n = shortName sf'))
        as (n & Hn & Hn').
      { destruct Hshared as [?|[?|[?|?]]]; [exists (longName sf)|exists (longName sf)
                                            |exists (shortName sf)|exists (shortName sf)]; eauto. }
      eapply (forM_declare_clash (call registerGlobal) _ _ _
                (reflect.At o [i] true false) sf [] (reflect.At o' [j] true false) sf' [] n).
      + intros x f h f' h'. apply registerGlobal_declaredFrom.
      + intros [[field sf0] c] state a. apply declareFlags_abort.
      + done.
      + done.
      + by apply shallow_visit.
      + by apply shallow_visit.
      + intros [= ? ?]. done.
      + done.
      + done.
      + done.
      + done. }
  exists a. split; [|done]. by eapply Parse_declaration_abort.
Qed.

(** X14.  After a run of [Parse] that got as far as the command scope,
    the flags of the schema's top-level scalar fields stay declared; so
    any later call of [Parse], on the same schema or on another one with
    a settable scalar field of the same lower-cased name, panics. *)
Theorem Parse_twice_panics s os_Args w err s' w' cfs fields i sf o
    s2 fields2 i2 sf2 o2 prog arg args :
  parseBody s os_Args w = Ok (err, s', w', Some cfs) →
  schema s = Some (fields, true) →
  fields !! i = Some (sf, o) → reflect.IsExported sf = true →
  is_Some (valueFor (reflect.kindOf o) 0) →
  schema s2 = Some (fields2, true) →
  fields2 !! i2 = Some (sf2, o2) → reflect.IsExported sf2 = true →
  is_Some (valueFor (reflect.kindOf o2) 0) →
  longName sf2 = longName sf →
  ∃ a, Parse s2 (prog :: arg :: args) w' = Abort a ∧ declarationPanic a.
Proof.
  intros Hbody Hschema Hi He Hscalar Hschema2 Hi2 He2 Hscalar2 Hname.
  apply parseBody_stages in Hbody
    as (prog0 & args0 & fields' & addr & global & h1 & e1 & line & h2 & root1 & cmds2 & cmd
        & cfs0 & h3 & h4 & root2 & _ & Hschema' & Hreg & Hparse & _ & _ & _
        & _ & _ & _ & _ & Hline & _).
  rewrite Hschema in Hschema'. injection Hschema' as <- <-.
  destruct (declared_pair (call registerGlobal) _ _ _ _ _ _ _ _
              (λ x f h f' h', registerGlobal_declaredFrom x f h f' h')
              (λ state, eq_refl) Hreg (shallow_visit _ _ _ _ Hi He Hscalar) Hscalar)
    as (p & value & usage & usage' & _ & _ & Hlong & _).
  apply Parse_parsedFrom in Hparse as ((_ & Hformal & _) & _).
  destruct (declarations_taken fields2 i2 sf2 o2 (CommandLine w') (vars w') Hi2 He2 Hscalar2)
    as (a & Ha & Hpanic).
  { left. rewrite Hline, Hformal, Hname, Hlong. by eexists. }
  exists a. split; [|done]. by eapply Parse_declaration_abort.
Qed.

End clashes.

(** ** What a run leaves of the schema *)

(** Assigning a scalar to a field of its kind changes no descriptor and
    no kind. *)
Lemma shape_store index x root sf o :
  fieldAt index root = Some (sf, o) →
  reflect.kindOf o = reflect.kindOf (reflect.Scalar x) →
  reflect.kindOf (reflect.store index x root) = reflect.kindOf root
  ∧ ∀ index', shape (reflect.store index x root) index' = shape root index'.
Proof.
  revert root. induction index as [|i rest IH]; intros root Hfield Hkind; [done|].
  destruct root as [y|fields|t|]; try by destruct rest.
  split; [done|]. intros [|i' rest']; [done|].
  cbn [reflect.store]. unfold shape. rewrite !fieldAt_lookup.
  destruct (decide (i' = i)) as [->|Hne].
  2: { by rewrite list_lookup_alter_ne. }
  rewrite list_lookup_alter_eq. rewrite fieldAt_lookup in Hfield.
  destruct (fields !! i) as [[sf1 o1]|] eqn:Hfi; [|by destruct rest].
  cbn [fmap option_fmap option_map].
  destruct rest as [|j rest].
  - injection Hfield as -> ->. cbn [reflect.store].
    destruct rest' as [|j' rest'].
    + simpl. by rewrite Hkind.
    + simpl. destruct o as [z| | |]; [|by destruct x..].
      by destruct rest'.
  - cbn [mbind option_bind] in Hfield.
    destruct (IH o1 Hfield Hkind) as [Hk Hshape].
    destruct rest' as [|j' rest'].
    + cbn [mbind option_bind]. by rewrite Hk.
    + cbn [mbind option_bind]. apply (Hshape (j' :: rest')).
Qed.

Section shapes.
Context `{!strings.Casing} `{!strconv.Numerals}.

Lemma assign_shape root0 root h field sf c fl :
  viewOf root0 (field, sf, c) →
  reflect.kindOf root = reflect.kindOf root0 →
  (∀ index, shape root index = shape root0 index) →
  reflect.kindOf (assign h field sf fl root) = reflect.kindOf root0
  ∧ ∀ index, shape (assign h field sf fl root) index = shape root0 index.
Proof.
  intros (o & index & a & r & Hfield & Hshape) Hk Hsame. simpl in Hfield, Hshape. subst field.
  rewrite assign_matches. destruct (matches sf (reflect.kindOf o) fl) eqn:Hm; [|done].
  rewrite <-Hsame in Hshape. unfold shape in Hshape.
  destruct (fieldAt index root) as [[sf' o']|] eqn:Hroot; [|done].
  injection Hshape as -> Hkind.
  unfold matches in Hm. apply andb_true_iff in Hm as [_ Hm].
  destruct (shape_store index (flag.Get (flag.Value_ fl) h) root sf o' Hroot) as [Hk' Hsh].
  { rewrite Hkind. symmetry. by apply Get_sameKind. }
  split; [congruence|]. intros index'. by rewrite Hsh.
Qed.

Lemma bind_shape root0 fs h vs root root' :
  (∀ x, x ∈ vs → viewOf root0 x) →
  reflect.kindOf root = reflect.kindOf root0 →
  (∀ index, shape root index = shape root0 index) →
  forM (call (bind fs h)) vs root = Ok root' →
  reflect.kindOf root' = reflect.kindOf root0
  ∧ ∀ index, shape root' index = shape root0 index.
Proof.
  intros Hvs Hk Hsame Hloop.
  refine (forM_invariant
            (λ r, reflect.kindOf r = reflect.kindOf root0
                  ∧ ∀ index, shape r index = shape root0 index)
            _ vs root root' _ (conj Hk Hsame) Hloop).
  intros [[field sf] c] r r' Hx [Hkr Hr]. cbn [call bind]. intros [= <-].
  unfold flag.Visit. generalize (flag.sortFlags (flag.actual fs)). intros flags.
  revert r Hkr Hr. induction flags as [|fl flags IH]; intros r Hkr Hr; [done|].
  cbn [foldl].
  destruct (assign_shape root0 r h field sf c fl (Hvs _ Hx) Hkr Hr) as [Hk1 Hs1].
  by apply IH.
Qed.

Lemma visits_viewOf recurse fields addr x :
  x ∈ visits recurse (reflect.At (reflect.StructOf fields) [] addr false) →
  viewOf (reflect.StructOf fields) x.
Proof.
  destruct recurse.
  - intros (k & group & inner & j & sf & o & Hk & Hj & _ & _ & _ & _ & ->)%visitsFrom_deep_elem.
    exists o, [k; j], true, false. split; [done|].
    unfold shape. rewrite fieldAt_cons, Hk. simpl. by rewrite Hj.
  - intros (k & sf & o & Hk & _ & _ & _ & _ & ->)%visitsFrom_shallow_elem.
    exists o, [k], true, false. split; [done|].
    unfold shape. simpl. by rewrite Hk.
Qed.

(** X21.  [Parse] changes values, never shapes: after a run that
    returns, the schema holds at every index path a field with the
    descriptor and the kind it had before; no field is added, dropped or
    given a value of another type. *)
Theorem Parse_keeps_shape s os_Args w err s' w' fields addr :
  Parse s os_Args w = Ok (err, s', w') →
  schema s = Some (fields, addr) →
  ∃ fields',
    schema s' = Some (fields', addr)
    ∧ ∀ index, shape (reflect.StructOf fields') index = shape (reflect.StructOf fields) index.
Proof.
  intros [[cfs|] Hbody]%Parse_parseBody Hschema.
  2: { apply parseBody_early in Hbody as (_ & -> & _). by exists fields. }
  apply parseBody_stages in Hbody
    as (prog & args & fields0 & addr0 & global & h1 & e1 & line & h2 & root1 & cmds2 & cmd
        & cfs0 & h3 & h4 & root2 & _ & Hschema' & _ & _ & Hbind & _ & _
        & _ & Hbind2 & _ & -> & _ & _).
  rewrite Hschema in Hschema'. injection Hschema' as <- <-.
  destruct (bind_shape (reflect.StructOf fields) _ _ _ _ _
              (λ x, visits_viewOf false fields addr x) eq_refl (λ index, eq_refl) Hbind)
    as [Hk1 Hs1].
  destruct (bind_shape (reflect.StructOf fields) _ _ _ _ _
              (λ x, visits_viewOf true fields addr x) Hk1 Hs1 Hbind2)
    as [Hk2 Hs2].
  assert (∃ fields2, root2 = reflect.StructOf fields2) as [fields2 ->].
  { destruct root2 as [[]|fields2|t|]; try done. by eexists. }
  destruct s as [[z|fs|[target|]|]|]; try done.
  - injection Hschema as -> <-. by eexists.
  - destruct target; try done. injection Hschema as -> <-. by eexists.
Qed.

Lemma bound_nothing_set fs h sf o : flag.actual fs = ∅ → bound fs h sf o = o.
Proof.
  intros Hempty. unfold bound.
  destruct (last _) as [fl|] eqn:Hlast; [|done].
  apply last_Some_elem_of, list_elem_of_filter in Hlast as [_ [n Hn]%sortFlags_elem].
  by rewrite Hempty, lookup_empty in Hn.
Qed.

(** With no flag set the binder leaves every field. *)
Lemma binding_nothing_set fs h vs root root' index sf o :
  flag.actual fs = ∅ →
  forM (call (bind fs h)) vs root = Ok root' →
  fieldAt index root = Some (sf, o) →
  (∀ x, x ∈ vs →
     apart (visitIndex x) index
     ∨ ∃ flagAddr flagRO o', x.1.1 = reflect.At o' index flagAddr flagRO
         ∧ x.1.2 = sf ∧ reflect.kindOf o' = reflect.kindOf o) →
  fieldAt index root' = Some (sf, o).
Proof.
  intros Hempty Hloop Hroot Hvs.
  rewrite (binding_field fs h vs root root' index sf o Hloop Hroot Hvs).
  rewrite bound_nothing_set by done. by case_bool_decide.
Qed.

(** The parser stops at an argument that is no flag: nothing is set and
    every argument is left. *)
Lemma parseLoop_stop budget f h f' h' :
  flag.parseOne f h = (false, None, f', h') → flag.parseLoop budget f h = Ok (None, f', h').
Proof. intros Hone. destruct budget; simpl; by rewrite Hone. Qed.

Lemma parseOne_positional f h arg rest :
  flag.args f = arg :: rest →
  String.length arg < 2 ∨ strings.HasPrefix arg "-" = false →
  flag.parseOne f h = (false, None, f, h).
Proof.
  intros Hargs Harg. unfold flag.parseOne. rewrite Hargs.
  destruct Harg as [Hlen| ->].
  - apply Nat.ltb_lt in Hlen. by rewrite Hlen.
  - by rewrite orb_true_r.
Qed.

Lemma Parse_positional f h arg rest :
  String.length arg < 2 ∨ strings.HasPrefix arg "-" = false →
  flag.Parse f (arg :: rest) h
  = Ok (None, flag.withArgs (flag.withParsed f true) (arg :: rest), h).
Proof.
  intros Harg. unfold flag.Parse. apply parseLoop_stop.
  by eapply parseOne_positional.
Qed.

(** X18.  The global flags end at the first argument that is no flag:
    when the first argument does not begin with "-" (a command, say),
    and no flag of [flag.CommandLine] was set before, the global scope
    sets nothing and leaves every argument, so every top-level field of
    the schema keeps its value, whatever flags follow. *)
Theorem Parse_flags_after_positional s fields addr prog arg args w err s' w' :
  flag.actual (CommandLine w) = ∅ →
  schema s = Some (fields, addr) →
  String.length arg < 2 ∨ strings.HasPrefix arg "-" = false →
  Parse s (prog :: arg :: args) w = Ok (err, s', w') →
  flag.args (CommandLine w') = arg :: args
  ∧ flag.actual (CommandLine w') = ∅
  ∧ ∃ root',
      s' = written s root'
      ∧ ∀ i sf o,
          fields !! i = Some (sf, o) → reflect.kindOf o ≠ reflect.Struct →
          fieldAt [i] root' = Some (sf, o).
Proof.
  intros Hempty Hschema Harg [scope Hbody]%Parse_parseBody.
  apply (parseBody_run _ _ _ _ _ _ _ _ _ _ _ Hschema) in Hbody
    as (global & h1 & e1 & line & h2 & root1 & cmd & cfs0 & h3 & cfs & h4 & root2
        & Hreg & Hparse & Hbind & _ & _ & _ & Hbind2 & _ & -> & _ & ->).
  rewrite (Parse_positional _ _ _ _ Harg) in Hparse. injection Hparse as _ <- <-.
  apply forM_registerGlobal_scope in Hreg as (_ & _ & Hactual & _).
  cbn [CommandLine flag.args flag.actual flag.withArgs flag.withParsed] in *.
  rewrite Hactual, Hempty. split_and!; [done..|].
  exists root2. split; [done|].
  intros i sf o Hi Hkind.
  assert (fieldAt [i] root1 = Some (sf, o)) as Hroot1.
  { eapply binding_nothing_set; [|done|done|].
    - simpl. by rewrite Hactual.
    - intros x Hx. by eapply shallow_top. }
  eapply binding_apart; [done..|].
  intros x Hx. by eapply deep_top.
Qed.

End shapes.

(** ** One flag, from the command line to its field *)

Section one_flag.
Context `{!strings.Casing} `{!strconv.Numerals}.

Lemma convert_valueFor k text x p : convert k text = Some x → is_Some (valueFor k p).
Proof. destruct k; simpl; try done; by eexists. Qed.

Lemma Set_convert k p value text x (h : heap) :
  valueFor k p = Some value → convert k text = Some x → p < length h →
  flag.Set_ value text h = (true, <[p := x]> h)
  ∧ flag.Get value (<[p := x]> h) = x
  ∧ flag.IsBoolFlag value = bool_decide (k = reflect.Bool).
Proof.
  intros Hvalue Hconv Hp.
  destruct k; simpl in Hvalue, Hconv; try done; injection Hvalue as <-; simpl.
  - destruct (strconv.ParseBool text) as [b [|]]; [|done]. injection Hconv as <-.
    by rewrite list_lookup_insert_eq.
  - destruct (strconv.ParseInt text) as [z [|]]; [|done]. injection Hconv as <-.
    by rewrite list_lookup_insert_eq.
  - injection Hconv as <-. by rewrite list_lookup_insert_eq.
Qed.

Lemma parseOne_stop f h : positional (flag.args f) → flag.parseOne f h = (false, None, f, h).
Proof.
  unfold positional. destruct (flag.args f) as [|arg rest] eqn:Hargs.
  - intros _. unfold flag.parseOne. by rewrite Hargs.
  - by eapply parseOne_positional.
Qed.

(** One flag, given in any of its spellings, and no flag after it. *)
Lemma Parse_one_flag f h h' name fl dashes text tokens rest :
  flag.formal f !! name = Some fl →
  flagName name →
  dashes = "-" ∨ dashes = "--" →
  spelling (flag.IsBoolFlag (flag.Value_ fl)) dashes name text tokens →
  positional rest →
  flag.Set_ (flag.Value_ fl) text h = (true, h') →
  flag.Parse f (tokens ++ rest) h
  = Ok (None,
        flag.withActual (flag.withArgs (flag.withParsed f true) rest)
          (<[name := fl]> (flag.actual f)), h').
Proof.
  intros Hfl Hname Hd Hspell Hrest Hset. unfold flag.Parse.
  assert (∃ attached more,
            tokens ++ rest = token dashes name attached :: more
            ∧ supply (flag.withArgs (flag.withParsed f true) more) h name fl attached
              = (true, None,
                 flag.withActual (flag.withArgs (flag.withParsed f true) rest)
                   (<[name := fl]> (flag.actual f)), h'))
    as (attached & more & -> & Hsupply).
  { destruct Hspell as [->|[[Hb ->]|(Hb & -> & ->)]].
    - exists (Some text), rest. split; [done|]. unfold supply.
      destruct (flag.IsBoolFlag _); cbn [default from_option id]; by rewrite Hset.
    - exists None, (text :: rest). split; [done|]. unfold supply. rewrite Hb.
      cbn [flag.args flag.withArgs]. by rewrite Hset.
    - exists None, rest. split; [done|]. unfold supply. rewrite Hb.
      cbn [default from_option id]. by rewrite Hset. }
  cbn [length flag.parseLoop].
  rewrite (parseOne_token (flag.withParsed f true) h dashes name fl attached more Hd Hname Hfl).
  rewrite Hsupply. apply parseLoop_stop, parseOne_stop. done.
Qed.

(** What the two binding walks leave in a field of the schema, and in a
    field of a nested struct. *)
Lemma top_field_bound fields line h2 root1 cfs h4 root2 i sf o :
  let v := reflect.At (reflect.StructOf fields) [] true false in
  forM (call (bind line h2)) (visits false v) (reflect.StructOf fields) = Ok root1 →
  forM (call (bind cfs h4)) (visits true v) root1 = Ok root2 →
  fields !! i = Some (sf, o) → reflect.IsExported sf = true →
  reflect.kindOf o ≠ reflect.Struct →
  fieldAt [i] root2 = Some (sf, bound line h2 sf o).
Proof.
  intros v Hbind Hbind2 Hi He Hkind.
  assert (fieldAt [i] root1 = Some (sf, bound line h2 sf o)) as Hroot1.
  { rewrite (binding_field _ _ _ _ _ [i] sf o Hbind Hi).
    - rewrite bool_decide_eq_true_2; [done|].
      apply Exists_exists. exists (reflect.At o [i] true false, sf, []).
      split; [|done]. apply visitsFrom_shallow_elem. exists i, sf, o. by split_and!.
    - intros y Hy. by eapply shallow_top. }
  eapply binding_apart; [done..|]. intros y Hy.
  by eapply deep_top.
Qed.

Lemma nested_field_bound fields line h2 root1 cfs h4 root2 i j group inner sf o :
  let v := reflect.At (reflect.StructOf fields) [] true false in
  forM (call (bind line h2)) (visits false v) (reflect.StructOf fields) = Ok root1 →
  forM (call (bind cfs h4)) (visits true v) root1 = Ok root2 →
  fields !! i = Some (group, reflect.StructOf inner) → inner !! j = Some (sf, o) →
  reflect.IsExported group = true → reflect.IsExported sf = true →
  fieldAt [i; j] root2 = Some (sf, bound cfs h4 sf o).
Proof.
  intros v Hbind Hbind2 Hi Hj Hg He.
  assert (fieldAt [i; j] (reflect.StructOf fields) = Some (sf, o)) as Hroot.
  { rewrite fieldAt_cons, Hi. done. }
  assert (fieldAt [i; j] root1 = Some (sf, o)) as Hroot1.
  { eapply binding_apart; [done..|]. intros y Hy. by eapply shallow_nested. }
  rewrite (binding_field _ _ _ _ _ [i; j] sf o Hbind2 Hroot1).
  - rewrite bool_decide_eq_true_2; [done|].
    apply Exists_exists.
    exists (reflect.At o [i; j] true false, sf, [strings.ToLower (reflect.Name group)]).
    split; [|done]. apply visitsFrom_deep_elem.
    exists i, group, inner, j, sf, o. by split_and!.
  - intros y Hy. by eapply deep_nested.
Qed.

(** A flag set that has just been declared parses one flag of a field it
    was declared for: the flag set it leaves binds that field to the
    value the text converts to. *)
Lemma one_flag_bound (body : visit → flag.FlagSet * heap → result (flag.FlagSet * heap))
    vs f0 h0 f1 h1 field sf c o name dashes text x tokens rest :
  (∀ x f h f' h', body x (f, h) = Ok (f', h') → declaredFrom f h f' h') →
  (∀ state, body (field, sf, c) state = declareFlags field sf state) →
  wellFormed f0 →
  forM body vs (f0, h0) = Ok (f1, h1) →
  (field, sf, c) ∈ vs → reflect.Value_Kind field = reflect.kindOf o →
  name = longName sf ∨ name = shortName sf → name ≠ "" →
  dashes = "-" ∨ dashes = "--" →
  convert (reflect.kindOf o) text = Some x →
  spelling (bool_decide (reflect.kindOf o = reflect.Bool)) dashes name text tokens →
  positional rest →
  ∃ line h2,
    flag.Parse f1 (tokens ++ rest) h1 = Ok (None, line, h2)
    ∧ flag.args line = rest
    ∧ bound line h2 sf o = reflect.Scalar x.
Proof.
  intros Hbody Hcall Hwf Hdecl Hx Hkind Hname Hne Hd Hconv Hspell Hrest.
  pose proof (convert_valueFor _ _ _ 0 Hconv) as Hscalar. rewrite <-Hkind in Hscalar.
  destruct (declared_pair body _ _ _ _ _ _ _ _ Hbody Hcall Hdecl Hx Hscalar)
    as (p & value & usage & usage' & Hp & Hvalue & Hlong & Hshort & Hdl & Hds).
  rewrite Hkind in Hvalue.
  destruct (Set_convert _ _ _ _ _ h1 Hvalue Hconv) as (Hset & Hget & Hbool); [lia|].
  assert (∃ fl, flag.formal f1 !! name = Some fl ∧ flag.Value_ fl = value
                ∧ declarable name) as (fl & Hfl & Hflv & Hdecl').
  { destruct Hname as [-> | ->]; eauto. }
  pose proof (Parse_one_flag f1 h1 (<[p := x]> h1) name fl dashes text tokens rest) as Hparse.
  rewrite Hflv, Hbool in Hparse.
  specialize (Hparse Hfl (conj Hne Hdecl') Hd Hspell Hrest Hset).
  eexists _, _. split; [exact Hparse|]. split; [done|].
  assert (wellFormed f1) as Hwf1.
  { eapply declaredFrom_wellFormed; [|done]. by eapply forM_declaredFrom; [|done]; eauto. }
  rewrite (bound_set _ _ _ _ value); [by rewrite Hget| | |by eapply valueFor_sameKind|].
  - eapply parsedFrom_wellFormed; [by eapply Parse_parsedFrom|done].
  - cbn [flag.formal flag.withActual flag.withArgs flag.withParsed].
    intros n fl' [-> | ->] Hn; simplify_eq; done.
  - cbn [flag.actual flag.withActual].
    destruct Hname as [-> | ->]; [left|right]; rewrite lookup_insert_eq; by eexists.
Qed.

Lemma shallow_call fields i sf o :
  fields !! i = Some (sf, o) → reflect.IsExported sf = true →
  reflect.kindOf o ≠ reflect.Struct →
  (reflect.At o [i] true false, sf, [])
  ∈ visits false (reflect.At (reflect.StructOf fields) [] true false).
Proof.
  intros Hi He Hkind. apply visitsFrom_shallow_elem. exists i, sf, o. by split_and!.
Qed.

Lemma deep_call fields i j group inner sf o :
  fields !! i = Some (group, reflect.StructOf inner) → inner !! j = Some (sf, o) →
  reflect.IsExported group = true → reflect.IsExported sf = true →
  (reflect.At o [i; j] true false, sf, [strings.ToLower (reflect.Name group)])
  ∈ visits true (reflect.At (reflect.StructOf fields) [] true false).
Proof.
  intros Hi Hj Hg He. apply visitsFrom_deep_elem. exists i, group, inner, j, sf, o.
  by split_and!.
Qed.

Lemma convert_scalar k text x : convert k text = Some x → k ≠ reflect.Struct.
Proof. by destruct k. Qed.

(** X16.  A global flag reaches its field.  When the arguments begin
    with one flag of a settable top-level bool, int or string field, under
    its long or its short name, with one or two dashes, the value attached
    with "=", given as the next argument, or left out for a bool, and
    what follows is no flag, a run that returns leaves in that field the
    value the text converts to. *)
Theorem Parse_sets_field s fields i sf o name dashes text x tokens rest prog w err s' w' :
  wellFormed (CommandLine w) →
  schema s = Some (fields, true) →
  fields !! i = Some (sf, o) → reflect.IsExported sf = true →
  name = longName sf ∨ name = shortName sf → name ≠ "" →
  dashes = "-" ∨ dashes = "--" →
  convert (reflect.kindOf o) text = Some x →
  spelling (bool_decide (reflect.kindOf o = reflect.Bool)) dashes name text tokens →
  positional rest →
  Parse s (prog :: tokens ++ rest) w = Ok (err, s', w') →
  err = None
  ∧ ∃ root', s' = written s root' ∧ fieldAt [i] root' = Some (sf, reflect.Scalar x).
Proof.
  intros Hwf Hschema Hi He Hname Hne Hd Hconv Hspell Hrest [scope Hbody]%Parse_parseBody.
  assert (∃ arg args, tokens ++ rest = arg :: args) as (arg & args & Hargs).
  { destruct Hspell as [->|[[_ ->]|(_ & _ & ->)]]; by eexists _, _. }
  rewrite Hargs in Hbody.
  apply (parseBody_run _ _ _ _ _ _ _ _ _ _ _ Hschema) in Hbody
    as (global & h1 & e1 & line & h2 & root1 & cmd & cfs0 & h3 & cfs & h4 & root2
        & Hreg & Hparse & Hbind & _ & Hdecl & Hparse2 & Hbind2 & -> & -> & _ & _).
  split; [done|]. exists root2. split; [done|].
  pose proof (convert_scalar _ _ _ Hconv) as Hkind.
  destruct (one_flag_bound (call registerGlobal) _ _ _ _ _ _ sf [] o name dashes text x
              tokens rest (λ x f h f' h', registerGlobal_declaredFrom x f h f' h')
              (λ state, eq_refl) Hwf Hreg (shallow_call _ _ _ _ Hi He Hkind) eq_refl
              Hname Hne Hd Hconv Hspell Hrest) as (line' & h2' & Hparse' & _ & Hbound).
  rewrite Hargs, Hparse in Hparse'. injection Hparse' as _ <- <-.
  rewrite <-Hbound. by eapply top_field_bound.
Qed.

Lemma registry_names cmds fields i group inner :
  fields !! i = Some (group, reflect.StructOf inner) →
  is_Some (registry cmds fields !! strings.ToLower (reflect.Name group)).
Proof.
  intros Hi. rewrite registry_lookup.
  destruct (cmds !! _); [by eexists|].
  rewrite bool_decide_eq_true_2; [by eexists|].
  apply commandNames_elem. eauto.
Qed.

Lemma CommandFlags_head cmd rest : CommandFlags cmd (cmd :: rest) = rest.
Proof.
  rewrite CommandFlags_find. cbn [list_find].
  rewrite decide_True by done. cbn [drop fmap option_fmap option_map]. apply drop_0.
Qed.

(** X17.  A command flag reaches its field.  When the arguments are
    the lower-cased name of an exported nested struct, then one flag of a
    settable bool, int or string field of that struct in any of its
    spellings, then no further flag, a run that returns leaves in that
    field the value the text converts to. *)
Theorem Parse_sets_command_field s fields i j group inner sf o name dashes text x tokens rest
    prog w err s' w' :
  schema s = Some (fields, true) →
  fields !! i = Some (group, reflect.StructOf inner) → inner !! j = Some (sf, o) →
  reflect.IsExported group = true → reflect.IsExported sf = true →
  strings.HasPrefix (strings.ToLower (reflect.Name group)) "-" = false →
  name = longName sf ∨ name = shortName sf → name ≠ "" →
  dashes = "-" ∨ dashes = "--" →
  convert (reflect.kindOf o) text = Some x →
  spelling (bool_decide (reflect.kindOf o = reflect.Bool)) dashes name text tokens →
  positional rest →
  Parse s (prog :: strings.ToLower (reflect.Name group) :: tokens ++ rest) w = Ok (err, s', w') →
  err = None
  ∧ ∃ root', s' = written s root' ∧ fieldAt [i; j] root' = Some (sf, reflect.Scalar x).
Proof.
  intros Hschema Hi Hj Hg He Hcmd Hname Hne Hd Hconv Hspell Hrest [scope Hbody]%Parse_parseBody.
  set (command := strings.ToLower (reflect.Name group)) in *.
  apply (parseBody_run _ _ _ _ _ _ _ _ _ _ _ Hschema) in Hbody
    as (global & h1 & e1 & line & h2 & root1 & cmd & cfs0 & h3 & cfs & h4 & root2
        & Hreg & Hparse & Hbind & Hident & Hdecl & Hparse2 & Hbind2 & -> & -> & _ & _).
  split; [done|]. exists root2. split; [done|].
  rewrite (Parse_positional _ _ _ _ (or_intror Hcmd)) in Hparse. injection Hparse as _ <- <-.
  rewrite (IdentifyCommand_split _ [] command (tokens ++ rest)) in Hident;
    [|done|split; [done|by eapply registry_names]].
  injection Hident as <-.
  cbn [flag.args flag.withArgs] in Hparse2. rewrite CommandFlags_head in Hparse2.
  assert (∀ state, call (registerCommand command)
                     (reflect.At o [i; j] true false, sf, [command]) state
                   = declareFlags (reflect.At o [i; j] true false) sf state) as Hcall.
  { intros state. unfold call. rewrite registerCommand_one.
    by rewrite bool_decide_eq_true_2. }
  destruct (one_flag_bound (call (registerCommand command)) _ _ _ _ _ _ sf [command] o name
              dashes text x tokens rest
              (λ x f h f' h', registerCommand_declaredFrom command x f h f' h')
              Hcall (wellFormed_NewFlagSet _ _) Hdecl (deep_call _ _ _ _ _ _ _ Hi Hj Hg He)
              eq_refl Hname Hne Hd Hconv Hspell Hrest) as (line' & h2' & Hparse' & _ & Hbound).
  rewrite Hparse2 in Hparse'. injection Hparse' as <- <-.
  rewrite <-Hbound. by eapply nested_field_bound.
Qed.

End one_flag.

(** ** Commands that are not of the schema, and unknown flags *)

Lemma forM_skip {A S} (body : A → S → result S) l s :
  (∀ x s, x ∈ l → body x s = Ok s) → forM body l s = Ok s.
Proof.
  intros Hskip. induction l as [|x l IH]; [done|].
  cbn [forM]. rewrite Hskip by left. cbn [mbind result_bind].
  apply IH. intros y t Hy. apply Hskip. by right.
Qed.

Section scopes.
Context `{!strings.Casing} `{!strconv.Numerals}.

(** The declarations for a command that no nested struct bears. *)
Lemma registerCommand_foreign cmd fields index flagAddr flagRO state :
  cmd ∉ commandNames fields →
  forM (call (registerCommand cmd))
    (visits true (reflect.At (reflect.StructOf fields) index flagAddr flagRO)) state
  = Ok state.
Proof.
  intros Hforeign. apply forM_skip. intros [[field sf] c] t Hin.
  apply visitsFrom_deep_elem in Hin
    as (k & group & inner & j & sf' & o & Hk & _ & _ & _ & _ & _ & [= -> -> ->]).
  unfold call. rewrite registerCommand_one.
  rewrite bool_decide_eq_false_2; [done|].
  intros Heq. apply Hforeign, commandNames_elem. eauto.
Qed.

(** X8.  For a command that is the lower-cased name of no struct field
    of the schema (the empty command of a run without one, say)
    [CommandFlagSet] returns the new, empty flag set: no flag is declared
    and no variable created. *)
Theorem CommandFlagSet_foreign_command cmd cmdFlags fields index flagAddr flagRO cmds h :
  cmd ∉ commandNames fields →
  CommandFlagSet cmd cmdFlags (reflect.typeOf (reflect.StructOf fields))
    (reflect.At (reflect.StructOf fields) index flagAddr flagRO) cmds h
  = Ok (flag.NewFlagSet cmd flag.ExitOnError, registry cmds fields, h).
Proof.
  intros Hforeign. unfold CommandFlagSet. rewrite IterFields_visits.
  by rewrite registerCommand_foreign.
Qed.

(** X9.  The flag set [CommandFlagSet] returns bears the name of the
    command, has parsed nothing and has no flag set; the variables there
    were are all kept, and every flag of the set is filed under its own
    name on a variable created by this call, so no flag of a command
    shares its variable with an earlier flag. *)
Theorem CommandFlagSet_fresh_variables cmd cmdFlags fields index flagAddr flagRO cmds h
    cfs cmds' h' :
  CommandFlagSet cmd cmdFlags (reflect.typeOf (reflect.StructOf fields))
    (reflect.At (reflect.StructOf fields) index flagAddr flagRO) cmds h = Ok (cfs, cmds', h') →
  flag.name cfs = cmd ∧ flag.parsed cfs = false
  ∧ flag.args cfs = [] ∧ flag.actual cfs = ∅
  ∧ cmds' = registry cmds fields
  ∧ (∃ more, h' = h ++ more)
  ∧ ∀ n fl, flag.formal cfs !! n = Some fl →
      flag.Name fl = n ∧ length h ≤ flag.pointer (flag.Value_ fl) < length h'.
Proof.
  unfold CommandFlagSet. rewrite IterFields_visits.
  destruct (forM _ _ _) as [[cfs1 h1]|] eqn:Hloop; simpl; [|done].
  intros [= <- <- <-].
  apply forM_registerCommand_scope in Hloop
    as (Hname & _ & Hactual & Hargs & Hparsed & Hmore & _ & Hnew).
  split_and!; try done.
  intros n fl [Hold|?]%Hnew; [|done]. simpl in Hold. by rewrite lookup_empty in Hold.
Qed.

(** X20.  When the command of a run is the lower-cased name of no
    struct field of the schema (no command was given, or the registry
    held a name of an earlier schema), the command scope has no flag and
    the second binding pass changes nothing: every field of every nested
    struct keeps its value. *)
Theorem Parse_foreign_command s prog arg args w err s' w' cfs fields addr :
  parseBody s (prog :: arg :: args) w = Ok (err, s', w', Some cfs) →
  schema s = Some (fields, addr) →
  flag.name cfs ∉ commandNames fields →
  flag.formal cfs = ∅ ∧ flag.actual cfs = ∅
  ∧ ∃ root',
      s' = written s root'
      ∧ ∀ i j group inner sf o,
          fields !! i = Some (group, reflect.StructOf inner) → inner !! j = Some (sf, o) →
          fieldAt [i; j] root' = Some (sf, o).
Proof.
  intros Hbody Hschema Hforeign.
  apply (parseBody_run _ _ _ _ _ _ _ _ _ _ _ Hschema) in Hbody
    as (global & h1 & e1 & line & h2 & root1 & cmd & cfs0 & h3 & cfs' & h4 & root2
        & Hreg & Hparse & Hbind & Hident & Hdecl & Hparse2 & Hbind2 & -> & -> & [= <-] & _).
  pose proof (Parse_parsedFrom _ _ _ _ _ _ Hparse2) as ((Hname & Hformal & _) & _ & _ & Hactual).
  assert (flag.name cfs = cmd) as Hcmd.
  { rewrite Hname. by apply forM_registerCommand_scope in Hdecl as (-> & _). }
  rewrite Hcmd in Hforeign.
  rewrite registerCommand_foreign in Hdecl by done. injection Hdecl as <- <-.
  assert (flag.actual cfs = ∅) as Hempty.
  { apply map_empty. intros n. destruct (flag.actual cfs !! n) as [fl|] eqn:Hn; [|done].
    apply Hactual in Hn as [Hn|Hn]; simpl in Hn; by rewrite lookup_empty in Hn. }
  split_and!; [done..|].
  exists root2. split; [done|].
  intros i j group inner sf o Hi Hj.
  assert (fieldAt [i; j] (reflect.StructOf fields) = Some (sf, o)) as Hroot.
  { rewrite fieldAt_cons, Hi. done. }
  assert (fieldAt [i; j] root1 = Some (sf, o)) as Hroot1.
  { eapply binding_apart; [done..|]. intros y Hy. by eapply shallow_nested. }
  eapply binding_nothing_set; [done..|].
  intros y Hy. by eapply deep_nested.
Qed.

(** A flag found after the declarations of the first walk was there
    before, or bears a name of a field that was called on. *)
Lemma registerGlobal_origin vs f h f' h' n fl :
  forM (call registerGlobal) vs (f, h) = Ok (f', h') →
  flag.formal f' !! n = Some fl →
  flag.formal f !! n = Some fl
  ∨ ∃ field sf c, (field, sf, c) ∈ vs ∧ (n = longName sf ∨ n = shortName sf).
Proof.
  revert f h. induction vs as [|[[field sf] c] vs IH]; intros f h.
  - intros [= <- <-]. by left.
  - cbn [forM call].
    change (registerGlobal field sf c (f, h)) with (declareFlags field sf (f, h)).
    destruct (declareFlags field sf (f, h)) as [[f1 h1]|] eqn:Hcall;
      cbn [mbind result_bind]; [|done].
    intros Hrest Hn. destruct (IH _ _ Hrest Hn) as [Hold|(field' & sf' & c' & Hin & ?)].
    2: { right. exists field', sf', c'. split; [by right|done]. }
    destruct (declareFlags_origin _ _ _ _ _ _ _ _ Hcall Hold) as [?|(? & ? & ?)]; [by left|].
    right. exists field, sf, c. split; [left|done].
Qed.

Lemma parseOne_undeclared f h dashes name attached rest :
  dashes = "-" ∨ dashes = "--" →
  flagName name →
  flag.formal f !! name = None →
  flag.parseOne (flag.withArgs f (token dashes name attached :: rest)) h
  = (false,
     Some (if bool_decide (name = "help") || bool_decide (name = "h") then ErrHelp
           else ErrFlag (NotDefined name)),
     flag.withArgs f rest, h).
Proof.
  intros Hd (Hne & Hminus & Hequals) Hfl.
  destruct name as [|c n]; [done|]. clear Hne.
  unfold strings.HasPrefix in Hminus. rewrite prefix_head in Hminus.
  apply bool_decide_eq_false in Hminus.
  rewrite Contains_cons in Hequals. apply orb_false_iff in Hequals as [Hc Hn].
  rewrite prefix_head in Hc. apply bool_decide_eq_false in Hc.
  assert (flag.nameValue (String c n +:+ match attached with Some value => "=" +:+ value | None => "" end)
          = (String c n, bool_decide (is_Some attached), default "" attached)) as Hnv.
  { destruct attached as [value|].
    - rewrite append_cons. unfold flag.nameValue. by rewrite cutEquals_attached.
    - rewrite append_empty. unfold flag.nameValue. by rewrite cutEquals_plain. }
  assert (∀ s, strings.HasPrefix (String c s) "-" = false) as Hm.
  { intros s. unfold strings.HasPrefix. rewrite prefix_head. by apply bool_decide_eq_false_2. }
  assert (∀ s, strings.HasPrefix (String c s) "=" = false) as He.
  { intros s. unfold strings.HasPrefix. rewrite prefix_head. by apply bool_decide_eq_false_2. }
  unfold flag.parseOne, token. cbn [flag.args flag.withArgs].
  set (text := match attached with Some value => "=" +:+ value | None => "" end) in *.
  assert (∀ s, strings.HasPrefix (String "-" s) "-" = true) as Hdash by by intros [].
  destruct Hd as [-> | ->].
  - change ("-" +:+ String c n +:+ text) with (String "-" (String c (n +:+ text))).
    cbn [String.length Nat.ltb Nat.leb orb negb flag.from]. rewrite Hdash.
    cbn [negb orb]. rewrite Hm. cbn [Nat.eqb andb flag.from]. rewrite !Hm, !He.
    cbn [Nat.eqb String.length orb].
    change (String c (n +:+ text)) with (String c n +:+ text). rewrite Hnv.
    cbn [flag.formal flag.withArgs flag.actual flag.args]. rewrite Hfl.
    by destruct (_ || _).
  - change ("--" +:+ String c n +:+ text) with (String "-" (String "-" (String c (n +:+ text)))).
    cbn [String.length Nat.ltb Nat.leb orb negb flag.from]. rewrite !Hdash.
    cbn [negb orb Nat.eqb andb flag.from]. rewrite !Hm, !He.
    cbn [Nat.eqb String.length orb].
    change (String c (n +:+ text)) with (String c n +:+ text). rewrite Hnv.
    cbn [flag.formal flag.withArgs flag.actual flag.args]. rewrite Hfl.
    by destruct (_ || _).
Qed.

(** X15.  An unknown flag ends the process.  When the first argument
    is a flag whose name is declared neither on [flag.CommandLine] nor
    by a field of the schema, and [flag.CommandLine] exits on errors (as
    the one of the flag package does), [Parse] does not return: unless a
    declaration panics first, the process exits with status 2, and with
    status 0 when the name is help or h. *)
Theorem Parse_undeclared_flag_exits s fields addr prog dashes name attached rest w :
  schema s = Some (fields, addr) →
  flag.errorHandling (CommandLine w) = flag.ExitOnError →
  flagName name →
  dashes = "-" ∨ dashes = "--" →
  flag.formal (CommandLine w) !! name = None →
  (∀ i sf o, fields !! i = Some (sf, o) → name ≠ longName sf ∧ name ≠ shortName sf) →
  ∃ a,
    Parse s (prog :: token dashes name attached :: rest) w = Abort a
    ∧ (declarationPanic a
       ∨ a = Exit (if bool_decide (name = "help") || bool_decide (name = "h") then 0 else 2)).
Proof.
  intros Hschema Hexit Hname Hd Hfresh Hfields. unfold Parse.
  rewrite (parseBody_struct _ _ _ _ _ _ _ Hschema). cbn zeta.
  destruct (forM (call registerGlobal) _ _) as [[global h1]|a] eqn:Hreg.
  2: { exists a. split; [done|]. left. by eapply forM_registerGlobal_abort. }
  cbn [mbind result_bind].
  assert (flag.formal global !! name = None) as Hnone.
  { destruct (flag.formal global !! name) as [fl|] eqn:Hfl; [|done].
    destruct (registerGlobal_origin _ _ _ _ _ _ _ Hreg Hfl)
      as [Hold|(field & sf & c & Hin & Hn)]; [congruence|].
    apply visitsFrom_shallow_elem in Hin
      as (k & sf' & o & Hk & _ & _ & _ & _ & [= -> -> ->]).
    destruct (Hfields _ _ _ Hk) as [? ?]. by destruct Hn. }
  apply forM_registerGlobal_scope in Hreg as (_ & Heh & _).
  unfold flag.Parse. cbn [length flag.parseLoop].
  rewrite (parseOne_undeclared (flag.withParsed global true) h1 dashes name attached rest Hd
             Hname Hnone).
  cbn [flag.errorHandling flag.withArgs flag.withParsed]. rewrite Heh, Hexit.
  eexists. split; [|right; done].
  destruct (bool_decide (name = "help") || bool_decide (name = "h")); cbn [mbind result_bind].
  - by rewrite bool_decide_eq_true_2.
  - by rewrite bool_decide_eq_false_2.
Qed.

End scopes.

(** ** Schemas whose flag names are free *)

Section hygiene.
Context `{!strings.Casing} `{!strconv.Numerals}.














End hygiene.

(** ** The further properties on examples *)

Lemma IdentifyCommand_cuts_at_command_witness :
  IdentifyCommand {[ "foo" := true; "bar" := true ]} ["-d"; "foo"; "-a"; "x"] = Ok "foo"
  ∧ "foo" ≠ ""
  ∧ commandToken {[ "foo" := true; "bar" := true ]} "foo"
  ∧ ∃ before,
      ["-d"; "foo"; "-a"; "x"] = before ++ "foo" :: CommandFlags "foo" ["-d"; "foo"; "-a"; "x"]
      ∧ Forall (λ a, ¬ commandToken {[ "foo" := true; "bar" := true ]} a) before.
Proof.
  assert (IdentifyCommand {[ "foo" := true; "bar" := true ]} ["-d"; "foo"; "-a"; "x"] = Ok "foo")
    as Hrun by by vm_compute.
  split; [exact Hrun|]. split; [done|].
  exact (IdentifyCommand_cuts_at_command _ _ _ Hrun (ltac:(done))).
Defined.


Lemma IterFields_registers_structs_witness :
  ∃ cmds' log,
    @IterFields example.casing _ false (reflect.typeOf (reflect.StructOf example.Schema))
      (reflect.At (reflect.StructOf example.Schema) [] true false) record
      ({[ "deploy" := false ]}, []) = Ok (cmds', log)
    ∧ cmds' !! "foo" = Some true ∧ cmds' !! "deploy" = Some false ∧ cmds' !! "debug" = None.
Proof.
  destruct (@IterFields example.casing _ false (reflect.typeOf (reflect.StructOf example.Schema))
              (reflect.At (reflect.StructOf example.Schema) [] true false) record
              ({[ "deploy" := false ]}, [])) as [[cmds' log]|] eqn:Hrun;
    [|by vm_compute in Hrun].
  pose proof (@IterFields_registers_structs example.casing _ _ _ _ _ _ _ _ _ _ _ Hrun) as Hreg.
  exists cmds', log. split; [done|].
  split_and!; rewrite Hreg; by vm_compute.
Defined.

Lemma Parse_by_value_witness :
  ∃ err s' w' scope,
    example.parseBody (Some (reflect.StructOf example.Schema)) ["your_app"; "foo"] example.start
    = Ok (err, s', w', scope)
    ∧ schema (Some (reflect.StructOf example.Schema)) = Some (example.Schema, false)
    ∧ s' = Some (reflect.StructOf example.Schema)
    ∧ flag.formal (CommandLine w') = flag.formal (CommandLine example.start)
    ∧ length (vars w') = length (vars example.start)
    ∧ ∀ cfs, scope = Some cfs → err = None ∧ flag.formal cfs = ∅.
Proof.
  destruct (example.parseBody (Some (reflect.StructOf example.Schema)) ["your_app"; "foo"]
              example.start) as [[[[err s'] w'] scope]|] eqn:Hrun; [|by vm_compute in Hrun].
  exists err, s', w', scope. split; [done|]. split; [done|].
  exact (@Parse_by_value example.casing example.numerals _ _ _ _ _ _ _ _ Hrun eq_refl).
Defined.

Lemma Parse_flag_taken_panics_witness :
  is_Some (flag.formal (CommandLine cases.occupied)
             !! @longName example.casing (example.flagField "Debug" "d" "" reflect.Opaque).1)
  ∧ ∃ a, example.Parse (example.addressOf example.Schema) ["your_app"; "-n"; "1"] cases.occupied
         = Abort a
         ∧ declarationPanic a.
Proof.
  assert (is_Some (flag.formal (CommandLine cases.occupied)
             !! @longName example.casing (example.flagField "Debug" "d" "" reflect.Opaque).1))
    as Htaken by (eexists; by vm_compute).
  split; [exact Htaken|].
  apply (@Parse_flag_taken_panics example.casing example.numerals
           (example.addressOf example.Schema) example.Schema 0 _ _ "your_app" "-n" ["1"]
           cases.occupied eq_refl eq_refl eq_refl).
  - by eexists.
  - left. exact Htaken.
Defined.

Lemma Parse_flag_names_clash_witness :
  shortName <$> cases.Untagged.*1 = [""; ""]
  ∧ ∃ a, example.Parse (example.addressOf cases.Untagged) ["your_app"; "-debug"] example.start
         = Abort a
         ∧ declarationPanic a.
Proof.
  split; [done|].
  eapply (@Parse_flag_names_clash example.casing example.numerals
            (example.addressOf cases.Untagged) cases.Untagged 0 1).
  - reflexivity.
  - reflexivity.
  - reflexivity.
  - by eexists.
  - reflexivity.
  - reflexivity.
  - by eexists.
  - right. split; [done|]. do 3 right. reflexivity.
Defined.

Lemma Parse_twice_panics_witness :
  ∃ err s' w' cfs,
    example.parseBody (example.addressOf example.Schema) ["your_app"; "-debug"] example.start
    = Ok (err, s', w', Some cfs)
    ∧ ∃ a, example.Parse s' ["your_app"; "-debug"] w' = Abort a ∧ declarationPanic a.
Proof.
  destruct (example.parseBody (example.addressOf example.Schema) ["your_app"; "-debug"]
              example.start) as [[[[err s'] w'] [cfs|]]|] eqn:Hrun;
    try (by vm_compute in Hrun).
  exists err, s', w', cfs. split; [done|].
  assert (∃ fields2, schema s' = Some (fields2, true)
                     ∧ fields2 !! 0 = Some ((example.flagField "Debug" "d"
                                               "enable debug level logs" reflect.Opaque).1,
                                            reflect.Scalar (VBool true)))
    as (fields2 & Hschema2 & Hfield2).
  { vm_compute in Hrun. injection Hrun as _ <- _ _. by eexists. }
  apply (@Parse_twice_panics example.casing example.numerals _ _ _ _ _ _ _
           example.Schema 0 _ _ s' fields2 0 _ _ "your_app" "-debug" [] Hrun eq_refl eq_refl
           eq_refl (ltac:(by eexists)) Hschema2 Hfield2 eq_refl (ltac:(by eexists)) eq_refl).
Defined.

Lemma Parse_keeps_shape_witness :
  ∃ err s' w' fields',
    example.Parse (example.addressOf example.Schema)
      ["your_app"; "-debug"; "foo"; "-a"; "x"] example.start = Ok (err, s', w')
    ∧ schema s' = Some (fields', true)
    ∧ shape (reflect.StructOf fields') [3; 0]
      = Some ((example.flagField "AAA" "a" "does A" reflect.Opaque).1, reflect.String).
Proof.
  destruct (example.Parse (example.addressOf example.Schema)
              ["your_app"; "-debug"; "foo"; "-a"; "x"] example.start)
    as [[[err s'] w']|] eqn:Hrun; [|by vm_compute in Hrun].
  destruct (@Parse_keeps_shape example.casing example.numerals _ _ _ _ _ _
              example.Schema true Hrun eq_refl) as (fields' & Hschema & Hshape).
  exists err, s', w', fields'. split; [done|]. split; [exact Hschema|].
  by rewrite Hshape.
Defined.

Lemma Parse_sets_field_witness :
  wellFormed (CommandLine example.start)
  ∧ @convert example.numerals reflect.Int "42" = Some (VInt 42)
  ∧ spelling false "--" "number" "42" ["--number=42"]
  ∧ positional ["foo"; "-a"; "x"]
  ∧ ∃ err s' w' root',
      example.Parse (example.addressOf example.Schema)
        ["your_app"; "--number=42"; "foo"; "-a"; "x"] example.start = Ok (err, s', w')
      ∧ err = None
      ∧ s' = written (example.addressOf example.Schema) root'
      ∧ fieldAt [1] root'
        = Some ((example.flagField "Number" "n" "a number field" reflect.Opaque).1,
                reflect.Scalar (VInt 42)).
Proof.
  assert (wellFormed (CommandLine example.start)) as Hwf
    by (split; intros n fl; simpl; by rewrite lookup_empty).
  assert (spelling false "--" "number" "42" ["--number=42"]) as Hspell by by left.
  assert (positional ["foo"; "-a"; "x"]) as Hrest by by right.
  split_and!; [exact Hwf|done|exact Hspell|exact Hrest|].
  destruct (example.Parse (example.addressOf example.Schema)
              ["your_app"; "--number=42"; "foo"; "-a"; "x"] example.start)
    as [[[err s'] w']|] eqn:Hrun; [|by vm_compute in Hrun].
  destruct (@Parse_sets_field example.casing example.numerals
              (example.addressOf example.Schema) example.Schema 1
              (example.flagField "Number" "n" "a number field" reflect.Opaque).1
              (reflect.Scalar (VInt 0)) "number" "--" "42"
              (VInt 42) ["--number=42"] ["foo"; "-a"; "x"] "your_app" example.start err s' w'
              Hwf eq_refl eq_refl eq_refl (or_introl eq_refl) (ltac:(done))
              (or_intror eq_refl) eq_refl Hspell Hrest Hrun)
    as (Herr & root' & Hs' & Hfield).
  exists err, s', w', root'.
  split; [reflexivity|]. split; [exact Herr|]. split; [exact Hs'|exact Hfield].
Defined.

Lemma Parse_sets_command_field_witness :
  spelling false "-" "a" "beep" ["-a"; "beep"]
  ∧ positional []
  ∧ ∃ err s' w' root',
      example.Parse (example.addressOf example.Schema)
        ["your_app"; "foo"; "-a"; "beep"] example.start = Ok (err, s', w')
      ∧ err = None
      ∧ s' = written (example.addressOf example.Schema) root'
      ∧ fieldAt [3; 0] root'
        = Some ((example.flagField "AAA" "a" "does A" reflect.Opaque).1,
                reflect.Scalar (VString "beep")).
Proof.
  assert (spelling false "-" "a" "beep" ["-a"; "beep"]) as Hspell by (right; by left).
  split_and!; [exact Hspell|done|].
  destruct (example.Parse (example.addressOf example.Schema)
              ["your_app"; "foo"; "-a"; "beep"] example.start)
    as [[[err s'] w']|] eqn:Hrun; [|by vm_compute in Hrun].
  destruct (@Parse_sets_command_field example.casing example.numerals
              (example.addressOf example.Schema) example.Schema 3 0
              (example.command "Foo" []).1
              [ example.flagField "AAA" "a" "does A" (reflect.Scalar (VString ""));
                example.flagField "BBB" "b" "does B" (reflect.Scalar (VString "")) ]
              (example.flagField "AAA" "a" "does A" reflect.Opaque).1
              (reflect.Scalar (VString "")) "a" "-" "beep"
              (VString "beep") ["-a"; "beep"] [] "your_app" example.start err s' w'
              eq_refl eq_refl eq_refl eq_refl eq_refl eq_refl (or_intror eq_refl) (ltac:(done))
              (or_introl eq_refl) eq_refl Hspell I Hrun)
    as (Herr & root' & Hs' & Hfield).
  exists err, s', w', root'.
  split; [reflexivity|]. split; [exact Herr|]. split; [exact Hs'|exact Hfield].
Defined.

Lemma Parse_command_of_registry_witness :
  ∃ err s' w' cfs,
    example.parseBody (example.addressOf example.Schema) ["your_app"; "-debug"; "deploy"]
      cases.stale = Ok (err, s', w', Some cfs)
    ∧ dom (cmds w') = {[ "deploy"; "foo"; "bar" ]}
    ∧ flag.name cfs = "deploy".
Proof.
  destruct (example.parseBody (example.addressOf example.Schema) ["your_app"; "-debug"; "deploy"]
              cases.stale) as [[[[err s'] w'] [cfs|]]|] eqn:Hrun;
    try (by vm_compute in Hrun).
  destruct (@Parse_command_of_registry example.casing example.numerals _ _ _ _ _ _ _ _
              example.Schema true Hrun eq_refl) as [Hcmds Hname].
  exists err, s', w', cfs. split; [done|].
  rewrite Hname, Hcmds. split; by vm_compute.
Defined.

Lemma Parse_flags_after_positional_witness :
  ∃ err s' w' root',
    example.Parse (example.addressOf example.Schema) ["your_app"; "x"; "-debug"] example.start
    = Ok (err, s', w')
    ∧ flag.args (CommandLine w') = ["x"; "-debug"]
    ∧ s' = written (example.addressOf example.Schema) root'
    ∧ fieldAt [0] root'
      = Some ((example.flagField "Debug" "d" "enable debug level logs" reflect.Opaque).1,
              reflect.Scalar (VBool false)).
Proof.
  destruct (example.Parse (example.addressOf example.Schema) ["your_app"; "x"; "-debug"]
              example.start) as [[[err s'] w']|] eqn:Hrun; [|by vm_compute in Hrun].
  destruct (@Parse_flags_after_positional example.casing example.numerals
              (example.addressOf example.Schema) example.Schema true "your_app" "x" ["-debug"]
              example.start err s' w' eq_refl eq_refl (or_intror eq_refl) Hrun)
    as (Hargs & _ & root' & Hs' & Hfields).
  exists err, s', w', root'. split_and!; [done|exact Hargs|exact Hs'|].
  by apply Hfields.
Defined.

Lemma CommandFlagSet_foreign_command_witness :
  ("deploy" ∉ @commandNames example.casing example.Schema)
  ∧ @CommandFlagSet example.casing "deploy" ["-x"]
      (reflect.typeOf (reflect.StructOf example.Schema))
      (reflect.At (reflect.StructOf example.Schema) [] true false) ∅ []
    = Ok (flag.NewFlagSet "deploy" flag.ExitOnError,
          @registry example.casing ∅ example.Schema, []).
Proof.
  assert ("deploy" ∉ (@commandNames example.casing example.Schema)) as Hforeign.
  { apply (bool_decide_unpack _). by vm_compute. }
  split; [exact Hforeign|].
  exact (@CommandFlagSet_foreign_command example.casing "deploy" ["-x"] example.Schema
           [] true false ∅ [] Hforeign).
Defined.

Lemma CommandFlagSet_fresh_variables_witness :
  ∃ cfs cmds' h',
    @CommandFlagSet example.casing "foo" ["-a"; "x"]
      (reflect.typeOf (reflect.StructOf example.Schema))
      (reflect.At (reflect.StructOf example.Schema) [] true false) ∅ [VBool true]
    = Ok (cfs, cmds', h')
    ∧ flag.actual cfs = ∅
    ∧ (∃ more, h' = [VBool true] ++ more)
    ∧ ∀ n fl, flag.formal cfs !! n = Some fl →
        flag.Name fl = n ∧ 1 ≤ flag.pointer (flag.Value_ fl) < length h'.
Proof.
  destruct (@CommandFlagSet example.casing "foo" ["-a"; "x"]
              (reflect.typeOf (reflect.StructOf example.Schema))
              (reflect.At (reflect.StructOf example.Schema) [] true false) ∅ [VBool true])
    as [[[cfs cmds'] h']|] eqn:Hrun; [|by vm_compute in Hrun].
  destruct (@CommandFlagSet_fresh_variables example.casing _ _ _ _ _ _ _ _ _ _ _ Hrun)
    as (_ & _ & _ & Hactual & _ & Hmore & Hfresh).
  by exists cfs, cmds', h'.
Defined.

Lemma Parse_undeclared_flag_exits_witness :
  flagName "zzz"
  ∧ ∃ a, example.Parse (example.addressOf example.Schema) ["your_app"; "-zzz"; "foo"]
           example.start = Abort a
         ∧ (declarationPanic a ∨ a = Exit 2).
Proof.
  assert (flagName "zzz") as Hname by done.
  split; [exact Hname|].
  apply (@Parse_undeclared_flag_exits example.casing example.numerals
           (example.addressOf example.Schema) example.Schema true "your_app" "-" "zzz" None
           ["foo"] example.start eq_refl eq_refl Hname (or_introl eq_refl) eq_refl).
  intros [|[|[|[|[|i]]]]] sf o; simpl; intros [= <- <-]; by vm_compute.
Defined.

Lemma Parse_foreign_command_witness :
  ∃ err s' w' cfs root',
    example.parseBody (example.addressOf example.Schema) ["your_app"; "-debug"] example.start
    = Ok (err, s', w', Some cfs)
    ∧ (flag.name cfs ∉ @commandNames example.casing example.Schema)
    ∧ flag.formal cfs = ∅
    ∧ s' = written (example.addressOf example.Schema) root'
    ∧ fieldAt [3; 0] root'
      = Some ((example.flagField "AAA" "a" "does A" reflect.Opaque).1,
              reflect.Scalar (VString "")).
Proof.
  destruct (example.parseBody (example.addressOf example.Schema) ["your_app"; "-debug"]
              example.start) as [[[[err s'] w'] [cfs|]]|] eqn:Hrun;
    try (by vm_compute in Hrun).
  assert (flag.name cfs ∉ (@commandNames example.casing example.Schema)) as Hforeign.
  { vm_compute in Hrun. injection Hrun as _ _ _ <-.
    apply (bool_decide_unpack _). by vm_compute. }
  destruct (@Parse_foreign_command example.casing example.numerals
              (example.addressOf example.Schema) "your_app" "-debug" [] example.start
              err s' w' cfs example.Schema true Hrun eq_refl Hforeign)
    as (Hformal & _ & root' & Hs' & Hfields).
  exists err, s', w', cfs, root'. split_and!; [done|exact Hforeign|exact Hformal|exact Hs'|].
  by eapply Hfields.
Defined.





